(** * The gold symbol table (gold/symtab.cc)

    A shallow embedding of [Symbol] and [Symbol_table] of gold/symtab.cc:
    the records, the hash table keyed by canonical (name, version) keys,
    ingestion from relocatable and dynamic objects, linker-defined
    symbols, the finalize pass and the writer of the global symbols.

    Conventions.
    - A [Symbol*] is an index into the arena [heap] of records allocated
      with [new]; the null pointer is [None].
    - [fprintf(stderr, ...)] appends a [Diag] to the stream [err];
      [gold_exit(false)] ends the computation in [Exit]; a failed
      [assert], [abort()] and a null dereference end it in [Crash].
    - A template parameter ([size], [big_endian]) is an ordinary argument.
    - [Warnings] is not embedded, nor is [finalize], which ends with
      [Warnings::note_warnings]; [sized_finalize] is.
    - Code that symtab.cc calls and that lives in other files (the
      resolver, the string pool, the layout, [is_common],
      [align_address]) is either a parameter or a definition marked
      "Modelled from the spec". *)

From Stdlib Require Import ZArith Lia Ascii String.
From stdpp Require Import base option gmap list strings.

Local Open Scope Z_scope.

(** ** ELF constants (elfcpp, outside this file's sources; ELF gABI values) *)

Module elfcpp.

Definition SHN_UNDEF : Z := 0.
Definition SHN_LORESERVE : Z := 0xff00.
Definition SHN_ABS : Z := 0xfff1.
Definition SHN_COMMON : Z := 0xfff2.

Definition STB_LOCAL : Z := 0.
Definition STB_GLOBAL : Z := 1.
Definition STB_WEAK : Z := 2.

Definition STT_NOTYPE : Z := 0.
Definition STT_OBJECT : Z := 1.
Definition STT_FUNC : Z := 2.

Definition STV_DEFAULT : Z := 0.
Definition STV_INTERNAL : Z := 1.
Definition STV_HIDDEN : Z := 2.
Definition STV_PROTECTED : Z := 3.

Definition VERSYM_HIDDEN : Z := 0x8000.
Definition VERSYM_VERSION : Z := 0x7fff.
Definition VER_NDX_LOCAL : Z := 0.
Definition VER_NDX_GLOBAL : Z := 1.

(** [Elf_sizes<size>::sym_size]: 16 bytes for ELF32, 24 for ELF64. *)
Definition sym_size (size : Z) : Z := if size =? 32 then 16 else 24.

(** A raw symbol as the accessors of [elfcpp::Sym<size, big_endian>]
    read it: [get_st_name], [get_st_value], [get_st_size], [get_st_bind],
    [get_st_type], [get_st_visibility], [get_st_nonvis], [get_st_shndx]. *)
Record Sym := {
  st_name : Z;
  st_value : Z;
  st_size : Z;
  st_bind : Z;
  st_type : Z;
  st_visibility : Z;
  st_nonvis : Z;
  st_shndx : Z
}.

(** [Sym_write::put_st_shndx] on a copy of the symbol. *)
Definition put_st_shndx (shndx : Z) (s : Sym) : Sym :=
  {| st_name := st_name s; st_value := st_value s; st_size := st_size s;
     st_bind := st_bind s; st_type := st_type s;
     st_visibility := st_visibility s; st_nonvis := st_nonvis s;
     st_shndx := shndx |}.

End elfcpp.

(** ** Collaborators: targets, objects, output data and segments *)

(** What the symbol table asks of a [Target]. [make_symbol] tells whether
    the factory hands out a record ([true]) or a null pointer ([false]). *)
Record Target := {
  get_size : Z;
  is_big_endian : bool;
  has_make_symbol : bool;
  make_symbol : bool
}.

(** [Output_data] / [Output_section]: address, size and output index. *)
Record Output_data := {
  address : Z;
  data_size : Z;
  out_shndx : Z
}.

Record Output_segment := {
  vaddr : Z;
  memsz : Z;
  filesz : Z
}.

(** What the symbol table asks of an [Object] ([Relobj], [Dynobj]).
    [output_section shnum] is [None] for a discarded section and
    otherwise the output section with the offset within it. *)
Record Object := {
  object_name : string;
  is_dynamic : bool;
  target : Target;
  is_section_included : Z -> bool;
  output_section : Z -> option (Output_data * Z)
}.

(** ** Class Symbol *)

Inductive Segment_offset_base := SEGMENT_START | SEGMENT_END | SEGMENT_BSS.

(** [source_] together with the member of the union [u_] it selects. *)
Inductive Source :=
| FROM_OBJECT (object : Object) (shnum : Z)
| IN_OUTPUT_DATA (output_data : Output_data) (offset_is_from_end : bool)
| IN_OUTPUT_SEGMENT (output_segment : Output_segment)
                    (offset_base : Segment_offset_base)
| CONSTANT.

(** [Sized_symbol<size>]: the fields of [Symbol] with [value_] and
    [symsize_]. Canonical strings stand for the canonical pointers. *)
Record Symbol := {
  name_ : string;
  version_ : option string;
  got_offset_ : Z;
  type_ : Z;
  binding_ : Z;
  visibility_ : Z;
  nonvis_ : Z;
  is_target_special_ : bool;
  is_def_ : bool;
  is_forwarder_ : bool;
  in_dyn_ : bool;
  has_got_offset_ : bool;
  has_warning_ : bool;
  source_ : Source;
  value_ : Z;
  symsize_ : Z
}.

(** [Symbol::init_fields]: everything except [u_] and [source_] (and the
    [value_] and [symsize_] of [Sized_symbol]). *)
Definition init_fields (name : string) (version : option string)
    (type binding visibility nonvis : Z) (this : Symbol) : Symbol :=
  {| name_ := name; version_ := version; got_offset_ := 0;
     type_ := type; binding_ := binding; visibility_ := visibility;
     nonvis_ := nonvis;
     is_target_special_ := false; is_def_ := false; is_forwarder_ := false;
     in_dyn_ := false; has_got_offset_ := false; has_warning_ := false;
     source_ := source_ this; value_ := value_ this;
     symsize_ := symsize_ this |}.

Definition set_source (source : Source) (s : Symbol) : Symbol :=
  {| name_ := name_ s; version_ := version_ s; got_offset_ := got_offset_ s;
     type_ := type_ s; binding_ := binding_ s; visibility_ := visibility_ s;
     nonvis_ := nonvis_ s;
     is_target_special_ := is_target_special_ s; is_def_ := is_def_ s;
     is_forwarder_ := is_forwarder_ s;
     in_dyn_ := in_dyn_ s; has_got_offset_ := has_got_offset_ s;
     has_warning_ := has_warning_ s;
     source_ := source; value_ := value_ s; symsize_ := symsize_ s |}.

Definition set_in_dyn (b : bool) (s : Symbol) : Symbol :=
  {| name_ := name_ s; version_ := version_ s; got_offset_ := got_offset_ s;
     type_ := type_ s; binding_ := binding_ s; visibility_ := visibility_ s;
     nonvis_ := nonvis_ s;
     is_target_special_ := is_target_special_ s; is_def_ := is_def_ s;
     is_forwarder_ := is_forwarder_ s;
     in_dyn_ := b; has_got_offset_ := has_got_offset_ s;
     has_warning_ := has_warning_ s;
     source_ := source_ s; value_ := value_ s; symsize_ := symsize_ s |}.

Definition set_value (v : Z) (s : Symbol) : Symbol :=
  {| name_ := name_ s; version_ := version_ s; got_offset_ := got_offset_ s;
     type_ := type_ s; binding_ := binding_ s; visibility_ := visibility_ s;
     nonvis_ := nonvis_ s;
     is_target_special_ := is_target_special_ s; is_def_ := is_def_ s;
     is_forwarder_ := is_forwarder_ s;
     in_dyn_ := in_dyn_ s; has_got_offset_ := has_got_offset_ s;
     has_warning_ := has_warning_ s;
     source_ := source_ s; value_ := v; symsize_ := symsize_ s |}.

Definition set_symsize (v : Z) (s : Symbol) : Symbol :=
  {| name_ := name_ s; version_ := version_ s; got_offset_ := got_offset_ s;
     type_ := type_ s; binding_ := binding_ s; visibility_ := visibility_ s;
     nonvis_ := nonvis_ s;
     is_target_special_ := is_target_special_ s; is_def_ := is_def_ s;
     is_forwarder_ := is_forwarder_ s;
     in_dyn_ := in_dyn_ s; has_got_offset_ := has_got_offset_ s;
     has_warning_ := has_warning_ s;
     source_ := source_ s; value_ := value_ s; symsize_ := v |}.

(** [Symbol::init_base(name, version, object, sym)]. *)
Definition init_base (name : string) (version : option string)
    (object : Object) (sym : elfcpp.Sym) (this : Symbol) : Symbol :=
  set_in_dyn (is_dynamic object)
    (set_source (FROM_OBJECT object (elfcpp.st_shndx sym))
       (init_fields name version (elfcpp.st_type sym) (elfcpp.st_bind sym)
          (elfcpp.st_visibility sym) (elfcpp.st_nonvis sym) this)).

(** [Symbol::init_base(name, od, type, ..., offset_is_from_end)]. *)
Definition init_base_in_output_data (name : string) (od : Output_data)
    (type binding visibility nonvis : Z) (offset_is_from_end : bool)
    (this : Symbol) : Symbol :=
  set_source (IN_OUTPUT_DATA od offset_is_from_end)
    (init_fields name None type binding visibility nonvis this).

(** [Symbol::init_base(name, os, type, ..., offset_base)]. *)
Definition init_base_in_output_segment (name : string) (os : Output_segment)
    (type binding visibility nonvis : Z) (offset_base : Segment_offset_base)
    (this : Symbol) : Symbol :=
  set_source (IN_OUTPUT_SEGMENT os offset_base)
    (init_fields name None type binding visibility nonvis this).

(** [Symbol::init_base(name, type, binding, visibility, nonvis)]. *)
Definition init_base_as_constant (name : string)
    (type binding visibility nonvis : Z) (this : Symbol) : Symbol :=
  set_source CONSTANT
    (init_fields name None type binding visibility nonvis this).

(** [Sized_symbol<size>::init(name, version, object, sym)]. *)
Definition init (name : string) (version : option string) (object : Object)
    (sym : elfcpp.Sym) (this : Symbol) : Symbol :=
  set_symsize (elfcpp.st_size sym)
    (set_value (elfcpp.st_value sym)
       (init_base name version object sym this)).

(** [Sized_symbol<size>::init(name, od, value, symsize, ...)]. *)
Definition init_in_output_data (name : string) (od : Output_data)
    (value symsize type binding visibility nonvis : Z)
    (offset_is_from_end : bool) (this : Symbol) : Symbol :=
  set_symsize symsize
    (set_value value
       (init_base_in_output_data name od type binding visibility nonvis
          offset_is_from_end this)).

(** [Sized_symbol<size>::init(name, os, value, symsize, ...)]. *)
Definition init_in_output_segment (name : string) (os : Output_segment)
    (value symsize type binding visibility nonvis : Z)
    (offset_base : Segment_offset_base) (this : Symbol) : Symbol :=
  set_symsize symsize
    (set_value value
       (init_base_in_output_segment name os type binding visibility nonvis
          offset_base this)).

(** [Sized_symbol<size>::init(name, value, symsize, ...)]. *)
Definition init_as_constant (name : string)
    (value symsize type binding visibility nonvis : Z) (this : Symbol)
    : Symbol :=
  set_symsize symsize
    (set_value value
       (init_base_as_constant name type binding visibility nonvis this)).

Definition set_forwarder (s : Symbol) : Symbol :=
  {| name_ := name_ s; version_ := version_ s; got_offset_ := got_offset_ s;
     type_ := type_ s; binding_ := binding_ s; visibility_ := visibility_ s;
     nonvis_ := nonvis_ s;
     is_target_special_ := is_target_special_ s; is_def_ := is_def_ s;
     is_forwarder_ := true;
     in_dyn_ := in_dyn_ s; has_got_offset_ := has_got_offset_ s;
     has_warning_ := has_warning_ s;
     source_ := source_ s; value_ := value_ s; symsize_ := symsize_ s |}.

(** Modelled from the spec: [Symbol::is_undefined] and [Symbol::is_common]
    are declared in symtab.h, which is not among the sources. A record is
    undefined when it comes from an object with section index [SHN_UNDEF],
    and common (a tentative definition) when the index is [SHN_COMMON]. *)
Definition is_undefined (s : Symbol) : bool :=
  match source_ s with
  | FROM_OBJECT _ shnum => shnum =? elfcpp.SHN_UNDEF
  | _ => false
  end.

(** Modelled from the spec: [Symbol::is_common] (symtab.h), see above. *)
Definition is_common (s : Symbol) : bool :=
  match source_ s with
  | FROM_OBJECT _ shnum => shnum =? elfcpp.SHN_COMMON
  | _ => false
  end.

(** The record a bare [new Sized_symbol<size>()] yields; every path
    initializes it with one of the [init] functions before reading it. *)
Definition new_Sized_symbol : Symbol :=
  {| name_ := EmptyString; version_ := None; got_offset_ := 0;
     type_ := 0; binding_ := 0; visibility_ := 0; nonvis_ := 0;
     is_target_special_ := false; is_def_ := false; is_forwarder_ := false;
     in_dyn_ := false; has_got_offset_ := false; has_warning_ := false;
     source_ := CONSTANT; value_ := 0; symsize_ := 0 |}.

(** ** Stringpool *)

(** Modelled from the spec: stringpool.cc is not among the sources. The
    pool interns strings; the key of a string is its position counted
    from one (key 0 is reserved), equal strings get equal keys, and
    [find] never inserts. *)
Module Stringpool.

(** [Stringpool::Key] is [Z]. *)

(** The key of [s] in [pool], whose first string has key [i]. *)
Fixpoint index_of (s : string) (pool : list string) (i : Z) : option Z :=
  match pool with
  | [] => None
  | x :: rest => if String.eqb s x then Some i else index_of s rest (i + 1)
  end.

(** [Stringpool::find(s, &key)]: the key, or [None] for a null result. *)
Definition find (s : string) (pool : list string) : option Z :=
  index_of s pool 1.

(** [Stringpool::add(s, &key)]: the pool afterwards and the key. *)
Definition add (s : string) (pool : list string) : list string * Z :=
  match find s pool with
  | Some k => (pool, k)
  | None => (pool ++ [s], Z.of_nat (length pool) + 1)
  end.

End Stringpool.

(** ** Diagnostics and outcomes *)

(** The messages symtab.cc prints on [stderr], with their arguments. *)
Inductive Diag :=
| Mixing_32_bit_and_64_bit (object : string)
| Bad_global_symbol_name_offset (object : string) (st_name i : Z)
| Bad_symbol_name_offset (object : string) (st_name i : Z)
| Too_few_symbol_versions (object : string)
| Versym_out_of_range (object : string) (i v : Z)
| Versym_has_no_name (object : string) (i v : Z)
| Linker_defined_multiple_definition (name : string)
| Unsupported_symbol_section (name : string) (shnum : Z)
| Multiple_definition (object name : string).

(** How a call ends: it returns, it prints [d] and calls
    [gold_exit(false)], or it dies on an assertion, [abort()] or a null
    pointer. *)
Inductive outcome (A : Type) : Type :=
| Ok (a : A)
| Exit (d : Diag)
| Crash.

Arguments Ok {A} a.
Arguments Exit {A} d.
Arguments Crash {A}.

(** ** Class Symbol_table *)

(** The members of [Symbol_table] (without [warnings_]), the arena of
    the records it allocated and the diagnostic stream. *)
Record Symbol_table := {
  size_ : Z;
  saw_undefined_ : Z;
  offset_ : Z;
  output_count_ : Z;
  table_ : gmap (Z * Z) (option nat);
  namepool_ : list string;
  forwarders_ : gmap nat nat;
  commons_ : list nat;
  heap : list Symbol;
  err : list Diag
}.

(** [Symbol_table::Symbol_table()]. *)
Definition Symbol_table_new : Symbol_table :=
  {| size_ := 0; saw_undefined_ := 0; offset_ := 0; output_count_ := 0;
     table_ := ∅; namepool_ := []; forwarders_ := ∅; commons_ := [];
     heap := []; err := [] |}.

Definition with_size (v : Z) (st : Symbol_table) : Symbol_table :=
  {| size_ := v; saw_undefined_ := saw_undefined_ st; offset_ := offset_ st;
     output_count_ := output_count_ st; table_ := table_ st;
     namepool_ := namepool_ st; forwarders_ := forwarders_ st;
     commons_ := commons_ st; heap := heap st; err := err st |}.

Definition with_saw_undefined (v : Z) (st : Symbol_table) : Symbol_table :=
  {| size_ := size_ st; saw_undefined_ := v; offset_ := offset_ st;
     output_count_ := output_count_ st; table_ := table_ st;
     namepool_ := namepool_ st; forwarders_ := forwarders_ st;
     commons_ := commons_ st; heap := heap st; err := err st |}.

Definition with_offset (v : Z) (st : Symbol_table) : Symbol_table :=
  {| size_ := size_ st; saw_undefined_ := saw_undefined_ st; offset_ := v;
     output_count_ := output_count_ st; table_ := table_ st;
     namepool_ := namepool_ st; forwarders_ := forwarders_ st;
     commons_ := commons_ st; heap := heap st; err := err st |}.

Definition with_output_count (v : Z) (st : Symbol_table) : Symbol_table :=
  {| size_ := size_ st; saw_undefined_ := saw_undefined_ st;
     offset_ := offset_ st; output_count_ := v; table_ := table_ st;
     namepool_ := namepool_ st; forwarders_ := forwarders_ st;
     commons_ := commons_ st; heap := heap st; err := err st |}.

Definition with_table (v : gmap (Z * Z) (option nat)) (st : Symbol_table)
    : Symbol_table :=
  {| size_ := size_ st; saw_undefined_ := saw_undefined_ st;
     offset_ := offset_ st; output_count_ := output_count_ st; table_ := v;
     namepool_ := namepool_ st; forwarders_ := forwarders_ st;
     commons_ := commons_ st; heap := heap st; err := err st |}.

Definition with_namepool (v : list string) (st : Symbol_table)
    : Symbol_table :=
  {| size_ := size_ st; saw_undefined_ := saw_undefined_ st;
     offset_ := offset_ st; output_count_ := output_count_ st;
     table_ := table_ st; namepool_ := v; forwarders_ := forwarders_ st;
     commons_ := commons_ st; heap := heap st; err := err st |}.

Definition with_forwarders (v : gmap nat nat) (st : Symbol_table)
    : Symbol_table :=
  {| size_ := size_ st; saw_undefined_ := saw_undefined_ st;
     offset_ := offset_ st; output_count_ := output_count_ st;
     table_ := table_ st; namepool_ := namepool_ st; forwarders_ := v;
     commons_ := commons_ st; heap := heap st; err := err st |}.

Definition with_commons (v : list nat) (st : Symbol_table) : Symbol_table :=
  {| size_ := size_ st; saw_undefined_ := saw_undefined_ st;
     offset_ := offset_ st; output_count_ := output_count_ st;
     table_ := table_ st; namepool_ := namepool_ st;
     forwarders_ := forwarders_ st; commons_ := v; heap := heap st;
     err := err st |}.

Definition with_heap (v : list Symbol) (st : Symbol_table) : Symbol_table :=
  {| size_ := size_ st; saw_undefined_ := saw_undefined_ st;
     offset_ := offset_ st; output_count_ := output_count_ st;
     table_ := table_ st; namepool_ := namepool_ st;
     forwarders_ := forwarders_ st; commons_ := commons_ st; heap := v;
     err := err st |}.

Definition with_err (v : list Diag) (st : Symbol_table) : Symbol_table :=
  {| size_ := size_ st; saw_undefined_ := saw_undefined_ st;
     offset_ := offset_ st; output_count_ := output_count_ st;
     table_ := table_ st; namepool_ := namepool_ st;
     forwarders_ := forwarders_ st; commons_ := commons_ st; heap := heap st;
     err := v |}.



(** *** The monad of member functions: state passing with outcomes *)

Definition M (A : Type) : Type := Symbol_table -> outcome (A * Symbol_table).

Definition retM {A} (a : A) : M A := fun st => Ok (a, st).

Definition bindM {A B} (c : M A) (k : A -> M B) : M B :=
  fun st =>
    match c st with
    | Ok (a, st') => k a st'
    | Exit d => Exit d
    | Crash => Crash
    end.

#[global] Instance M_ret : MRet M := @retM.
#[global] Instance M_bind : MBind M := fun A B k c => bindM c k.

(** [gold_exit(false)] after printing [d]. *)
Definition gold_exit {A} (d : Diag) : M A := fun _ => Exit d.

(** [abort()], a failed assertion, a null dereference. *)
Definition crash {A} : M A := fun _ => Crash.

Definition assert (b : bool) : M unit :=
  if b then retM tt else crash.

(** [fprintf(stderr, ...)]. *)
Definition fprintf_stderr (d : Diag) : M unit :=
  fun st => Ok (tt, with_err (err st ++ [d]) st).

Definition get {A} (f : Symbol_table -> A) : M A := fun st => Ok (f st, st).

Definition modify (f : Symbol_table -> Symbol_table) : M unit :=
  fun st => Ok (tt, f st).

(** [*p] for a [Symbol* p]. *)
Definition deref (p : option nat) : M Symbol :=
  fun st =>
    match p with
    | Some a => match heap st !! a with
                | Some s => Ok (s, st)
                | None => Crash
                end
    | None => Crash
    end.

(** [*p = s]. *)
Definition store (p : nat) (s : Symbol) : M unit :=
  modify (fun st => with_heap (<[p := s]> (heap st)) st).

(** [p->f(...)] for a member function [f] that assigns to fields of [*p]. *)
Definition update (p : nat) (f : Symbol -> Symbol) : M unit :=
  s ← deref (Some p);
  store p (f s).

(** [new Sized_symbol<size>()]. *)
Definition new_symbol : M nat :=
  fun st => Ok (length (heap st), with_heap (heap st ++ [new_Sized_symbol]) st).

(** [table_.insert(std::make_pair(k, snull)).second]: the entry is added
    with a null value when the key is absent. *)
Definition table_insert_snull (k : Z * Z) : M bool :=
  fun st =>
    match table_ st !! k with
    | Some _ => Ok (false, st)
    | None => Ok (true, with_table (<[k := None]> (table_ st)) st)
    end.

(** [it->second] for the iterator of a key known to be present. *)
Definition table_second (k : Z * Z) : M (option nat) :=
  fun st =>
    match table_ st !! k with
    | Some p => Ok (p, st)
    | None => Crash
    end.

(** [it->second = p]. *)
Definition table_assign (k : Z * Z) (p : option nat) : M unit :=
  modify (fun st => with_table (<[k := p]> (table_ st)) st).

(** [table_.erase(k)]. *)
Definition table_erase (k : Z * Z) : M unit :=
  modify (fun st => with_table (delete k (table_ st)) st).

(** [Symbol_table::make_forwarder]. *)
Definition make_forwarder (from to : option nat) : M unit :=
  assert (negb (bool_decide (from = to)));;
  f ← deref from;
  t ← deref to;
  assert (negb (is_forwarder_ f) && negb (is_forwarder_ t));;
  match from, to with
  | Some pf, Some pt =>
      modify (fun st => with_forwarders (<[pf := pt]> (forwarders_ st)) st);;
      store pf (set_forwarder f)
  | _, _ => crash
  end.

(** [Symbol_table::resolve_forwards]. *)
Definition resolve_forwards (from : option nat) (st : Symbol_table)
    : outcome (option nat) :=
  match deref from st with
  | Ok (f, _) =>
      if is_forwarder_ f then
        match from with
        | Some pf => match forwarders_ st !! pf with
                     | Some pt => Ok (Some pt)
                     | None => Crash
                     end
        | None => Crash
        end
      else Crash
  | Exit d => Exit d
  | Crash => Crash
  end.

(** [Symbol_table::lookup]: a [const] member, so a function of the state. *)
Definition lookup (name : string) (version : option string)
    (st : Symbol_table) : option nat :=
  match Stringpool.find name (namepool_ st) with
  | None => None
  | Some name_key =>
      let version_key :=
        match version with
        | None => Some 0
        | Some v => Stringpool.find v (namepool_ st)
        end in
      match version_key with
      | None => None
      | Some version_key =>
          match table_ st !! (name_key, version_key) with
          | None => None
          | Some p => p
          end
      end
  end.

(** [Symbol::object()] and [Symbol::shnum()]: the members of
    [u_.from_object], read only when [source_] is [FROM_OBJECT]. *)
Definition from_object (s : Symbol) : M (Object * Z) :=
  match source_ s with
  | FROM_OBJECT object shnum => mret (object, shnum)
  | _ => crash
  end.

(** ** Ingestion *)

Section Ingestion.

(** [Symbol_table::resolve(to, sym, object)] is defined in resolve.cc,
    which is not among the sources: the functions below take it as a
    parameter. It computes the new contents of the record [to] from the
    incoming symbol, or ends the link. *)
Variable resolve : Symbol -> elfcpp.Sym -> Object -> outcome Symbol.

(** The call [Symbol_table::resolve(to, sym, object)]. *)
Definition resolve_at (to : nat) (sym : elfcpp.Sym) (object : Object)
    : M unit :=
  r ← deref (Some to);
  match resolve r sym object with
  | Ok r' => store to r'
  | Exit d => gold_exit d
  | Crash => crash
  end.

(** [Symbol_table::resolve(to, from)]: [from] is written back as an ELF
    symbol ([st_name] is left unset) and resolved into [to]. The [put_]
    functions keep the bits that fit the ELF fields. *)
Definition resolve_symbols (to : nat) (from : option nat) : M unit :=
  f ← deref from;
  '(object, shnum) ← from_object f;
  let esym :=
    {| elfcpp.st_name := 0;
       elfcpp.st_value := value_ f;
       elfcpp.st_size := symsize_ f;
       elfcpp.st_bind := Z.land (binding_ f) 0xf;
       elfcpp.st_type := Z.land (type_ f) 0xf;
       elfcpp.st_visibility := Z.land (visibility_ f) 3;
       elfcpp.st_nonvis := Z.land (nonvis_ f) 0x3f;
       elfcpp.st_shndx := Z.land shnum 0xffff |} in
  resolve_at to esym object.

(** The first part of [add_from_object]: the two insertions and the
    branches that settle [ret], [was_undefined] and [was_common].
    [None] is the early [return NULL]. *)
Definition add_from_object_entry (size : Z) (big_endian : bool)
    (object : Object) (name : string) (name_key : Z)
    (version : option string) (version_key : Z) (def : bool)
    (sym : elfcpp.Sym) : M (option (nat * bool * bool)) :=
  ins_second ← table_insert_snull (name_key, version_key);
  insdef_second ←
    (if def then table_insert_snull (name_key, 0) else mret false);
  if negb ins_second then
    (* We already have an entry for NAME/VERSION. *)
    p ← table_second (name_key, version_key);
    match p : option nat with
    | None => crash                      (* assert(ret != NULL) *)
    | Some ret =>
        r ← deref (Some ret);
        let was_undefined := is_undefined r in
        let was_common := is_common r in
        resolve_at ret sym object;;
        (if def then
           if insdef_second : bool then
             table_assign (name_key, 0) (Some ret)
           else
             p0 ← table_second (name_key, 0);
             if negb (bool_decide (p0 = Some ret)) then
               resolve_symbols ret p0;;
               make_forwarder p0 (Some ret);;
               table_assign (name_key, 0) (Some ret)
             else mret tt
         else mret tt);;
        mret (Some (ret, was_undefined, was_common))
    end
  else
    (* This is the first time we have seen NAME/VERSION. *)
    p ← table_second (name_key, version_key);
    assert (bool_decide (p = None));;
    if def && negb insdef_second then
      (* We already have an entry for NAME/NULL. *)
      p0 ← table_second (name_key, 0);
      match p0 : option nat with
      | None => crash                    (* resolve through a null pointer *)
      | Some ret =>
          resolve_at ret sym object;;
          table_assign (name_key, version_key) (Some ret);;
          mret (Some (ret, false, false))
      end
    else
      let target := target object in
      made ←
        (if negb (has_make_symbol target) then
           ret ← new_symbol; mret (Some ret)
         else if make_symbol target then
           ret ← new_symbol; mret (Some ret)
         else mret None);
      match made : option nat with
      | None =>
          (* This means that we don't want a symbol table entry after
             all. *)
          (if negb def then table_erase (name_key, version_key)
           else
             table_erase (name_key, 0);;
             (* Inserting insdef invalidated ins. *)
             table_erase (name_key, version_key));;
          mret None
      | Some ret =>
          update ret (init name version object sym);;
          table_assign (name_key, version_key) (Some ret);;
          (if def then
             (* This is the first time we have seen NAME/NULL. *)
             assert insdef_second;;
             table_assign (name_key, 0) (Some ret)
           else mret tt);;
          mret (Some (ret, false, false))
      end.

(** [Symbol_table::add_from_object]. *)
Definition add_from_object (size : Z) (big_endian : bool) (object : Object)
    (name : string) (name_key : Z) (version : option string)
    (version_key : Z) (def : bool) (sym : elfcpp.Sym) : M (option nat) :=
  e ← add_from_object_entry size big_endian object name name_key version
        version_key def sym;
  match e : option (nat * bool * bool) with
  | None => mret None
  | Some (ret, was_undefined, was_common) =>
      r ← deref (Some ret);
      (* Record every time we see a new undefined symbol. *)
      (if negb was_undefined && is_undefined r then
         modify (fun st => with_saw_undefined (saw_undefined_ st + 1) st)
       else mret tt);;
      (* Keep track of common symbols. *)
      (if negb was_common && is_common r then
         modify (fun st => with_commons (commons_ st ++ [ret]) st)
       else mret tt);;
      mret (Some ret)
  end.

(** [namepool_.add(s, &key)]. *)
Definition namepool_add (s : string) : M Z :=
  fun st =>
    let '(pool, key) := Stringpool.add s (namepool_ st) in
    Ok (key, with_namepool pool st).

(** The NUL-terminated string at the start of [s]. *)
Fixpoint c_str (s : string) : string :=
  match s with
  | EmptyString => EmptyString
  | String c rest =>
      if Ascii.eqb c zero then EmptyString else String c (c_str rest)
  end.

(** [s + n]: the string past its first [n] characters. *)
Fixpoint string_drop (n : nat) (s : string) : string :=
  match n, s with
  | O, _ => s
  | S n', String _ rest => string_drop n' rest
  | S _, EmptyString => EmptyString
  end.

(** [sym_names + st_name] read as a C string. *)
Definition name_at (sym_names : string) (st_name : Z) : string :=
  c_str (string_drop (Z.to_nat st_name) sym_names).

(** [strchr(s, c)]: the part of [s] before the first [c] and the part
    that starts at it, or [None] when [c] does not occur. *)
Fixpoint strchr (s : string) (c : ascii) : option (string * string) :=
  match s with
  | EmptyString => None
  | String x rest =>
      if Ascii.eqb x c then Some (EmptyString, s)
      else match strchr rest c with
           | Some (before, from) => Some (String x before, from)
           | None => None
           end
  end.

(** The body of the loop of [add_from_relobj] for the symbol of index [i];
    the result is the pointer stored through [sympointers]. *)
Definition add_from_relobj_symbol (size : Z) (big_endian : bool)
    (relobj : Object) (sym_names : string) (sym_name_size : Z)
    (i : Z) (sym : elfcpp.Sym) : M (option nat) :=
  let st_name := elfcpp.st_name sym in
  if sym_name_size <=? st_name then
    gold_exit (Bad_global_symbol_name_offset (object_name relobj) st_name i)
  else
    let name := name_at sym_names st_name in
    (* A symbol defined in a section which we are not including must be
       treated as an undefined symbol. *)
    let st_shndx := elfcpp.st_shndx sym in
    let psym :=
      if negb (st_shndx =? elfcpp.SHN_UNDEF)
         && (st_shndx <? elfcpp.SHN_LORESERVE)
         && negb (is_section_included relobj st_shndx)
      then elfcpp.put_st_shndx elfcpp.SHN_UNDEF sym
      else sym in
    match strchr name "@" with
    | None =>
        name_key ← namepool_add name;
        add_from_object size big_endian relobj name name_key None 0 false
          psym
    | Some (name, ver) =>
        name_key ← namepool_add name;
        let ver := string_drop 1 ver in
        let '(def, ver) :=
          match ver with
          | String "@" rest => (true, rest)
          | _ => (false, ver)
          end in
        ver_key ← namepool_add ver;
        add_from_object size big_endian relobj name name_key (Some ver)
          ver_key def psym
    end.

(** The [for] loop of [add_from_relobj] from index [i] on. *)
Fixpoint add_from_relobj_loop (size : Z) (big_endian : bool)
    (relobj : Object) (sym_names : string) (sym_name_size : Z)
    (i : Z) (syms : list elfcpp.Sym) : M (list (option nat)) :=
  match syms with
  | [] => mret []
  | sym :: rest =>
      res ← add_from_relobj_symbol size big_endian relobj sym_names
              sym_name_size i sym;
      ptrs ← add_from_relobj_loop size big_endian relobj sym_names
               sym_name_size (i + 1) rest;
      mret (res :: ptrs)
  end.

(** [Symbol_table::add_from_relobj]; [count] is the length of [syms] and
    the result is what the call leaves in [sympointers]. *)
Definition add_from_relobj (size : Z) (big_endian : bool) (relobj : Object)
    (syms : list elfcpp.Sym) (sym_names : string) (sym_name_size : Z)
    : M (list (option nat)) :=
  (* We take the size from the first object we see. *)
  sz ← get size_;
  (if sz =? 0 then modify (with_size size) else mret tt);;
  sz ← get size_;
  if negb (size =? sz) || negb (size =? get_size (target relobj)) then
    gold_exit (Mixing_32_bit_and_64_bit (object_name relobj))
  else
    add_from_relobj_loop size big_endian relobj sym_names sym_name_size 0
      syms.

(** [elfcpp::Swap<16, big_endian>::readval(versym + off)]. *)
Definition readval16 (big_endian : bool) (versym : list Z) (off : nat) : Z :=
  let b0 := default 0 (versym !! off) in
  let b1 := default 0 (versym !! S off) in
  if big_endian then Z.lor (Z.shiftl b0 8) b1 else Z.lor (Z.shiftl b1 8) b0.

(** The body of the loop of [add_from_dynobj] for the symbol of index [i]. *)
Definition add_from_dynobj_symbol (size : Z) (big_endian : bool)
    (dynobj : Object) (sym_names : string) (sym_name_size : Z)
    (versym : option (list Z)) (version_map : list (option string))
    (i : Z) (sym : elfcpp.Sym) : M unit :=
  (* Ignore symbols with local binding. *)
  if elfcpp.st_bind sym =? elfcpp.STB_LOCAL then mret tt
  else
    let st_name := elfcpp.st_name sym in
    if sym_name_size <=? st_name then
      gold_exit (Bad_symbol_name_offset (object_name dynobj) st_name i)
    else
      let name := name_at sym_names st_name in
      match versym with
      | None =>
          name_key ← namepool_add name;
          add_from_object size big_endian dynobj name name_key None 0 false
            sym;;
          mret tt
      | Some vs =>
          (* Read the version information. *)
          let v := readval16 big_endian vs (Z.to_nat (2 * i)) in
          let hidden := negb (Z.land v elfcpp.VERSYM_HIDDEN =? 0) in
          let v := Z.land v elfcpp.VERSYM_VERSION in
          if v =? elfcpp.VER_NDX_LOCAL then
            (* This symbol should not be visible outside the object. *)
            mret tt
          else
            (* At this point we are definitely going to add this symbol. *)
            name_key ← namepool_add name;
            if v =? elfcpp.VER_NDX_GLOBAL then
              (* This symbol does not have a version. *)
              add_from_object size big_endian dynobj name name_key None 0
                false sym;;
              mret tt
            else if Z.of_nat (length version_map) <=? v then
              gold_exit (Versym_out_of_range (object_name dynobj) i v)
            else
              match version_map !! Z.to_nat v with
              | None | Some None =>
                  gold_exit (Versym_has_no_name (object_name dynobj) i v)
              | Some (Some version) =>
                  version_key ← namepool_add version;
                  (* The version definition symbol: record no version. *)
                  if (elfcpp.st_shndx sym =? elfcpp.SHN_ABS)
                     && (name_key =? version_key)
                  then
                    add_from_object size big_endian dynobj name name_key
                      None 0 false sym;;
                    mret tt
                  else
                    let def :=
                      negb hidden
                      && negb (elfcpp.st_shndx sym =? elfcpp.SHN_UNDEF) in
                    add_from_object size big_endian dynobj name name_key
                      (Some version) version_key def sym;;
                    mret tt
              end
      end.

(** The [for] loop of [add_from_dynobj] from index [i] on. *)
Fixpoint add_from_dynobj_loop (size : Z) (big_endian : bool)
    (dynobj : Object) (sym_names : string) (sym_name_size : Z)
    (versym : option (list Z)) (version_map : list (option string))
    (i : Z) (syms : list elfcpp.Sym) : M unit :=
  match syms with
  | [] => mret tt
  | sym :: rest =>
      add_from_dynobj_symbol size big_endian dynobj sym_names sym_name_size
        versym version_map i sym;;
      add_from_dynobj_loop size big_endian dynobj sym_names sym_name_size
        versym version_map (i + 1) rest
  end.

(** [Symbol_table::add_from_dynobj]; [count] is the length of [syms] and
    [versym] is [None] for a null pointer. *)
Definition add_from_dynobj (size : Z) (big_endian : bool) (dynobj : Object)
    (syms : list elfcpp.Sym) (sym_names : string) (sym_name_size : Z)
    (versym : option (list Z)) (versym_size : Z)
    (version_map : list (option string)) : M unit :=
  (* We take the size from the first object we see. *)
  sz ← get size_;
  (if sz =? 0 then modify (with_size size) else mret tt);;
  sz ← get size_;
  if negb (size =? sz) || negb (size =? get_size (target dynobj)) then
    gold_exit (Mixing_32_bit_and_64_bit (object_name dynobj))
  else if bool_decide (versym ≠ None)
          && (versym_size / 2 <? Z.of_nat (length syms)) then
    gold_exit (Too_few_symbol_versions (object_name dynobj))
  else
    add_from_dynobj_loop size big_endian dynobj sym_names sym_name_size
      versym version_map 0 syms.

End Ingestion.

(** ** Linker-defined symbols *)

(** [Symbol_table::define_special_symbol]: the record to initialize, or
    [None] for [return NULL]. The first block settles [oldsym] and [sym];
    its [None] is an early [return NULL]. *)
Definition define_special_symbol (size : Z) (big_endian : bool)
    (target : Target) (name : string) (only_if_ref : bool)
    : M (option nat) :=
  sz ← get size_;
  assert (sz =? size);;
  found ←
    (if only_if_ref then
       oldsym ← get (lookup name None);
       match oldsym : option nat with
       | None => mret None
       | Some _ =>
           s ← deref oldsym;
           if negb (is_undefined s) then mret None
           else mret (Some (oldsym, None))
       end
     else
       (* Canonicalize NAME. *)
       name_key ← namepool_add name;
       ins_second ← table_insert_snull (name_key, 0);
       if negb ins_second then
         (* We already have a symbol table entry for NAME. *)
         oldsym ← table_second (name_key, 0);
         assert (bool_decide (oldsym ≠ None));;
         mret (Some (oldsym, None))
       else
         (* We haven't seen this symbol before. *)
         p ← table_second (name_key, 0);
         assert (bool_decide (p = None));;
         if negb (has_make_symbol target) then
           sym ← new_symbol;
           table_assign (name_key, 0) (Some sym);;
           mret (Some (None, Some sym))
         else
           assert (get_size target =? size);;
           assert (eqb (is_big_endian target) big_endian);;
           if make_symbol target then
             sym ← new_symbol;
             table_assign (name_key, 0) (Some sym);;
             mret (Some (None, Some sym))
           else mret None);
  match found : option (option nat * option nat) with
  | None => mret None
  | Some (None, sym) => mret sym
  | Some (Some old, sym) =>
      assert (bool_decide (sym = None));;
      s ← deref (Some old);
      match source_ s with
      | FROM_OBJECT object old_shnum =>
          if negb (old_shnum =? elfcpp.SHN_UNDEF)
             && negb (old_shnum =? elfcpp.SHN_COMMON)
             && negb (is_dynamic object)
          then
            fprintf_stderr (Linker_defined_multiple_definition name);;
            (* FIXME: Report old location.  Record that we have seen an
               error. *)
            mret None
          else
            (* Our new definition is going to override the old reference. *)
            mret (Some old)
      | _ => crash       (* assert(sym->source() == Symbol::FROM_OBJECT) *)
      end
  end.

(** The value an [Elf_Addr] or [Elf_WXword] of [size] bits holds. *)
Definition wrap (size : Z) (z : Z) : Z := z mod 2 ^ size.

(** [Symbol_table::do_define_in_output_data<size>]. *)
Definition do_define_in_output_data (size : Z) (target : Target)
    (name : string) (od : Output_data) (value symsize : Z)
    (type binding visibility nonvis : Z) (offset_is_from_end : bool)
    (only_if_ref : bool) : M unit :=
  sym ← define_special_symbol size (is_big_endian target) target name
          only_if_ref;
  match sym : option nat with
  | None => mret tt
  | Some sym =>
      update sym (init_in_output_data name od (wrap size value)
                   (wrap size symsize) type binding visibility nonvis
                   offset_is_from_end)
  end.

(** [Symbol_table::do_define_in_output_segment<size>]. *)
Definition do_define_in_output_segment (size : Z) (target : Target)
    (name : string) (os : Output_segment) (value symsize : Z)
    (type binding visibility nonvis : Z) (offset_base : Segment_offset_base)
    (only_if_ref : bool) : M unit :=
  sym ← define_special_symbol size (is_big_endian target) target name
          only_if_ref;
  match sym : option nat with
  | None => mret tt
  | Some sym =>
      update sym (init_in_output_segment name os (wrap size value)
                   (wrap size symsize) type binding visibility nonvis
                   offset_base)
  end.

(** [Symbol_table::do_define_as_constant<size>]. *)
Definition do_define_as_constant (size : Z) (target : Target)
    (name : string) (value symsize : Z)
    (type binding visibility nonvis : Z) (only_if_ref : bool) : M unit :=
  sym ← define_special_symbol size (is_big_endian target) target name
          only_if_ref;
  match sym : option nat with
  | None => mret tt
  | Some sym =>
      update sym (init_as_constant name (wrap size value) (wrap size symsize)
                   type binding visibility nonvis)
  end.

(** The dispatch on [size_] shared by the three [define_] functions. *)
Definition dispatch_size (target : Target) (sized : Z -> M unit) : M unit :=
  sz ← get size_;
  assert (get_size target =? sz);;
  if sz =? 32 then sized 32
  else if sz =? 64 then sized 64
  else crash.

(** [Symbol_table::define_in_output_data]. *)
Definition define_in_output_data (target : Target) (name : string)
    (od : Output_data) (value symsize : Z)
    (type binding visibility nonvis : Z) (offset_is_from_end : bool)
    (only_if_ref : bool) : M unit :=
  dispatch_size target (fun size =>
    do_define_in_output_data size target name od value symsize type binding
      visibility nonvis offset_is_from_end only_if_ref).

(** [Symbol_table::define_in_output_segment]. *)
Definition define_in_output_segment (target : Target) (name : string)
    (os : Output_segment) (value symsize : Z)
    (type binding visibility nonvis : Z) (offset_base : Segment_offset_base)
    (only_if_ref : bool) : M unit :=
  dispatch_size target (fun size =>
    do_define_in_output_segment size target name os value symsize type
      binding visibility nonvis offset_base only_if_ref).

(** [Symbol_table::define_as_constant]. *)
Definition define_as_constant (target : Target) (name : string)
    (value symsize : Z) (type binding visibility nonvis : Z)
    (only_if_ref : bool) : M unit :=
  dispatch_size target (fun size =>
    do_define_as_constant size target name value symsize type binding
      visibility nonvis only_if_ref).

(** ** Sets of linker-defined symbols *)

(** [Define_symbol_in_section], declared in symtab.h: the members that
    [define_symbols] reads. *)
Module Define_symbol_in_section.

Record t := {
  name : string;
  output_section : string;
  value : Z;
  size : Z;
  type : Z;
  binding : Z;
  visibility : Z;
  nonvis : Z;
  offset_is_from_end : bool;
  only_if_ref : bool
}.

End Define_symbol_in_section.

(** [Define_symbol_in_segment], declared in symtab.h: the members that
    [define_symbols] reads. *)
Module Define_symbol_in_segment.

Record t := {
  name : string;
  segment_type : Z;
  segment_flags_set : Z;
  segment_flags_clear : Z;
  value : Z;
  size : Z;
  type : Z;
  binding : Z;
  visibility : Z;
  nonvis : Z;
  offset_base : Segment_offset_base;
  only_if_ref : bool
}.

End Define_symbol_in_segment.

Section Layout.

(** [Layout::find_output_section] and [Layout::find_output_segment] are
    defined in layout.cc, which is not among the sources: the two
    [define_symbols] take them as parameters. [None] is the null
    pointer. *)
Variable find_output_section : string -> option Output_data.
Variable find_output_segment : Z -> Z -> Z -> option Output_segment.

(** [Symbol_table::define_symbols(layout, target, count, p)] for an
    array of [Define_symbol_in_section]; [count] is the length of
    [ps]. *)
Fixpoint define_symbols (target : Target)
    (ps : list Define_symbol_in_section.t) : M unit :=
  match ps with
  | [] => mret tt
  | p :: rest =>
      match find_output_section (Define_symbol_in_section.output_section p)
      with
      | Some os =>
          define_in_output_data target (Define_symbol_in_section.name p) os
            (Define_symbol_in_section.value p)
            (Define_symbol_in_section.size p)
            (Define_symbol_in_section.type p)
            (Define_symbol_in_section.binding p)
            (Define_symbol_in_section.visibility p)
            (Define_symbol_in_section.nonvis p)
            (Define_symbol_in_section.offset_is_from_end p)
            (Define_symbol_in_section.only_if_ref p)
      | None =>
          define_as_constant target (Define_symbol_in_section.name p) 0
            (Define_symbol_in_section.size p)
            (Define_symbol_in_section.type p)
            (Define_symbol_in_section.binding p)
            (Define_symbol_in_section.visibility p)
            (Define_symbol_in_section.nonvis p)
            (Define_symbol_in_section.only_if_ref p)
      end;;
      define_symbols target rest
  end.

(** [Symbol_table::define_symbols(layout, target, count, p)] for an
    array of [Define_symbol_in_segment]. *)
Fixpoint define_symbols_in_segments (target : Target)
    (ps : list Define_symbol_in_segment.t) : M unit :=
  match ps with
  | [] => mret tt
  | p :: rest =>
      match find_output_segment (Define_symbol_in_segment.segment_type p)
              (Define_symbol_in_segment.segment_flags_set p)
              (Define_symbol_in_segment.segment_flags_clear p)
      with
      | Some os =>
          define_in_output_segment target (Define_symbol_in_segment.name p)
            os (Define_symbol_in_segment.value p)
            (Define_symbol_in_segment.size p)
            (Define_symbol_in_segment.type p)
            (Define_symbol_in_segment.binding p)
            (Define_symbol_in_segment.visibility p)
            (Define_symbol_in_segment.nonvis p)
            (Define_symbol_in_segment.offset_base p)
            (Define_symbol_in_segment.only_if_ref p)
      | None =>
          define_as_constant target (Define_symbol_in_segment.name p) 0
            (Define_symbol_in_segment.size p)
            (Define_symbol_in_segment.type p)
            (Define_symbol_in_segment.binding p)
            (Define_symbol_in_segment.visibility p)
            (Define_symbol_in_segment.nonvis p)
            (Define_symbol_in_segment.only_if_ref p)
      end;;
      define_symbols_in_segments target rest
  end.

End Layout.

(** ** Finalize *)

(** Modelled from the spec: [align_address] is declared outside the
    sources; the file offset is aligned up to the word size in bytes. *)
Definition align_address (address addralign : Z) : Z :=
  if addralign =? 0 then address
  else Z.land (address + addralign - 1) (Z.lnot (addralign - 1)).

(** The [switch (sym->source())] of [sized_finalize]: the final value of
    the record, [None] when the loop moves on without emitting it. *)
Definition sized_finalize_value (size : Z) (sym : Symbol)
    : outcome (option Z) :=
  match source_ sym with
  | FROM_OBJECT symobj shnum =>
      if (elfcpp.SHN_LORESERVE <=? shnum) && negb (shnum =? elfcpp.SHN_ABS)
      then Exit (Unsupported_symbol_section (name_ sym) shnum)
      else if is_dynamic symobj then Ok (Some 0)
      else if shnum =? elfcpp.SHN_UNDEF then Ok (Some 0)
      else if shnum =? elfcpp.SHN_ABS then Ok (Some (value_ sym))
      else
        match output_section symobj shnum with
        | None => Ok None
        | Some (os, secoff) =>
            Ok (Some (wrap size (value_ sym + address os + secoff)))
        end
  | IN_OUTPUT_DATA od offset_is_from_end =>
      let value := wrap size (value_ sym + address od) in
      Ok (Some (if offset_is_from_end then wrap size (value + data_size od)
                else value))
  | IN_OUTPUT_SEGMENT os offset_base =>
      let value := wrap size (value_ sym + vaddr os) in
      Ok (Some match offset_base with
               | SEGMENT_START => value
               | SEGMENT_END => wrap size (value + memsz os)
               | SEGMENT_BSS => wrap size (value + filesz os)
               end)
  | CONSTANT => Ok (Some (value_ sym))
  end.

(** The [while] loop of [sized_finalize] over the entries of [table_],
    with the running [count], [off] and the output pool. *)
Fixpoint sized_finalize_loop (size : Z)
    (entries : list (Z * Z * option nat)) (count off : Z)
    (pool : list string) : M (Z * Z * list string) :=
  match entries with
  | [] => mret (count, off, pool)
  | (_, p) :: rest =>
      sym ← deref p;
      match sized_finalize_value size sym, p with
      | Exit d, _ => gold_exit d
      | Ok None, _ => sized_finalize_loop size rest count off pool
      | Ok (Some value), Some a =>
          store a (set_value value sym);;
          sized_finalize_loop size rest (count + 1)
            (off + elfcpp.sym_size size)
            (fst (Stringpool.add (name_ sym) pool))
      | _, _ => crash
      end
  end.

(** [Symbol_table::sized_finalize<size>]: the new file offset and the
    output string pool. *)
Definition sized_finalize (size : Z) (off : Z) (pool : list string)
    : M (Z * list string) :=
  let off := align_address off (Z.shiftr size 3) in
  modify (with_offset off);;
  entries ← get (fun st => map_to_list (table_ st));
  '(count, off, pool) ← sized_finalize_loop size entries 0 off pool;
  modify (with_output_count count);;
  mret (off, pool).

(** ** Writing the global symbols *)

Section Writer.

(** [Stringpool::get_offset] is defined in stringpool.cc, which is not
    among the sources: the writer takes it as a parameter. It gives the
    offset of a string in the output string table, or ends the run. *)
Variable get_offset : list string -> string -> outcome Z.

(** The [switch (sym->source())] of [sized_write_globals]: the section
    index to write, [None] for [continue]. *)
Definition sized_write_globals_shndx (sym : Symbol) : outcome (option Z) :=
  match source_ sym with
  | FROM_OBJECT symobj shnum =>
      if (elfcpp.SHN_LORESERVE <=? shnum) && negb (shnum =? elfcpp.SHN_ABS)
      then Exit (Unsupported_symbol_section (name_ sym) shnum)
      else if is_dynamic symobj then Ok (Some elfcpp.SHN_UNDEF)
      else if (shnum =? elfcpp.SHN_UNDEF) || (shnum =? elfcpp.SHN_ABS)
      then Ok (Some shnum)
      else
        match output_section symobj shnum with
        | None => Ok None
        | Some (os, secoff) => Ok (Some (out_shndx os))
        end
  | IN_OUTPUT_DATA od _ => Ok (Some (out_shndx od))
  | IN_OUTPUT_SEGMENT _ _ => Ok (Some elfcpp.SHN_ABS)
  | CONSTANT => Ok (Some elfcpp.SHN_ABS)
  end.

(** The symbol written through [osym]. The [put_] functions keep the
    bits that fit the ELF fields. *)
Definition written_symbol (name_offset : Z) (shndx : Z) (sym : Symbol)
    : elfcpp.Sym :=
  {| elfcpp.st_name := Z.land name_offset 0xffffffff;
     elfcpp.st_value := value_ sym;
     elfcpp.st_size := symsize_ sym;
     elfcpp.st_bind := Z.land (binding_ sym) 0xf;
     elfcpp.st_type := Z.land (type_ sym) 0xf;
     elfcpp.st_visibility := Z.land (visibility_ sym) 3;
     elfcpp.st_nonvis := Z.land (nonvis_ sym) 0x3f;
     elfcpp.st_shndx := Z.land shndx 0xffff |}.

(** The [for] loop of [sized_write_globals] over the entries of
    [table_]: the symbols written through [ps], in order. *)
Fixpoint sized_write_globals_loop (sympool : list string)
    (entries : list (Z * Z * option nat)) (st : Symbol_table)
    : outcome (list elfcpp.Sym) :=
  match entries with
  | [] => Ok []
  | (_, p) :: rest =>
      match deref p st with
      | Ok (sym, _) =>
          match sized_write_globals_shndx sym with
          | Ok None => sized_write_globals_loop sympool rest st
          | Ok (Some shndx) =>
              match get_offset sympool (name_ sym) with
              | Ok name_offset =>
                  match sized_write_globals_loop sympool rest st with
                  | Ok psyms =>
                      Ok (written_symbol name_offset shndx sym :: psyms)
                  | Exit d => Exit d
                  | Crash => Crash
                  end
              | Exit d => Exit d
              | Crash => Crash
              end
          | Exit d => Exit d
          | Crash => Crash
          end
      | Exit d => Exit d
      | Crash => Crash
      end
  end.

(** [Symbol_table::sized_write_globals<size, big_endian>], a [const]
    member: the offset and the size of the output view it asks for, and
    the symbols it writes there. The byte order of [big_endian] is that
    of the fields in the view. *)
Definition sized_write_globals (size : Z) (big_endian : bool)
    (target : Target) (sympool : list string) (st : Symbol_table)
    : outcome (Z * Z * list elfcpp.Sym) :=
  match sized_write_globals_loop sympool (map_to_list (table_ st)) st with
  | Ok psyms =>
      Ok (offset_ st, output_count_ st * elfcpp.sym_size size, psyms)
  | Exit d => Exit d
  | Crash => Crash
  end.

(** [Symbol_table::write_globals]. *)
Definition write_globals (target : Target) (sympool : list string)
    (st : Symbol_table) : outcome (Z * Z * list elfcpp.Sym) :=
  if size_ st =? 32 then
    if is_big_endian target then
      sized_write_globals 32 true target sympool st
    else sized_write_globals 32 false target sympool st
  else if size_ st =? 64 then
    if is_big_endian target then
      sized_write_globals 64 true target sympool st
    else sized_write_globals 64 false target sympool st
  else Crash.

End Writer.

(** ** Resolver *)

Module Resolver.

(** Modelled from the spec: resolve.cc, which defines
    [Symbol_table::resolve(to, sym, object)], is not among the sources.
    The merge follows the spec's table of existing against incoming
    symbol (strong or weak definition, common, undefined, weak
    undefined): a second strong definition is an error that ends the
    link unless one side is dynamic, a relocatable definition wins over
    a dynamic one, commons take the larger size and alignment,
    visibility becomes the most restrictive of the two, and [in_dyn_]
    stays set once a dynamic object was seen. This instance is used for
    concrete runs; the theorems on ingestion hold for every resolver. *)

Inductive Class := StrongDef | WeakDef | Common | Undef | WeakUndef.

Definition classify (shnum binding : Z) : Class :=
  if shnum =? elfcpp.SHN_UNDEF then
    if binding =? elfcpp.STB_WEAK then WeakUndef else Undef
  else if shnum =? elfcpp.SHN_COMMON then Common
  else if binding =? elfcpp.STB_WEAK then WeakDef else StrongDef.

Definition classify_symbol (s : Symbol) : Class :=
  match source_ s with
  | FROM_OBJECT _ shnum => classify shnum (binding_ s)
  | _ => if binding_ s =? elfcpp.STB_WEAK then WeakDef else StrongDef
  end.

Definition symbol_in_dynobj (s : Symbol) : bool :=
  match source_ s with
  | FROM_OBJECT object _ => is_dynamic object
  | _ => false
  end.

Inductive Action := Keep | Overwrite | MergeCommon | MultiDef.

Definition action (existing incoming : Class)
    (existing_dyn incoming_dyn : bool) : Action :=
  match existing, incoming with
  | StrongDef, StrongDef =>
      if incoming_dyn then Keep
      else if existing_dyn then Overwrite
      else MultiDef
  | StrongDef, _ => Keep
  | WeakDef, StrongDef => Overwrite
  | WeakDef, _ => Keep
  | Common, StrongDef => Overwrite
  | Common, Common => MergeCommon
  | Common, _ => Keep
  | Undef, (StrongDef | WeakDef | Common) => Overwrite
  | Undef, _ => Keep
  | WeakUndef, (StrongDef | WeakDef | Common | Undef) => Overwrite
  | WeakUndef, WeakUndef => Keep
  end.

(** DEFAULT < PROTECTED < HIDDEN < INTERNAL. *)
Definition restrictiveness (visibility : Z) : Z :=
  if visibility =? elfcpp.STV_INTERNAL then 3
  else if visibility =? elfcpp.STV_HIDDEN then 2
  else if visibility =? elfcpp.STV_PROTECTED then 1
  else 0.

Definition most_restrictive (v1 v2 : Z) : Z :=
  if restrictiveness v1 <? restrictiveness v2 then v2 else v1.

Definition merged (to : Symbol) (sym : elfcpp.Sym) (object : Object)
    (type binding nonvis : Z) (source : Source) (value symsize : Z)
    : Symbol :=
  {| name_ := name_ to; version_ := version_ to;
     got_offset_ := got_offset_ to;
     type_ := type; binding_ := binding;
     visibility_ := most_restrictive (visibility_ to)
                      (elfcpp.st_visibility sym);
     nonvis_ := nonvis;
     is_target_special_ := is_target_special_ to; is_def_ := is_def_ to;
     is_forwarder_ := is_forwarder_ to;
     in_dyn_ := in_dyn_ to || is_dynamic object;
     has_got_offset_ := has_got_offset_ to;
     has_warning_ := has_warning_ to;
     source_ := source; value_ := value; symsize_ := symsize |}.

Definition resolve (to : Symbol) (sym : elfcpp.Sym) (object : Object)
    : outcome Symbol :=
  match action (classify_symbol to)
          (classify (elfcpp.st_shndx sym) (elfcpp.st_bind sym))
          (symbol_in_dynobj to) (is_dynamic object) with
  | Keep =>
      Ok (merged to sym object (type_ to) (binding_ to) (nonvis_ to)
            (source_ to) (value_ to) (symsize_ to))
  | Overwrite =>
      Ok (merged to sym object (elfcpp.st_type sym) (elfcpp.st_bind sym)
            (elfcpp.st_nonvis sym)
            (FROM_OBJECT object (elfcpp.st_shndx sym))
            (elfcpp.st_value sym) (elfcpp.st_size sym))
  | MergeCommon =>
      Ok (merged to sym object (type_ to) (binding_ to) (nonvis_ to)
            (if symsize_ to <? elfcpp.st_size sym
             then FROM_OBJECT object (elfcpp.st_shndx sym)
             else source_ to)
            (Z.max (value_ to) (elfcpp.st_value sym))
            (Z.max (symsize_ to) (elfcpp.st_size sym)))
  | MultiDef => Exit (Multiple_definition (object_name object) (name_ to))
  end.

End Resolver.

(** ** Sequences of calls *)

(** A call into the symbol table from the rest of the linker. *)
Inductive Operation :=
| Add_from_object (size : Z) (big_endian : bool) (object : Object)
    (name : string) (name_key : Z) (version : option string)
    (version_key : Z) (def : bool) (sym : elfcpp.Sym)
| Add_from_relobj (size : Z) (big_endian : bool) (relobj : Object)
    (syms : list elfcpp.Sym) (sym_names : string) (sym_name_size : Z)
| Add_from_dynobj (size : Z) (big_endian : bool) (dynobj : Object)
    (syms : list elfcpp.Sym) (sym_names : string) (sym_name_size : Z)
    (versym : option (list Z)) (versym_size : Z)
    (version_map : list (option string))
| Define_in_output_data (target : Target) (name : string)
    (od : Output_data) (value symsize type binding visibility nonvis : Z)
    (offset_is_from_end only_if_ref : bool)
| Define_in_output_segment (target : Target) (name : string)
    (os : Output_segment) (value symsize type binding visibility nonvis : Z)
    (offset_base : Segment_offset_base) (only_if_ref : bool)
| Define_as_constant (target : Target) (name : string)
    (value symsize type binding visibility nonvis : Z) (only_if_ref : bool).

Section Calls.

Variable resolve : Symbol -> elfcpp.Sym -> Object -> outcome Symbol.

(** The call [op] stands for, its result dropped. *)
Definition call (op : Operation) : M unit :=
  match op with
  | Add_from_object size big_endian object name name_key version
      version_key def sym =>
      add_from_object resolve size big_endian object name name_key version
        version_key def sym;;
      mret tt
  | Add_from_relobj size big_endian relobj syms sym_names sym_name_size =>
      add_from_relobj resolve size big_endian relobj syms sym_names
        sym_name_size;;
      mret tt
  | Add_from_dynobj size big_endian dynobj syms sym_names sym_name_size
      versym versym_size version_map =>
      add_from_dynobj resolve size big_endian dynobj syms sym_names
        sym_name_size versym versym_size version_map
  | Define_in_output_data target name od value symsize type binding
      visibility nonvis offset_is_from_end only_if_ref =>
      define_in_output_data target name od value symsize type binding
        visibility nonvis offset_is_from_end only_if_ref
  | Define_in_output_segment target name os value symsize type binding
      visibility nonvis offset_base only_if_ref =>
      define_in_output_segment target name os value symsize type binding
        visibility nonvis offset_base only_if_ref
  | Define_as_constant target name value symsize type binding visibility
      nonvis only_if_ref =>
      define_as_constant target name value symsize type binding visibility
        nonvis only_if_ref
  end.

(** The calls of [ops] one after the other; the first that exits or
    crashes ends the run. *)
Fixpoint calls (ops : list Operation) : M unit :=
  match ops with
  | [] => mret tt
  | op :: rest => call op;; calls rest
  end.

End Calls.

(** ** Concrete inputs used by the examples *)

Module Examples.

Definition target32 (big_endian : bool) : Target :=
  {| get_size := 32; is_big_endian := big_endian;
     has_make_symbol := false; make_symbol := true |}.

(** A target whose factory declines every symbol. *)
Definition declining_target : Target :=
  {| get_size := 32; is_big_endian := false;
     has_make_symbol := true; make_symbol := false |}.

Definition text_out : Output_data :=
  {| address := 0x1000; data_size := 0x200; out_shndx := 1 |}.

(** An object of [target] that keeps all its sections, each placed at
    offset 0x20 of [text_out]. *)
Definition object_of (target : Target) (name : string) (dynamic : bool)
    : Object :=
  {| object_name := name; is_dynamic := dynamic; target := target;
     is_section_included := fun _ => true;
     output_section := fun _ => Some (text_out, 0x20) |}.

Definition relobj (name : string) : Object :=
  object_of (target32 false) name false.

Definition dynobj (name : string) : Object :=
  object_of (target32 false) name true.

(** A string table holding the single name [n] at offset 1. *)
Definition strtab (n : string) : string :=
  String zero (n ++ String zero EmptyString).

(** The symbol at name offset [st_name] with the given section and
    binding. *)
Definition sym_at (st_name shndx bind value size : Z) : elfcpp.Sym :=
  {| elfcpp.st_name := st_name; elfcpp.st_value := value;
     elfcpp.st_size := size;
     elfcpp.st_bind := bind; elfcpp.st_type := elfcpp.STT_OBJECT;
     elfcpp.st_visibility := elfcpp.STV_DEFAULT; elfcpp.st_nonvis := 0;
     elfcpp.st_shndx := shndx |}.

Definition sym : Z -> Z -> Z -> Z -> elfcpp.Sym := sym_at 1.

(** a.o with the absolute symbol [abs] = 7 and [foo] at 0x10 in its
    section 3. *)
Definition absolute_and_text : list Operation :=
  [ Add_from_relobj 32 false (relobj "a.o")
      [sym_at 1 elfcpp.SHN_ABS elfcpp.STB_GLOBAL 7 0;
       sym_at 5 3 elfcpp.STB_GLOBAL 0x10 4]
      (String zero ("abs" ++ String zero ("foo" ++ String zero EmptyString)))
      9 ].

(** lib1.so defines [foo@@V1], a.o refers to [foo@V2], lib2.so defines
    [foo@@V2]. *)
Definition two_default_versions : list Operation :=
  [ Add_from_dynobj 32 false (dynobj "lib1.so")
      [sym 5 elfcpp.STB_GLOBAL 16 4] (strtab "foo") 5
      (Some [2; 0]) 2 [None; None; Some "V1"%string];
    Add_from_relobj 32 false (relobj "a.o")
      [sym elfcpp.SHN_UNDEF elfcpp.STB_GLOBAL 0 0] (strtab "foo@V2") 8;
    Add_from_dynobj 32 false (dynobj "lib2.so")
      [sym 7 elfcpp.STB_GLOBAL 32 4] (strtab "foo") 5
      (Some [2; 0]) 2 [None; None; Some "V2"%string] ].

(** A 32-bit table whose only entry is [buf], in the reserved section
    0xff05 of a.o. *)
Definition reserved_section_table : Symbol_table :=
  with_heap [init "buf" None (relobj "a.o")
               (sym 0xff05 elfcpp.STB_GLOBAL 0 4) new_Sized_symbol]
    (with_table {[ (1, 0) := Some 0%nat ]}
       (with_namepool ["buf"%string] (with_size 32 Symbol_table_new))).

(** The offset of a string in a pool laid out as a string table: a NUL
    byte, then the strings, each followed by a NUL byte. *)
Fixpoint get_offset_from (from : Z) (sympool : list string) (s : string)
    : outcome Z :=
  match sympool with
  | [] => Crash
  | x :: rest =>
      if String.eqb s x then Ok from
      else get_offset_from (from + Z.of_nat (String.length x) + 1) rest s
  end.

(** An output string pool for the writer. *)
Definition get_offset : list string -> string -> outcome Z :=
  get_offset_from 1.

(** A layout whose only output section is [.text]. *)
Definition find_output_section (name : string) : option Output_data :=
  if String.eqb name ".text" then Some text_out else None.

(** [_etext] at the end of [.text]. *)
Definition etext_symbol : Define_symbol_in_section.t :=
  {| Define_symbol_in_section.name := "_etext";
     Define_symbol_in_section.output_section := ".text";
     Define_symbol_in_section.value := 0;
     Define_symbol_in_section.size := 0;
     Define_symbol_in_section.type := elfcpp.STT_NOTYPE;
     Define_symbol_in_section.binding := elfcpp.STB_GLOBAL;
     Define_symbol_in_section.visibility := elfcpp.STV_DEFAULT;
     Define_symbol_in_section.nonvis := 0;
     Define_symbol_in_section.offset_is_from_end := true;
     Define_symbol_in_section.only_if_ref := false |}.

(** [_edata] in a section that the layout does not have. *)
Definition edata_symbol : Define_symbol_in_section.t :=
  {| Define_symbol_in_section.name := "_edata";
     Define_symbol_in_section.output_section := ".data";
     Define_symbol_in_section.value := 0;
     Define_symbol_in_section.size := 0;
     Define_symbol_in_section.type := elfcpp.STT_NOTYPE;
     Define_symbol_in_section.binding := elfcpp.STB_GLOBAL;
     Define_symbol_in_section.visibility := elfcpp.STV_DEFAULT;
     Define_symbol_in_section.nonvis := 0;
     Define_symbol_in_section.offset_is_from_end := false;
     Define_symbol_in_section.only_if_ref := false |}.

Definition section_symbols : list Define_symbol_in_section.t :=
  [etext_symbol; edata_symbol].

End Examples.

(** * Properties *)

(** ** Reading a run of the monad backwards *)

Lemma bind_Ok {A B} (c : M A) (k : A -> M B) st b st' :
  (c ≫= k) st = Ok (b, st') <->
  exists a st1, c st = Ok (a, st1) /\ k a st1 = Ok (b, st').
Proof.
  unfold mbind, M_bind, bindM. split.
  - destruct (c st) as [[a st1]| |]; [eauto | discriminate | discriminate].
  - intros (a & st1 & -> & H). exact H.
Qed.

Lemma ret_Ok {A} (a b : A) st st' :
  (mret a : M A) st = Ok (b, st') <-> a = b /\ st = st'.
Proof.
  unfold mret, M_ret, retM. split; [intros [= -> ->] | intros [-> ->]]; done.
Qed.

Lemma assert_Ok b u st st' :
  assert b st = Ok (u, st') <-> b = true /\ st = st'.
Proof.
  unfold assert, retM, crash. destruct b, u.
  - split; [intros [= ->] | intros [_ ->]]; done.
  - split; [discriminate | intros [[=] _]].
Qed.

Lemma modify_Ok f u st st' :
  modify f st = Ok (u, st') <-> st' = f st.
Proof.
  unfold modify. destruct u. split; [intros [= <-] | intros ->]; done.
Qed.

Lemma get_Ok {A} (f : Symbol_table -> A) a st st' :
  get f st = Ok (a, st') <-> a = f st /\ st' = st.
Proof.
  unfold get. split; [intros [= <- <-] | intros [-> ->]]; done.
Qed.

Lemma deref_Ok p s st st' :
  deref p st = Ok (s, st') <->
  st' = st /\ exists a, p = Some a /\ heap st !! a = Some s.
Proof.
  unfold deref. split.
  - destruct p as [a|]; [|discriminate].
    destruct (heap st !! a) eqn:E; [|discriminate].
    intros [= <- <-]. eauto.
  - intros (-> & a & -> & ->). done.
Qed.

(** ** Lookup *)

(** C10. [Symbol_table::lookup] is total and does not change the table:
    when the name was never interned in the name pool, or the supplied
    version was never interned, or the pair of keys is absent from the
    hash table, the call returns the null pointer and leaves the whole
    state (pool and table included) as it was. *)
Theorem lookup_absent_is_null (name : string) (version : option string)
    (st : Symbol_table) :
  Stringpool.find name (namepool_ st) = None
  \/ (exists v, version = Some v
                /\ Stringpool.find v (namepool_ st) = None)
  \/ (exists name_key version_key,
        Stringpool.find name (namepool_ st) = Some name_key
        /\ (version = None /\ version_key = 0
            \/ exists v, version = Some v
                 /\ Stringpool.find v (namepool_ st) = Some version_key)
        /\ table_ st !! (name_key, version_key) = None) ->
  get (lookup name version) st = Ok (None, st).
Proof.
  intros H. apply get_Ok. split; [|reflexivity]. unfold lookup.
  destruct H as [Hn | [(v & -> & Hv) | (nk & vk & Hn & Hv & Ht)]].
  - now rewrite Hn.
  - rewrite Hv. now destruct (Stringpool.find name (namepool_ st)).
  - rewrite Hn.
    destruct Hv as [[-> ->] | (v & -> & Hv)]; [|rewrite Hv]; simpl;
      now rewrite Ht.
Qed.

Lemma lookup_absent_is_null_witness :
  get (lookup "bar" (Some "V1"%string)) Symbol_table_new
  = Ok (None, Symbol_table_new).
Proof.
  apply (lookup_absent_is_null "bar" (Some "V1"%string) Symbol_table_new).
  left. reflexivity.
Defined.

(** ** The target's factory declines a symbol *)

(** C9. When the target's [make_symbol] returns null for a (name,
    version) seen for the first time (for a default version, the
    unversioned key is new as well), [add_from_object] erases the entries
    this call inserted, returns null without any error, and the symbol
    table is equal to its state before the call. *)
Theorem add_from_object_factory_declines
    (resolve : Symbol -> elfcpp.Sym -> Object -> outcome Symbol)
    (size : Z) (big_endian : bool) (object : Object) (name : string)
    (name_key : Z) (version : option string) (version_key : Z) (def : bool)
    (sym : elfcpp.Sym) (st : Symbol_table) :
  has_make_symbol (target object) = true ->
  make_symbol (target object) = false ->
  table_ st !! (name_key, version_key) = None ->
  (def = true -> version_key <> 0 /\ table_ st !! (name_key, 0) = None) ->
  add_from_object resolve size big_endian object name name_key version
    version_key def sym st = Ok (None, st).
Proof.
  intros Hhas Hmk Hk Hdef.
  unfold add_from_object, add_from_object_entry.
  unfold mbind, M_bind, bindM, table_insert_snull, table_second,
    table_erase, modify, assert, mret, M_ret, retM.
  rewrite Hk. destruct def; cbn [table_ with_table negb andb].
  - destruct (Hdef eq_refl) as [Hne Hk0].
    assert (Hneq : (name_key, version_key) <> (name_key, 0)) by congruence.
    rewrite lookup_insert_ne by done. rewrite Hk0.
    cbn [table_ with_table negb andb].
    rewrite lookup_insert_ne by congruence. rewrite lookup_insert_eq.
    rewrite bool_decide_eq_true_2 by done.
    rewrite Hhas, Hmk. cbn [table_ with_table negb andb].
    rewrite delete_insert_eq, delete_insert_ne by congruence.
    rewrite delete_insert_eq, (delete_id _ (name_key, 0)) by done.
    rewrite delete_id by done.
    destruct st; reflexivity.
  - rewrite lookup_insert_eq. rewrite bool_decide_eq_true_2 by done.
    rewrite Hhas, Hmk. cbn [table_ with_table negb andb].
    rewrite delete_insert_eq, delete_id by done.
    destruct st; reflexivity.
Qed.

Lemma add_from_object_factory_declines_witness :
  add_from_object Resolver.resolve 32 false
    (Examples.object_of Examples.declining_target "a.o" false)
    "foo" 1 (Some "V1"%string) 2 true
    (Examples.sym 3 elfcpp.STB_GLOBAL 0 4) Symbol_table_new
  = Ok (None, Symbol_table_new).
Proof.
  apply add_from_object_factory_declines; try reflexivity.
  intros _. split; [lia | reflexivity].
Defined.

(** ** Mixing input formats *)

(** C4, as the code has it. Ingestion ends the link on mixed word sizes:
    when the table already took its size from an earlier input and the
    size of this input differs from it, or when the size of this input
    differs from the size of its own target, [add_from_relobj] and
    [add_from_dynobj] print "mixing 32-bit and 64-bit ELF objects" and
    exit. Endianness is not compared. *)
Theorem mixed_word_size_is_fatal
    (resolve : Symbol -> elfcpp.Sym -> Object -> outcome Symbol)
    (size : Z) (big_endian : bool) (object : Object)
    (syms : list elfcpp.Sym) (sym_names : string) (sym_name_size : Z)
    (versym : option (list Z)) (versym_size : Z)
    (version_map : list (option string)) (st : Symbol_table) :
  (size_ st <> 0 /\ size <> size_ st) \/ size <> get_size (target object) ->
  add_from_relobj resolve size big_endian object syms sym_names
    sym_name_size st
  = Exit (Mixing_32_bit_and_64_bit (object_name object))
  /\ add_from_dynobj resolve size big_endian object syms sym_names
       sym_name_size versym versym_size version_map st
     = Exit (Mixing_32_bit_and_64_bit (object_name object)).
Proof.
  intros H.
  assert (Hcheck :
    negb (size =? (if size_ st =? 0 then size else size_ st))
    || negb (size =? get_size (target object)) = true).
  { destruct H as [[H0 H1] | H].
    - apply Z.eqb_neq in H0. rewrite H0.
      apply Z.eqb_neq in H1. now rewrite H1.
    - apply Z.eqb_neq in H. rewrite H. apply orb_true_r. }
  unfold add_from_relobj, add_from_dynobj.
  unfold mbind, M_bind, bindM, get, modify, mret, M_ret, retM, gold_exit.
  destruct (size_ st =? 0) eqn:E; cbn [size_ with_size]; rewrite ?E in *;
    cbn [size_ with_size]; rewrite Hcheck; split; reflexivity.
Qed.

Lemma mixed_word_size_is_fatal_witness :
  add_from_relobj Resolver.resolve 64 false
    (Examples.relobj "b.o") [] EmptyString 0
    (with_size 32 Symbol_table_new)
  = Exit (Mixing_32_bit_and_64_bit "b.o")
  /\ add_from_dynobj Resolver.resolve 64 false
       (Examples.relobj "b.o") [] EmptyString 0 None 0 []
       (with_size 32 Symbol_table_new)
     = Exit (Mixing_32_bit_and_64_bit "b.o").
Proof.
  apply (mixed_word_size_is_fatal Resolver.resolve 64 false
           (Examples.relobj "b.o") [] EmptyString 0 None 0 []
           (with_size 32 Symbol_table_new)).
  left. simpl. lia.
Defined.

(** C4 as stated fails: after a little-endian 32-bit object, a big-endian
    32-bit object (with a big-endian target) is ingested without error by
    [add_from_relobj] and by [add_from_dynobj]. *)
Lemma mixed_endianness_is_ingested :
  exists st1 ptrs1 st2 ptrs2 st3,
    add_from_relobj Resolver.resolve 32 false (Examples.relobj "a.o")
      [Examples.sym 3 elfcpp.STB_GLOBAL 0 4] (Examples.strtab "foo") 5
      Symbol_table_new = Ok (ptrs1, st1)
    /\ add_from_relobj Resolver.resolve 32 true
         (Examples.object_of (Examples.target32 true) "b.o" false)
         [Examples.sym 3 elfcpp.STB_GLOBAL 0 4] (Examples.strtab "bar") 5
         st1 = Ok (ptrs2, st2)
    /\ add_from_dynobj Resolver.resolve 32 true
         (Examples.object_of (Examples.target32 true) "c.so" true)
         [Examples.sym 3 elfcpp.STB_GLOBAL 0 4] (Examples.strtab "baz") 5
         None 0 [] st2 = Ok (tt, st3)
    /\ ptrs2 = [Some 1%nat]
    /\ lookup "baz" None st3 = Some 2%nat.
Proof.
  do 5 eexists. split; [vm_compute; reflexivity|].
  split; [vm_compute; reflexivity|].
  split; [vm_compute; reflexivity|].
  split; vm_compute; reflexivity.
Qed.

(** ** A linker definition over a real definition *)

Lemma find_add (name : string) (pool : list string) (key : Z) :
  Stringpool.find name pool = Some key ->
  Stringpool.add name pool = (pool, key).
Proof. unfold Stringpool.add. now intros ->. Qed.

Lemma namepool_add_found (name : string) (key : Z) (st : Symbol_table) :
  Stringpool.find name (namepool_ st) = Some key ->
  namepool_add name st = Ok (key, st).
Proof.
  intros H. unfold namepool_add. rewrite (find_add _ _ _ H).
  now destruct st.
Qed.

Lemma bind_run {A B} (c : M A) (k : A -> M B) st a st1 :
  c st = Ok (a, st1) -> (c ≫= k) st = k a st1.
Proof. unfold mbind, M_bind, bindM. now intros ->. Qed.

(** [define_special_symbol] on a name whose record is a real definition:
    the message is printed and the result is null. *)
Lemma define_special_symbol_multiple_definition
    (size : Z) (big_endian : bool) (target : Target) (name : string)
    (st : Symbol_table) (name_key : Z) (p : nat) (s : Symbol)
    (object : Object) (shnum : Z) :
  size_ st = size ->
  Stringpool.find name (namepool_ st) = Some name_key ->
  table_ st !! (name_key, 0) = Some (Some p) ->
  heap st !! p = Some s ->
  source_ s = FROM_OBJECT object shnum ->
  shnum <> elfcpp.SHN_UNDEF ->
  shnum <> elfcpp.SHN_COMMON ->
  is_dynamic object = false ->
  define_special_symbol size big_endian target name false st
  = Ok (None,
        with_err (err st ++ [Linker_defined_multiple_definition name]) st).
Proof.
  intros Hsz Hfind Htab Hheap Hsrc Hu Hc Hdyn.
  unfold define_special_symbol.
  rewrite (bind_run _ _ st (size_ st) st) by reflexivity.
  rewrite Hsz, Z.eqb_refl.
  rewrite (bind_run _ _ st tt st) by reflexivity.
  erewrite bind_run; cycle 1.
  { cbn beta iota.
    rewrite (bind_run _ _ _ _ _ (namepool_add_found _ _ _ Hfind)).
    erewrite bind_run; cycle 1.
    { unfold table_insert_snull. rewrite Htab. reflexivity. }
    cbn [negb].
    erewrite bind_run; cycle 1.
    { unfold table_second. rewrite Htab. reflexivity. }
    rewrite bool_decide_eq_true_2 by done.
    rewrite (bind_run _ _ st tt st) by reflexivity.
    reflexivity. }
  cbn beta iota.
  rewrite bool_decide_eq_true_2 by done.
  rewrite (bind_run _ _ st tt st) by reflexivity.
  erewrite bind_run; cycle 1.
  { apply deref_Ok. eauto. }
  rewrite Hsrc, Hdyn.
  apply Z.eqb_neq in Hu, Hc. rewrite Hu, Hc. cbn [negb andb].
  reflexivity.
Qed.

(** C5, as the code has it. A call to [define_in_output_data],
    [define_in_output_segment] or [define_as_constant] with
    [only_if_ref = false] on a name whose record is a real definition
    (from an object that is not dynamic, section index neither
    [SHN_UNDEF] nor [SHN_COMMON]) prints "linker defined: multiple
    definition" and returns: the link goes on, and apart from the
    diagnostic the symbol table is as before the call. *)
Theorem linker_definition_over_real_definition
    (target : Target) (name : string) (od : Output_data)
    (os : Output_segment) (value symsize type binding visibility nonvis : Z)
    (offset_is_from_end : bool) (offset_base : Segment_offset_base)
    (st : Symbol_table) (name_key : Z) (p : nat) (s : Symbol)
    (object : Object) (shnum : Z) :
  get_size target = size_ st ->
  size_ st = 32 \/ size_ st = 64 ->
  Stringpool.find name (namepool_ st) = Some name_key ->
  table_ st !! (name_key, 0) = Some (Some p) ->
  heap st !! p = Some s ->
  source_ s = FROM_OBJECT object shnum ->
  shnum <> elfcpp.SHN_UNDEF ->
  shnum <> elfcpp.SHN_COMMON ->
  is_dynamic object = false ->
  define_in_output_data target name od value symsize type binding
    visibility nonvis offset_is_from_end false st
  = Ok (tt, with_err (err st ++ [Linker_defined_multiple_definition name])
              st)
  /\ define_in_output_segment target name os value symsize type binding
       visibility nonvis offset_base false st
     = Ok (tt, with_err (err st ++ [Linker_defined_multiple_definition name])
                 st)
  /\ define_as_constant target name value symsize type binding visibility
       nonvis false st
     = Ok (tt, with_err (err st ++ [Linker_defined_multiple_definition name])
                 st).
Proof.
  intros Htgt Hsz Hfind Htab Hheap Hsrc Hu Hc Hdyn.
  assert (Hspecial : forall big_endian,
    define_special_symbol (size_ st) big_endian target name false st
    = Ok (None,
          with_err (err st ++ [Linker_defined_multiple_definition name]) st))
    by (intros; eapply define_special_symbol_multiple_definition; eauto).
  unfold define_in_output_data, define_in_output_segment, define_as_constant,
    dispatch_size, do_define_in_output_data, do_define_in_output_segment,
    do_define_as_constant.
  rewrite !(bind_run _ _ st (size_ st) st) by reflexivity.
  rewrite Htgt, Z.eqb_refl.
  rewrite !(bind_run _ _ st tt st) by reflexivity.
  destruct Hsz as [Hsz | Hsz]; rewrite Hsz in *; cbn [Z.eqb Pos.eqb];
    rewrite !(bind_run _ _ _ _ _ (Hspecial _)); auto.
Qed.

Lemma linker_definition_over_real_definition_witness :
  exists st,
    calls Resolver.resolve
      [Add_from_relobj 32 false (Examples.relobj "a.o")
         [Examples.sym 3 elfcpp.STB_GLOBAL 0 4] (Examples.strtab "foo") 5]
      Symbol_table_new = Ok (tt, st)
    /\ define_in_output_data (Examples.target32 false) "foo"
         Examples.text_out 0 0 0 1 0 0 false false st
       = Ok (tt, with_err
                   (err st ++ [Linker_defined_multiple_definition "foo"]) st)
    /\ define_in_output_segment (Examples.target32 false) "foo"
         {| vaddr := 0; memsz := 0; filesz := 0 |} 0 0 0 1 0 0
         SEGMENT_START false st
       = Ok (tt, with_err
                   (err st ++ [Linker_defined_multiple_definition "foo"]) st)
    /\ define_as_constant (Examples.target32 false) "foo" 0 0 0 1 0 0 false
         st
       = Ok (tt, with_err
                   (err st ++ [Linker_defined_multiple_definition "foo"]) st).
Proof.
  eexists. split; [vm_compute; reflexivity|].
  apply (linker_definition_over_real_definition (Examples.target32 false)
           "foo" Examples.text_out {| vaddr := 0; memsz := 0; filesz := 0 |}
           0 0 0 1 0 0 false SEGMENT_START _ 1 0%nat
           (init "foo" None (Examples.relobj "a.o")
              (Examples.sym 3 elfcpp.STB_GLOBAL 0 4) new_Sized_symbol)
           (Examples.relobj "a.o") 3).
  - reflexivity.
  - left. reflexivity.
  - reflexivity.
  - reflexivity.
  - reflexivity.
  - reflexivity.
  - discriminate.
  - discriminate.
  - reflexivity.
Defined.

(** C5 as stated fails: after a.o defined [foo] in one of its sections,
    [define_as_constant] on [foo] returns to its caller (it does not
    exit), having printed the message, and [foo] keeps its record. *)
Lemma linker_multiple_definition_is_not_fatal :
  exists st st',
    calls Resolver.resolve
      [Add_from_relobj 32 false (Examples.relobj "a.o")
         [Examples.sym 3 elfcpp.STB_GLOBAL 0 4] (Examples.strtab "foo") 5]
      Symbol_table_new = Ok (tt, st)
    /\ define_as_constant (Examples.target32 false) "foo" 0 0 0 1 0 0 false
         st = Ok (tt, st')
    /\ err st' = [Linker_defined_multiple_definition "foo"]
    /\ heap st' = heap st.
Proof.
  do 2 eexists. split; [vm_compute; reflexivity|].
  split; [vm_compute; reflexivity|].
  split; vm_compute; reflexivity.
Qed.

(** ** Finalize: which records end the link *)

(** The loop of [sized_finalize], one entry unfolded. *)
Lemma sized_finalize_loop_cons size k p rest count off pool st :
  sized_finalize_loop size ((k, p) :: rest) count off pool st =
  match p with
  | Some a =>
      match heap st !! a with
      | Some sym =>
          match sized_finalize_value size sym with
          | Exit d => Exit d
          | Crash => Crash
          | Ok None => sized_finalize_loop size rest count off pool st
          | Ok (Some value) =>
              sized_finalize_loop size rest (count + 1)
                (off + elfcpp.sym_size size)
                (fst (Stringpool.add (name_ sym) pool))
                (with_heap (<[a := set_value value sym]> (heap st)) st)
          end
      | None => Crash
      end
  | None => Crash
  end.
Proof.
  cbn [sized_finalize_loop]. unfold mbind, M_bind, bindM, deref.
  destruct p as [a|]; [|reflexivity].
  destruct (heap st !! a) as [sym|]; [|reflexivity].
  destruct (sized_finalize_value size sym) as [[v|] | d |]; reflexivity.
Qed.

(** Two records that differ at most in [value_]. *)
Definition alike (s s' : Symbol) : Prop := set_value 0 s = set_value 0 s'.

Lemma alike_set_value v s : alike (set_value v s) s.
Proof. reflexivity. Qed.

Lemma alike_source s s' : alike s s' -> source_ s = source_ s'.
Proof. intros H. apply (f_equal source_) in H. exact H. Qed.

Lemma alike_name s s' : alike s s' -> name_ s = name_ s'.
Proof. intros H. apply (f_equal name_) in H. exact H. Qed.

(** Two arenas whose records differ at most in [value_]. *)
Definition heaps_alike (h h' : list Symbol) : Prop :=
  set_value 0 <$> h = set_value 0 <$> h'.

Lemma heaps_alike_lookup h h' a s :
  heaps_alike h h' -> h !! a = Some s ->
  exists s', h' !! a = Some s' /\ alike s s'.
Proof.
  intros H Ha. apply (f_equal (fun l => l !! a)) in H.
  rewrite !list_lookup_fmap, Ha in H. simpl in H.
  destruct (h' !! a) as [s'|]; simpl in H; [|discriminate].
  exists s'. split; [reflexivity | unfold alike; congruence].
Qed.

Lemma heaps_alike_store h a s v :
  h !! a = Some s -> heaps_alike (<[a := set_value v s]> h) h.
Proof.
  intros Ha. unfold heaps_alike. rewrite list_fmap_insert.
  apply list_insert_id. now rewrite list_lookup_fmap, Ha.
Qed.

Lemma heaps_alike_sym h h' : heaps_alike h h' -> heaps_alike h' h.
Proof. unfold heaps_alike. congruence. Qed.

Lemma heaps_alike_trans h1 h2 h3 :
  heaps_alike h1 h2 -> heaps_alike h2 h3 -> heaps_alike h1 h3.
Proof. unfold heaps_alike. congruence. Qed.

(** The record makes [sized_finalize] exit: it comes from an object and
    its section index is reserved and not [SHN_ABS]. *)
Definition unsupported_section (s : Symbol) (d : Diag) : Prop :=
  exists object shnum,
    source_ s = FROM_OBJECT object shnum
    /\ elfcpp.SHN_LORESERVE <= shnum
    /\ shnum <> elfcpp.SHN_ABS
    /\ d = Unsupported_symbol_section (name_ s) shnum.

Lemma sized_finalize_value_Exit size s d :
  sized_finalize_value size s = Exit d <-> unsupported_section s d.
Proof.
  unfold sized_finalize_value, unsupported_section. split.
  - destruct (source_ s) as [object shnum | od e | os b |] eqn:Hs;
      try discriminate.
    destruct (elfcpp.SHN_LORESERVE <=? shnum) eqn:E1;
      destruct (shnum =? elfcpp.SHN_ABS) eqn:E2; cbn [andb negb];
      try (intros [= <-]; exists object, shnum;
           apply Z.leb_le in E1; apply Z.eqb_neq in E2; done);
      repeat case_match; discriminate.
  - intros (object & shnum & -> & H1 & H2 & ->).
    apply Z.leb_le in H1. apply Z.eqb_neq in H2. now rewrite H1, H2.
Qed.

Lemma sized_finalize_value_not_Crash size s :
  sized_finalize_value size s <> Crash.
Proof.
  unfold sized_finalize_value. repeat case_match; discriminate.
Qed.

Lemma unsupported_section_alike s s' d :
  alike s s' -> unsupported_section s d -> unsupported_section s' d.
Proof.
  intros H (object & shnum & Hs & H1 & H2 & ->).
  exists object, shnum. rewrite <- (alike_source _ _ H), <- (alike_name _ _ H).
  done.
Qed.

(** An exit of the loop is due to a record of one of the entries. *)
Lemma sized_finalize_loop_Exit_inv size entries :
  forall count off pool st d,
    sized_finalize_loop size entries count off pool st = Exit d ->
    exists k a s,
      (k, Some a) ∈ entries /\ heap st !! a = Some s
      /\ unsupported_section s d.
Proof.
  induction entries as [|[k p] rest IH]; intros count off pool st d.
  - discriminate.
  - rewrite sized_finalize_loop_cons.
    destruct p as [a|]; [|discriminate].
    destruct (heap st !! a) as [sym|] eqn:Ha; [|discriminate].
    destruct (sized_finalize_value size sym) as [[v|] | d' |] eqn:Hv.
    + intros H. apply IH in H as (k' & a' & s' & Hin & Hs' & Hbad).
      cbn [heap with_heap] in Hs'.
      destruct (heaps_alike_lookup _ _ _ _ (heaps_alike_store _ _ _ v Ha) Hs')
        as (s & Hs & Halike).
      exists k', a', s. split; [now apply list_elem_of_further|].
      split; [exact Hs|]. exact (unsupported_section_alike _ _ _ Halike Hbad).
    + intros H. apply IH in H as (k' & a' & s' & Hin & Hs' & Hbad).
      exists k', a', s'. split; [now apply list_elem_of_further|]. done.
    + intros [= <-]. exists k, a, sym.
      split; [apply list_elem_of_here|]. split; [exact Ha|].
      now apply sized_finalize_value_Exit in Hv.
    + discriminate.
Qed.

(** Every entry holds a pointer to a record of the arena. *)
Definition entries_valid (entries : list (Z * Z * option nat))
    (h : list Symbol) : Prop :=
  forall k p, (k, p) ∈ entries -> exists a s, p = Some a /\ h !! a = Some s.

Lemma entries_valid_alike entries h h' :
  heaps_alike h h' -> entries_valid entries h -> entries_valid entries h'.
Proof.
  intros Hh Hv k p Hin. destruct (Hv k p Hin) as (a & s & -> & Hs).
  destruct (heaps_alike_lookup _ _ _ _ Hh Hs) as (s' & Hs' & _). eauto.
Qed.

(** With valid entries, an unsupported record among them ends the loop. *)
Lemma sized_finalize_loop_Exit size entries :
  forall count off pool st k a s d,
    entries_valid entries (heap st) ->
    (k, Some a) ∈ entries -> heap st !! a = Some s ->
    unsupported_section s d ->
    exists d', sized_finalize_loop size entries count off pool st = Exit d'.
Proof.
  induction entries as [|[k0 p0] rest IH];
    intros count off pool st k a s d Hvalid Hin Hs Hbad.
  - now apply elem_of_nil in Hin.
  - rewrite sized_finalize_loop_cons.
    destruct (Hvalid k0 p0 (list_elem_of_here _ _)) as (a0 & s0 & -> & Hs0).
    rewrite Hs0.
    assert (Hrest : entries_valid rest (heap st))
      by (intros k' p' H'; apply (Hvalid k' p'); now apply list_elem_of_further).
    destruct (sized_finalize_value size s0) as [[v|] | d0 |] eqn:Hv.
    + apply elem_of_cons in Hin as [[= -> ->] | Hin].
      { apply (proj2 (sized_finalize_value_Exit size _ _)) in Hbad.
        rewrite Hs in Hs0. injection Hs0 as ->. congruence. }
      pose proof (heaps_alike_store _ _ _ v Hs0) as Halike.
      destruct (heaps_alike_lookup _ _ _ _ (heaps_alike_sym _ _ Halike) Hs)
        as (s' & Hs' & Hss').
      eapply (IH _ _ _ _ k a s' d); cbn [heap with_heap]; eauto.
      * eapply entries_valid_alike; [|exact Hrest].
        now apply heaps_alike_sym.
      * eapply unsupported_section_alike; eauto.
    + apply elem_of_cons in Hin as [[= -> ->] | Hin].
      { apply (proj2 (sized_finalize_value_Exit size _ _)) in Hbad.
        rewrite Hs in Hs0. injection Hs0 as ->. congruence. }
      eapply IH; eauto.
    + eauto.
    + now apply sized_finalize_value_not_Crash in Hv.
Qed.

Lemma sized_finalize_unfold size off pool st :
  sized_finalize size off pool st =
  match sized_finalize_loop size (map_to_list (table_ st)) 0
          (align_address off (Z.shiftr size 3)) pool
          (with_offset (align_address off (Z.shiftr size 3)) st) with
  | Ok (count, off1, pool1, st1) =>
      Ok (off1, pool1, with_output_count count st1)
  | Exit d => Exit d
  | Crash => Crash
  end.
Proof.
  unfold sized_finalize, mbind, M_bind, bindM, modify, get, mret, M_ret, retM.
  cbn [table_ with_offset].
  destruct (sized_finalize_loop _ _ _ _ _ _) as [[[[count off1] pool1] st1]| |];
    reflexivity.
Qed.

(** C6, as the code has it. On a table whose entries all point to
    records, [sized_finalize] ends the link with "unsupported symbol
    section" exactly when some entry's record comes from an object and
    has a section index that is [>= SHN_LORESERVE] and not [SHN_ABS];
    [SHN_COMMON] is such an index. *)
Theorem sized_finalize_fatal_iff (size off : Z) (pool : list string)
    (st : Symbol_table) :
  (forall k p, table_ st !! k = Some p ->
     exists a s, p = Some a /\ heap st !! a = Some s) ->
  (exists name shnum,
     sized_finalize size off pool st
     = Exit (Unsupported_symbol_section name shnum))
  <->
  (exists k a s object shnum,
     table_ st !! k = Some (Some a)
     /\ heap st !! a = Some s
     /\ source_ s = FROM_OBJECT object shnum
     /\ elfcpp.SHN_LORESERVE <= shnum
     /\ shnum <> elfcpp.SHN_ABS).
Proof.
  intros Hvalid. rewrite sized_finalize_unfold. split.
  - intros (name & shnum0 & Hd).
    destruct (sized_finalize_loop _ _ _ _ _ _)
      as [[[[count off1] pool1] st1]| d' |] eqn:Hloop; try discriminate.
    apply sized_finalize_loop_Exit_inv in Hloop
      as (k & a & s & Hin & Hs & object & shnum & Hsrc & H1 & H2 & _).
    apply elem_of_map_to_list in Hin. cbn [heap with_offset] in Hs.
    exists k, a, s, object, shnum. done.
  - intros (k & a & s & object & shnum & Hk & Hs & Hsrc & H1 & H2).
    destruct (sized_finalize_loop_Exit size (map_to_list (table_ st)) 0
                (align_address off (Z.shiftr size 3)) pool
                (with_offset (align_address off (Z.shiftr size 3)) st)
                k a s (Unsupported_symbol_section (name_ s) shnum))
      as [d Hd].
    + intros k' p' Hin. apply elem_of_map_to_list in Hin.
      cbn [heap with_offset]. eauto.
    + now apply elem_of_map_to_list.
    + exact Hs.
    + exists object, shnum. done.
    + rewrite Hd.
      apply sized_finalize_loop_Exit_inv in Hd
        as (_ & _ & s' & _ & _ & _ & shnum' & _ & _ & _ & ->).
      exists (name_ s'), shnum'. reflexivity.
Qed.

Lemma sized_finalize_fatal_iff_witness :
  (exists name shnum,
     sized_finalize 32 0 [] Examples.reserved_section_table
     = Exit (Unsupported_symbol_section name shnum))
  <->
  (exists k a s object shnum,
     table_ Examples.reserved_section_table !! k = Some (Some a)
     /\ heap Examples.reserved_section_table !! a = Some s
     /\ source_ s = FROM_OBJECT object shnum
     /\ elfcpp.SHN_LORESERVE <= shnum
     /\ shnum <> elfcpp.SHN_ABS).
Proof.
  refine (sized_finalize_fatal_iff 32 0 [] Examples.reserved_section_table _).
  intros k p H. cbn in H.
  apply lookup_singleton_Some in H as [<- <-].
  eexists _, _. split; reflexivity.
Defined.

(** C6 as stated fails: a common symbol [buf] (section index
    [SHN_COMMON]) that is still in the table at finalize time ends the
    link. *)
Lemma common_at_finalize_is_fatal :
  exists st,
    calls Resolver.resolve
      [Add_from_relobj 32 false (Examples.relobj "a.o")
         [Examples.sym elfcpp.SHN_COMMON elfcpp.STB_GLOBAL 4 8]
         (Examples.strtab "buf") 5]
      Symbol_table_new = Ok (tt, st)
    /\ sized_finalize 32 0 [] st
       = Exit (Unsupported_symbol_section "buf" elfcpp.SHN_COMMON).
Proof.
  eexists. split; vm_compute; reflexivity.
Qed.

(** ** Finalize: running it twice *)

(** The loop changes nothing but [value_] fields of the arena. *)
Lemma sized_finalize_loop_frame size entries :
  forall count off pool st r st1,
    sized_finalize_loop size entries count off pool st = Ok (r, st1) ->
    st1 = with_heap (heap st1) st /\ heaps_alike (heap st1) (heap st).
Proof.
  induction entries as [|[k p] rest IH]; intros count off pool st r st1.
  - intros [= <- <-]. split; [now destruct st | reflexivity].
  - rewrite sized_finalize_loop_cons.
    destruct p as [a|]; [|discriminate].
    destruct (heap st !! a) as [sym|] eqn:Ha; [|discriminate].
    destruct (sized_finalize_value size sym) as [[v|] | d |];
      try discriminate.
    + intros H. apply IH in H as [Hst Halike].
      cbn [heap with_heap] in Halike. split.
      * rewrite Hst. reflexivity.
      * eapply heaps_alike_trans; [exact Halike|].
        now apply heaps_alike_store.
    + apply IH.
Qed.

(** What the [switch] does with a record depends on [value_] only for
    the value it computes. *)
Lemma sized_finalize_value_alike size s s' :
  alike s s' ->
  match sized_finalize_value size s, sized_finalize_value size s' with
  | Ok (Some _), Ok (Some _) => True
  | Ok None, Ok None => True
  | Exit d, Exit d' => d = d'
  | _, _ => False
  end.
Proof.
  intros H. unfold sized_finalize_value.
  rewrite <- (alike_source _ _ H), <- (alike_name _ _ H).
  destruct (source_ s) as [object shnum | od e | os b |]; try exact I.
  repeat case_match; try done; congruence.
Qed.

(** A run of the loop from an arena that differs in values only takes
    the same branches: same count and same offset. *)
Lemma sized_finalize_loop_alike size entries :
  forall count off pool pool' st st' count1 off1 pool1 st1,
    heaps_alike (heap st) (heap st') ->
    sized_finalize_loop size entries count off pool st
    = Ok (count1, off1, pool1, st1) ->
    exists pool1' st1',
      sized_finalize_loop size entries count off pool' st'
      = Ok (count1, off1, pool1', st1').
Proof.
  induction entries as [|[k p] rest IH];
    intros count off pool pool' st st' count1 off1 pool1 st1 Halike.
  - intros [= <- <- <- <-]. eexists _, _. reflexivity.
  - rewrite !sized_finalize_loop_cons.
    destruct p as [a|]; [|discriminate].
    destruct (heap st !! a) as [s|] eqn:Ha; [|discriminate].
    destruct (heaps_alike_lookup _ _ _ _ Halike Ha) as (s' & Ha' & Hss').
    rewrite Ha'.
    pose proof (sized_finalize_value_alike size s s' Hss') as Hkind.
    destruct (sized_finalize_value size s) as [[v|] | d |];
      destruct (sized_finalize_value size s') as [[v'|] | d' |];
      try done.
    + intros H. eapply IH; [|exact H]. cbn [heap with_heap].
      eapply heaps_alike_trans; [now apply heaps_alike_store|].
      eapply heaps_alike_trans; [exact Halike|].
      apply heaps_alike_sym. now apply heaps_alike_store.
    + intros H. eapply IH; [exact Halike | exact H].
Qed.

(** Records whose final value does not depend on the output layout:
    constants and, among the records from objects, those of dynamic
    objects, the undefined and the absolute ones. *)
Definition position_independent (s : Symbol) : bool :=
  match source_ s with
  | FROM_OBJECT object shnum =>
      is_dynamic object || (shnum =? elfcpp.SHN_UNDEF)
      || (shnum =? elfcpp.SHN_ABS)
  | CONSTANT => true
  | _ => false
  end.

(** The value [sized_finalize] gives such a record. *)
Definition layout_free_value (s : Symbol) : Z :=
  match source_ s with
  | FROM_OBJECT object shnum =>
      if is_dynamic object then 0
      else if shnum =? elfcpp.SHN_UNDEF then 0
      else value_ s
  | _ => value_ s
  end.

Lemma sized_finalize_value_position_independent size s :
  position_independent s = true ->
  sized_finalize_value size s = Ok (Some (layout_free_value s))
  \/ exists d, sized_finalize_value size s = Exit d.
Proof.
  unfold position_independent, sized_finalize_value, layout_free_value.
  destruct (source_ s) as [object shnum | od e | os b |]; try discriminate.
  - destruct (_ && _); [right; eauto|].
    destruct (is_dynamic object); [left; reflexivity|].
    destruct (shnum =? elfcpp.SHN_UNDEF); [left; reflexivity|].
    destruct (shnum =? elfcpp.SHN_ABS); [left; reflexivity|discriminate].
  - left. reflexivity.
Qed.

Lemma layout_free_value_idempotent s :
  set_value (layout_free_value (set_value (layout_free_value s) s))
    (set_value (layout_free_value s) s)
  = set_value (layout_free_value s) s.
Proof.
  unfold layout_free_value, set_value. cbn.
  destruct (source_ s) as [object shnum | od e | os b |]; try reflexivity.
  destruct (is_dynamic object); [reflexivity|].
  destruct (shnum =? elfcpp.SHN_UNDEF); reflexivity.
Qed.

(** After a run of the loop, a position-independent record holds its
    layout-free value if an entry points to it, and is untouched
    otherwise. *)
Lemma sized_finalize_loop_position_independent size entries :
  forall count off pool st r st1,
    sized_finalize_loop size entries count off pool st = Ok (r, st1) ->
    forall a s,
      heap st !! a = Some s -> position_independent s = true ->
      heap st1 !! a
      = Some (if bool_decide (Some a ∈ entries.*2)
              then set_value (layout_free_value s) s else s).
Proof.
  induction entries as [|[k p] rest IH]; intros count off pool st r st1.
  - intros [= <- <-] a s Ha _. exact Ha.
  - rewrite sized_finalize_loop_cons.
    destruct p as [a0|]; [|discriminate].
    destruct (heap st !! a0) as [s0|] eqn:Ha0; [|discriminate].
    destruct (sized_finalize_value size s0) as [[v|] | d |] eqn:Hv;
      try discriminate.
    + intros H a s Ha Hpi. cbn [fmap list_fmap snd].
      destruct (decide (a = a0)) as [-> | Hne].
      * rewrite Ha0 in Ha. injection Ha as ->.
        destruct (sized_finalize_value_position_independent size s Hpi)
          as [Hv' | [d Hv']]; rewrite Hv' in Hv; [|discriminate].
        injection Hv as <-.
        rewrite bool_decide_eq_true_2 by apply list_elem_of_here.
        rewrite (IH _ _ _ _ _ _ H a0 (set_value (layout_free_value s) s)).
        -- rewrite layout_free_value_idempotent. now case_bool_decide.
        -- cbn [heap with_heap]. apply list_lookup_insert_eq.
           now apply lookup_lt_Some in Ha0.
        -- exact Hpi.
      * assert (Hiff : Some a ∈ Some a0 :: rest.*2 <-> Some a ∈ rest.*2).
        { rewrite elem_of_cons. split; [intros [[=] |]; done | auto]. }
        rewrite (bool_decide_ext _ _ Hiff).
        apply (IH _ _ _ _ _ _ H a s); [|exact Hpi].
        cbn [heap with_heap]. now rewrite list_lookup_insert_ne.
    + intros H a s Ha Hpi. cbn [fmap list_fmap snd].
      assert (Hiff : Some a ∈ Some a0 :: rest.*2 <-> Some a ∈ rest.*2).
      { rewrite elem_of_cons. split; [|auto].
        intros [[= ->] | Hin]; [|exact Hin].
        rewrite Ha0 in Ha. injection Ha as ->.
        destruct (sized_finalize_value_position_independent size s Hpi)
          as [Hv' | [d Hv']]; rewrite Hv' in Hv; discriminate. }
      rewrite (bool_decide_ext _ _ Hiff).
      exact (IH _ _ _ _ _ _ H a s Ha Hpi).
Qed.

Lemma position_independent_alike s s' :
  alike s s' -> position_independent s = position_independent s'.
Proof.
  intros H. unfold position_independent. now rewrite (alike_source _ _ H).
Qed.

(** C7, as the code has it. When [sized_finalize] has completed, running
    it again from the same start offset (with any output pool) completes
    too, with the same [output_count_], the same [offset_] and the same
    returned offset, and leaves unchanged every record whose value does
    not depend on the layout (constants, absolute and undefined symbols,
    symbols of dynamic objects). The other records are recomputed from
    the value the first run stored. *)
Theorem sized_finalize_twice (size off : Z) (pool pool' : list string)
    (st : Symbol_table) (off1 : Z) (pool1 : list string)
    (st1 : Symbol_table) :
  sized_finalize size off pool st = Ok (off1, pool1, st1) ->
  exists pool2 st2,
    sized_finalize size off pool' st1 = Ok (off1, pool2, st2)
    /\ output_count_ st2 = output_count_ st1
    /\ offset_ st2 = offset_ st1
    /\ forall a s,
         heap st1 !! a = Some s -> position_independent s = true ->
         heap st2 !! a = Some s.
Proof.
  rewrite !sized_finalize_unfold.
  set (off0 := align_address off (Z.shiftr size 3)).
  destruct (sized_finalize_loop size (map_to_list (table_ st)) 0 off0 pool
              (with_offset off0 st))
    as [[[[count offL] poolL] stL]| |] eqn:Hloop; try discriminate.
  intros [= -> -> <-].
  destruct (sized_finalize_loop_frame _ _ _ _ _ _ _ _ Hloop)
    as [HstL Halike].
  cbn [heap with_offset] in Halike.
  assert (Htable : table_ (with_output_count count stL) = table_ st)
    by (rewrite HstL; reflexivity).
  rewrite Htable.
  destruct (sized_finalize_loop_alike size (map_to_list (table_ st)) 0 off0
              pool pool' (with_offset off0 st)
              (with_offset off0 (with_output_count count stL))
              count off1 pool1 stL) as (pool2 & st2L & Hloop2).
  { cbn [heap with_offset with_output_count]. now apply heaps_alike_sym. }
  { exact Hloop. }
  rewrite Hloop2. exists pool2, (with_output_count count st2L).
  destruct (sized_finalize_loop_frame _ _ _ _ _ _ _ _ Hloop2)
    as [Hst2L _].
  split; [reflexivity|]. split; [reflexivity|]. split.
  - rewrite Hst2L, HstL. reflexivity.
  - intros a s Ha Hpi. cbn [heap with_output_count] in *.
    destruct (heaps_alike_lookup _ _ _ _ Halike Ha) as (s0 & Ha0 & Hss0).
    rewrite (position_independent_alike _ _ Hss0) in Hpi.
    pose proof (sized_finalize_loop_position_independent _ _ _ _ _ _ _ _
                  Hloop a s0 Ha0 Hpi) as H1.
    rewrite Ha in H1. injection H1 as H1.
    assert (Hpi1 : position_independent s = true)
      by now rewrite (position_independent_alike _ _ Hss0).
    rewrite (sized_finalize_loop_position_independent _ _ _ _ _ _ _ _
               Hloop2 a s Ha Hpi1).
    f_equal. destruct (bool_decide (Some a ∈ (map_to_list (table_ st)).*2)).
    + rewrite H1. apply layout_free_value_idempotent.
    + reflexivity.
Qed.

Lemma sized_finalize_twice_witness :
  exists st off1 pool1 st1,
    calls Resolver.resolve Examples.absolute_and_text Symbol_table_new
    = Ok (tt, st)
    /\ sized_finalize 32 0 [] st = Ok (off1, pool1, st1)
    /\ exists pool2 st2,
         sized_finalize 32 0 pool1 st1 = Ok (off1, pool2, st2)
         /\ output_count_ st2 = output_count_ st1
         /\ offset_ st2 = offset_ st1
         /\ forall a s,
              heap st1 !! a = Some s -> position_independent s = true ->
              heap st2 !! a = Some s.
Proof.
  do 4 eexists. split; [vm_compute; reflexivity|].
  match goal with
  | |- sized_finalize _ _ _ ?st0 = _ /\ _ =>
      split; [vm_compute; reflexivity|];
      eapply (sized_finalize_twice 32 0 [] _ st0)
  end.
  vm_compute. reflexivity.
Defined.

(** C7 as stated fails: [foo] sits at 0x10 in a section placed at
    offset 0x20 of an output section at 0x1000. The first finalize gives
    it the value 0x1030, the second one 0x2050; the absolute symbol keeps
    its value 7 and the count stays 2. *)
Lemma second_finalize_moves_values :
  exists st off1 pool1 st1 off2 pool2 st2,
    calls Resolver.resolve Examples.absolute_and_text Symbol_table_new
    = Ok (tt, st)
    /\ sized_finalize 32 0 [] st = Ok (off1, pool1, st1)
    /\ sized_finalize 32 0 pool1 st1 = Ok (off2, pool2, st2)
    /\ value_ <$> heap st1 = [7; 0x1030]
    /\ value_ <$> heap st2 = [7; 0x2050]
    /\ output_count_ st1 = 2 /\ output_count_ st2 = 2.
Proof.
  do 7 eexists. split; [vm_compute; reflexivity|].
  split; [vm_compute; reflexivity|].
  split; [vm_compute; reflexivity|].
  repeat split; vm_compute; reflexivity.
Qed.

(** ** The commons list *)

(** Every record of the arena that is common is on the commons list. *)
Definition commons_complete (st : Symbol_table) : Prop :=
  forall a s, heap st !! a = Some s -> is_common s = true -> a ∈ commons_ st.

(** *** What a step leaves of the arena and of the commons list *)

Lemma bindM_Ok {A B} (c : M A) (k : A -> M B) st b st' :
  bindM c k st = Ok (b, st') ->
  exists a st1, c st = Ok (a, st1) /\ k a st1 = Ok (b, st').
Proof. apply (bind_Ok c k). Qed.

Lemma retM_Ok {A} (a b : A) st st' :
  retM a st = Ok (b, st') -> a = b /\ st' = st.
Proof. intros [= -> ->]. done. Qed.

Lemma assert_inv b u st st' :
  assert b st = Ok (u, st') -> b = true /\ st' = st.
Proof. intros H. apply assert_Ok in H as [-> ->]. done. Qed.

Lemma deref_inv p s st st' :
  deref p st = Ok (s, st') ->
  st' = st /\ exists a, p = Some a /\ heap st !! a = Some s.
Proof. apply deref_Ok. Qed.

Lemma get_inv {A} (f : Symbol_table -> A) a st st' :
  get f st = Ok (a, st') -> a = f st /\ st' = st.
Proof. apply get_Ok. Qed.

Lemma table_insert_snull_inv k b st st' :
  table_insert_snull k st = Ok (b, st') ->
  heap st' = heap st /\ commons_ st' = commons_ st.
Proof.
  unfold table_insert_snull. destruct (table_ st !! k); intros [= <- <-]; done.
Qed.

Lemma table_second_inv k p st st' :
  table_second k st = Ok (p, st') -> st' = st.
Proof.
  unfold table_second. destruct (table_ st !! k); [|discriminate].
  now intros [= <- <-].
Qed.

Lemma table_assign_inv k p u st st' :
  table_assign k p st = Ok (u, st') ->
  heap st' = heap st /\ commons_ st' = commons_ st.
Proof. unfold table_assign, modify. intros [= _ <-]. done. Qed.

Lemma table_erase_inv k u st st' :
  table_erase k st = Ok (u, st') ->
  heap st' = heap st /\ commons_ st' = commons_ st.
Proof. unfold table_erase, modify. intros [= _ <-]. done. Qed.

Lemma namepool_add_inv s key st st' :
  namepool_add s st = Ok (key, st') ->
  heap st' = heap st /\ commons_ st' = commons_ st.
Proof.
  unfold namepool_add. destruct (Stringpool.add s (namepool_ st)).
  intros [= <- <-]. done.
Qed.

Lemma store_inv p s u st st' :
  store p s st = Ok (u, st') ->
  heap st' = <[p := s]> (heap st) /\ commons_ st' = commons_ st.
Proof. unfold store, modify. intros [= _ <-]. done. Qed.

Lemma update_inv p f u st st' :
  update p f st = Ok (u, st') ->
  exists s,
    heap st !! p = Some s
    /\ heap st' = <[p := f s]> (heap st) /\ commons_ st' = commons_ st.
Proof.
  unfold update, mbind, M_bind, bindM, deref, store, modify.
  destruct (heap st !! p) as [s|]; [|discriminate].
  intros [= _ <-]. eauto.
Qed.

Lemma new_symbol_inv a st st' :
  new_symbol st = Ok (a, st') ->
  a = length (heap st)
  /\ heap st' = heap st ++ [new_Sized_symbol]
  /\ commons_ st' = commons_ st.
Proof. intros [= <- <-]. done. Qed.

Lemma fprintf_stderr_inv d u st st' :
  fprintf_stderr d st = Ok (u, st') ->
  heap st' = heap st /\ commons_ st' = commons_ st.
Proof. intros [= _ <-]. done. Qed.

Lemma from_object_inv s r st st' :
  from_object s st = Ok (r, st') -> st' = st.
Proof.
  unfold from_object. destruct (source_ s); try discriminate.
  now intros [= _ <-].
Qed.

Ltac inv_M H :=
  lazymatch type of H with
  | bindM _ _ _ = Ok _ =>
      let H1 := fresh "H" in
      apply bindM_Ok in H as (? & ? & H1 & H); cbv beta in H;
      inv_M H1; inv_M H
  | retM _ _ = Ok _ => apply retM_Ok in H as [? ?]; subst
  | assert _ _ = Ok _ => apply assert_inv in H as [? ?]; subst
  | get _ _ = Ok _ => apply get_inv in H as [? ?]; subst
  | modify _ _ = Ok _ => apply modify_Ok in H; subst
  | crash _ = Ok _ => discriminate H
  | gold_exit _ _ = Ok _ => discriminate H
  | deref _ _ = Ok _ =>
      apply deref_inv in H as (? & ? & ? & H); simplify_eq
  | table_insert_snull _ _ = Ok _ =>
      apply table_insert_snull_inv in H as [? ?]
  | table_second _ _ = Ok _ => apply table_second_inv in H; subst
  | from_object _ _ = Ok _ => apply from_object_inv in H; subst
  | table_assign _ _ _ = Ok _ => apply table_assign_inv in H as [? ?]
  | table_erase _ _ = Ok _ => apply table_erase_inv in H as [? ?]
  | namepool_add _ _ = Ok _ => apply namepool_add_inv in H as [? ?]
  | store _ _ _ = Ok _ => apply store_inv in H as [? ?]
  | update _ _ _ = Ok _ => apply update_inv in H as (? & ? & ? & ?)
  | new_symbol _ = Ok _ => apply new_symbol_inv in H as (? & ? & ?); subst
  | fprintf_stderr _ _ = Ok _ => apply fprintf_stderr_inv in H as [? ?]
  | (if ?b then _ else _) _ = Ok _ => destruct b eqn:?; inv_M H
  | (match ?x with _ => _ end) _ = Ok _ => destruct x eqn:?; inv_M H
  | (let '(_, _) := ?x in _) _ = Ok _ => destruct x eqn:?; inv_M H
  | _ => idtac
  end.

Ltac inv_start H := unfold mbind, M_bind, mret, M_ret in H; inv_M H.

Section Commons.

Variable resolve : Symbol -> elfcpp.Sym -> Object -> outcome Symbol.

Lemma resolve_at_inv to sym object u st st' :
  resolve_at resolve to sym object st = Ok (u, st') ->
  exists r r',
    heap st !! to = Some r
    /\ heap st' = <[to := r']> (heap st)
    /\ commons_ st' = commons_ st.
Proof.
  intros H. unfold resolve_at in H. inv_start H.
  eexists _, _. repeat split; eauto.
Qed.

Lemma make_forwarder_inv from to u st st' :
  make_forwarder from to st = Ok (u, st') ->
  exists pf f,
    from = Some pf /\ heap st !! pf = Some f
    /\ heap st' = <[pf := set_forwarder f]> (heap st)
    /\ commons_ st' = commons_ st.
Proof.
  intros H. unfold make_forwarder in H. inv_start H.
  eexists _, _. repeat split; eauto.
Qed.

(** From [st] to [st'] the commons list is kept, and every record other
    than [ret] is one of [st] that is common in [st'] iff it was in
    [st]. *)
Definition changes_only (ret : nat) (st st' : Symbol_table) : Prop :=
  commons_ st' = commons_ st
  /\ forall a s', heap st' !! a = Some s' ->
       a = ret
       \/ exists s, heap st !! a = Some s /\ is_common s' = is_common s.

Lemma changes_only_refl ret st : changes_only ret st st.
Proof. split; [reflexivity|]. intros a s' Ha. right. eauto. Qed.

Lemma changes_only_trans ret st1 st2 st3 :
  changes_only ret st1 st2 -> changes_only ret st2 st3 ->
  changes_only ret st1 st3.
Proof.
  intros [Hc1 Hh1] [Hc2 Hh2]. split; [congruence|].
  intros a s3 Ha. destruct (Hh2 a s3 Ha) as [-> | (s2 & Ha2 & E2)]; [now left|].
  destruct (Hh1 a s2 Ha2) as [-> | (s1 & Ha1 & E1)]; [now left|].
  right. exists s1. split; [exact Ha1 | congruence].
Qed.

Lemma changes_only_same ret st st' :
  heap st' = heap st -> commons_ st' = commons_ st -> changes_only ret st st'.
Proof.
  intros Hh Hc. split; [exact Hc|]. intros a s' Ha. right.
  exists s'. rewrite <- Hh. done.
Qed.

Lemma changes_only_store ret r st st' :
  heap st' = <[ret := r]> (heap st) -> commons_ st' = commons_ st ->
  changes_only ret st st'.
Proof.
  intros Hh Hc. split; [exact Hc|]. intros a s' Ha. rewrite Hh in Ha.
  apply list_lookup_insert_Some in Ha as [(-> & _) | (_ & Ha)];
    [now left | right; eauto].
Qed.

Lemma changes_only_forwarder ret pf f st st' :
  heap st !! pf = Some f ->
  heap st' = <[pf := set_forwarder f]> (heap st) ->
  commons_ st' = commons_ st ->
  changes_only ret st st'.
Proof.
  intros Hf Hh Hc. split; [exact Hc|]. intros a s' Ha. rewrite Hh in Ha.
  right. apply list_lookup_insert_Some in Ha as [(-> & <- & _) | (_ & Ha)].
  - exists f. done.
  - eauto.
Qed.

Lemma changes_only_new s0 st st' :
  heap st' = heap st ++ [s0] -> commons_ st' = commons_ st ->
  changes_only (length (heap st)) st st'.
Proof.
  intros Hh Hc. split; [exact Hc|]. intros a s' Ha. rewrite Hh in Ha.
  apply lookup_app_Some in Ha as [Ha | [Hlen Ha]]; [right; eauto|].
  left. apply lookup_lt_Some in Ha. simpl in Ha. lia.
Qed.

Lemma resolve_symbols_inv to from u st st' :
  resolve_symbols resolve to from st = Ok (u, st') ->
  exists r',
    heap st' = <[to := r']> (heap st) /\ commons_ st' = commons_ st.
Proof.
  intros H. unfold resolve_symbols in H. inv_start H.
  apply resolve_at_inv in H as (r & r' & _ & Hh & Hc). eauto.
Qed.

End Commons.

(** Walks back from [st'] to [st] along the steps recorded in the
    context. *)
Ltac changes_chain :=
  lazymatch goal with
  | |- changes_only _ ?st ?st => apply changes_only_refl
  | |- changes_only ?ret ?st ?st' =>
      match goal with
      | H : heap st' = heap ?x, H' : commons_ st' = commons_ ?x |- _ =>
          apply (changes_only_trans ret st x st');
          [clear H H'; changes_chain | exact (changes_only_same ret x st' H H')]
      | H : heap st' = <[ret := ?r]> (heap ?x),
        H' : commons_ st' = commons_ ?x |- _ =>
          apply (changes_only_trans ret st x st');
          [clear H H'; changes_chain
          | exact (changes_only_store ret r x st' H H')]
      | Hf : heap ?x !! ?pf = Some ?f,
        H : heap st' = <[?pf := set_forwarder ?f]> (heap ?x),
        H' : commons_ st' = commons_ ?x |- _ =>
          apply (changes_only_trans ret st x st');
          [clear H H'; changes_chain
          | exact (changes_only_forwarder ret pf f x st' Hf H H')]
      | H : heap st' = heap ?x ++ [?s0],
        H' : commons_ st' = commons_ ?x |- _ =>
          apply (changes_only_trans ret st x st');
          [clear H H'; changes_chain
          | exact (changes_only_new s0 x st' H H')]
      end
  end.

Section Commons_invariant.

Variable resolve : Symbol -> elfcpp.Sym -> Object -> outcome Symbol.

Ltac inv_composite :=
  repeat match goal with
  | H : resolve_at _ _ _ _ _ = Ok _ |- _ =>
      apply resolve_at_inv in H as (? & ? & ? & ? & ?)
  | H : resolve_symbols _ _ _ _ = Ok _ |- _ =>
      apply resolve_symbols_inv in H as (? & ? & ?)
  | H : make_forwarder _ _ _ = Ok _ |- _ =>
      apply make_forwarder_inv in H as (? & ? & ? & ? & ? & ?)
  end.

Lemma add_from_object_entry_changes size big_endian object name name_key
    version version_key def sym e st st' :
  add_from_object_entry resolve size big_endian object name name_key version
    version_key def sym st = Ok (e, st') ->
  match e with
  | None => heap st' = heap st /\ commons_ st' = commons_ st
  | Some (ret, wu, wc) =>
      changes_only ret st st'
      /\ (wc = true ->
          exists s, heap st !! ret = Some s /\ is_common s = true)
  end.
Proof.
  intros H. unfold add_from_object_entry in H. inv_start H.
  all: try (split; congruence).
  all: inv_composite; simplify_eq.
  all: split; [| first [discriminate | intros ?; eexists; split; [|eassumption]; congruence]].
  all: changes_chain.
Qed.

Lemma commons_complete_same st st' :
  heap st' = heap st -> commons_ st' = commons_ st ->
  commons_complete st -> commons_complete st'.
Proof.
  intros Hh Hc Hinv a s Ha Hs. rewrite Hh in Ha. rewrite Hc. eauto.
Qed.

Lemma commons_complete_new st st' :
  heap st' = heap st ++ [new_Sized_symbol] -> commons_ st' = commons_ st ->
  commons_complete st -> commons_complete st'.
Proof.
  intros Hh Hc Hinv a s Ha Hs. rewrite Hh in Ha. rewrite Hc.
  apply lookup_app_Some in Ha as [Ha | [_ Ha]]; [eauto|].
  apply list_lookup_singleton_Some in Ha as [_ <-]. discriminate.
Qed.

Lemma commons_complete_store p s st st' :
  is_common s = false ->
  heap st' = <[p := s]> (heap st) -> commons_ st' = commons_ st ->
  commons_complete st -> commons_complete st'.
Proof.
  intros Hs Hh Hc Hinv a s' Ha Hs'. rewrite Hh in Ha. rewrite Hc.
  apply list_lookup_insert_Some in Ha as [(_ & <- & _) | (_ & Ha)];
    [congruence | eauto].
Qed.

(** [add_from_object] keeps the commons list complete. *)
Lemma add_from_object_commons size big_endian object name name_key version
    version_key def sym r st st' :
  commons_complete st ->
  add_from_object resolve size big_endian object name name_key version
    version_key def sym st = Ok (r, st') ->
  commons_complete st'.
Proof.
  intros Hinv H. unfold add_from_object in H.
  unfold mbind, M_bind, mret, M_ret in H.
  apply bindM_Ok in H as (e & st1 & He & H).
  apply add_from_object_entry_changes in He.
  destruct e as [[[ret wu] wc]|]; cbv beta iota in H.
  - destruct He as [[Hc1 Hh1] Hwc]. inv_M H.
    all: intros a s Ha Hs; cbn in Ha |- *.
    all: destruct (Hh1 a s Ha) as [-> | (s0 & Ha0 & E)];
      [| rewrite Hc1, ?elem_of_app; try left;
         apply (Hinv a s0 Ha0); congruence].
    all: simplify_eq.
    all: try (rewrite elem_of_app; right; apply list_elem_of_here).
    all: match goal with
         | Hb : negb _ && is_common _ = false, Hw : _ = true -> _ |- _ =>
             rewrite Hs, andb_true_r in Hb; apply negb_false_iff in Hb;
             destruct (Hw Hb) as (s1 & Hs1 & Hc1'); rewrite Hc1;
             exact (Hinv _ _ Hs1 Hc1')
         end.
  - destruct He as [Hh Hc]. inv_M H.
    exact (commons_complete_same _ _ Hh Hc Hinv).
Qed.

Ltac complete_forward :=
  repeat match goal with
  | Hc : commons_complete ?x, H : heap ?x' = heap ?x,
    H' : commons_ ?x' = commons_ ?x |- _ =>
      pose proof (commons_complete_same x x' H H' Hc); clear H H'
  | Hc : commons_complete ?x, H : heap ?x' = heap ?x ++ [new_Sized_symbol],
    H' : commons_ ?x' = commons_ ?x |- _ =>
      pose proof (commons_complete_new x x' H H' Hc); clear H H'
  | Hc : commons_complete ?x,
    H : add_from_object _ _ _ _ _ _ _ _ _ _ ?x = Ok (_, ?x') |- _ =>
      pose proof (add_from_object_commons _ _ _ _ _ _ _ _ _ _ _ _ Hc H);
      clear H
  end.

Lemma add_from_relobj_symbol_commons size big_endian relobj sym_names
    sym_name_size i sym r st st' :
  commons_complete st ->
  add_from_relobj_symbol resolve size big_endian relobj sym_names
    sym_name_size i sym st = Ok (r, st') ->
  commons_complete st'.
Proof.
  intros Hinv H. unfold add_from_relobj_symbol in H. inv_start H.
  all: complete_forward; assumption.
Qed.

Lemma add_from_relobj_loop_commons size big_endian relobj sym_names
    sym_name_size syms :
  forall i r st st',
    commons_complete st ->
    add_from_relobj_loop resolve size big_endian relobj sym_names
      sym_name_size i syms st = Ok (r, st') ->
    commons_complete st'.
Proof.
  induction syms as [|sym0 rest IH]; intros i r st st' Hinv H;
    cbn [add_from_relobj_loop] in H; inv_start H; [assumption|].
  eapply IH; [|eassumption].
  eapply add_from_relobj_symbol_commons; eassumption.
Qed.

Lemma add_from_relobj_commons size big_endian relobj syms sym_names
    sym_name_size r st st' :
  commons_complete st ->
  add_from_relobj resolve size big_endian relobj syms sym_names sym_name_size
    st = Ok (r, st') ->
  commons_complete st'.
Proof.
  intros Hinv H. unfold add_from_relobj in H. inv_start H.
  all: eapply add_from_relobj_loop_commons; [|eassumption]; exact Hinv.
Qed.

Lemma add_from_dynobj_symbol_commons size big_endian dynobj sym_names
    sym_name_size versym version_map i sym r st st' :
  commons_complete st ->
  add_from_dynobj_symbol resolve size big_endian dynobj sym_names
    sym_name_size versym version_map i sym st = Ok (r, st') ->
  commons_complete st'.
Proof.
  intros Hinv H. unfold add_from_dynobj_symbol in H. inv_start H.
  all: complete_forward; assumption.
Qed.

Lemma add_from_dynobj_loop_commons size big_endian dynobj sym_names
    sym_name_size versym version_map syms :
  forall i r st st',
    commons_complete st ->
    add_from_dynobj_loop resolve size big_endian dynobj sym_names
      sym_name_size versym version_map i syms st = Ok (r, st') ->
    commons_complete st'.
Proof.
  induction syms as [|sym0 rest IH]; intros i r st st' Hinv H;
    cbn [add_from_dynobj_loop] in H; inv_start H; [assumption|].
  eapply IH; [|eassumption].
  eapply add_from_dynobj_symbol_commons; eassumption.
Qed.

Lemma add_from_dynobj_commons size big_endian dynobj syms sym_names
    sym_name_size versym versym_size version_map r st st' :
  commons_complete st ->
  add_from_dynobj resolve size big_endian dynobj syms sym_names sym_name_size
    versym versym_size version_map st = Ok (r, st') ->
  commons_complete st'.
Proof.
  intros Hinv H. unfold add_from_dynobj in H. inv_start H.
  all: eapply add_from_dynobj_loop_commons; [|eassumption]; exact Hinv.
Qed.


Lemma define_special_symbol_commons size big_endian target name only_if_ref
    r st st' :
  commons_complete st ->
  define_special_symbol size big_endian target name only_if_ref st
  = Ok (r, st') ->
  commons_complete st'.
Proof.
  intros Hinv H. unfold define_special_symbol in H. inv_start H.
  all: complete_forward; assumption.
Qed.

Lemma define_in_output_data_commons target name od value symsize type binding
    visibility nonvis offset_is_from_end only_if_ref r st st' :
  commons_complete st ->
  define_in_output_data target name od value symsize type binding visibility
    nonvis offset_is_from_end only_if_ref st = Ok (r, st') ->
  commons_complete st'.
Proof.
  intros Hinv H.
  unfold define_in_output_data, dispatch_size, do_define_in_output_data in H.
  inv_start H.
  all: match goal with
       | H : define_special_symbol _ _ _ _ _ _ = Ok _ |- _ =>
           apply (define_special_symbol_commons _ _ _ _ _ _ _ _ Hinv) in H
       end.
  all: try assumption.
  all: eapply commons_complete_store; [|eassumption..]; reflexivity.
Qed.

Lemma define_in_output_segment_commons target name os value symsize type
    binding visibility nonvis offset_base only_if_ref r st st' :
  commons_complete st ->
  define_in_output_segment target name os value symsize type binding
    visibility nonvis offset_base only_if_ref st = Ok (r, st') ->
  commons_complete st'.
Proof.
  intros Hinv H.
  unfold define_in_output_segment, dispatch_size,
    do_define_in_output_segment in H.
  inv_start H.
  all: match goal with
       | H : define_special_symbol _ _ _ _ _ _ = Ok _ |- _ =>
           apply (define_special_symbol_commons _ _ _ _ _ _ _ _ Hinv) in H
       end.
  all: try assumption.
  all: eapply commons_complete_store; [|eassumption..]; reflexivity.
Qed.

Lemma define_as_constant_commons target name value symsize type binding
    visibility nonvis only_if_ref r st st' :
  commons_complete st ->
  define_as_constant target name value symsize type binding visibility
    nonvis only_if_ref st = Ok (r, st') ->
  commons_complete st'.
Proof.
  intros Hinv H.
  unfold define_as_constant, dispatch_size, do_define_as_constant in H.
  inv_start H.
  all: match goal with
       | H : define_special_symbol _ _ _ _ _ _ = Ok _ |- _ =>
           apply (define_special_symbol_commons _ _ _ _ _ _ _ _ Hinv) in H
       end.
  all: try assumption.
  all: eapply commons_complete_store; [|eassumption..]; reflexivity.
Qed.

End Commons_invariant.

Lemma call_commons resolve op st st' :
  commons_complete st -> call resolve op st = Ok (tt, st') ->
  commons_complete st'.
Proof.
  intros Hinv H. destruct op; cbn [call] in H.
  - inv_start H. eapply add_from_object_commons; eassumption.
  - inv_start H. eapply add_from_relobj_commons; eassumption.
  - eapply add_from_dynobj_commons; eassumption.
  - eapply define_in_output_data_commons; eassumption.
  - eapply define_in_output_segment_commons; eassumption.
  - eapply define_as_constant_commons; eassumption.
Qed.

Lemma calls_commons resolve ops :
  forall st st',
    commons_complete st -> calls resolve ops st = Ok (tt, st') ->
    commons_complete st'.
Proof.
  induction ops as [|op rest IH]; intros st st' Hinv H; cbn [calls] in H.
  - now inv_start H.
  - inv_start H.
    match goal with
    | H1 : call _ _ _ = Ok (?u, _) |- _ => destruct u
    end.
    eapply IH; [|eassumption]. eapply call_commons; eassumption.
Qed.

(** C8, as the code has it. After any sequence of ingestion and
    linker-definition calls on a new symbol table, every record whose
    current classification is COMMON is on the commons list. The list is
    only ever appended to, so a record that has stopped being common
    stays on it. *)
Theorem commons_list_complete
    (resolve : Symbol -> elfcpp.Sym -> Object -> outcome Symbol)
    (ops : list Operation) (st : Symbol_table) :
  calls resolve ops Symbol_table_new = Ok (tt, st) ->
  forall a s,
    heap st !! a = Some s -> is_common s = true -> a ∈ commons_ st.
Proof.
  intros H. apply (calls_commons resolve ops Symbol_table_new st); [|exact H].
  intros a s Ha. discriminate.
Qed.

Lemma commons_list_complete_witness :
  exists st,
    calls Resolver.resolve
      [Add_from_relobj 32 false (Examples.relobj "a.o")
         [Examples.sym elfcpp.SHN_COMMON elfcpp.STB_GLOBAL 4 8]
         (Examples.strtab "buf") 5]
      Symbol_table_new = Ok (tt, st)
    /\ commons_ st = [0%nat]
    /\ forall a s,
         heap st !! a = Some s -> is_common s = true -> a ∈ commons_ st.
Proof.
  eexists. split; [vm_compute; reflexivity|].
  split; [vm_compute; reflexivity|].
  apply (commons_list_complete Resolver.resolve
           [Add_from_relobj 32 false (Examples.relobj "a.o")
              [Examples.sym elfcpp.SHN_COMMON elfcpp.STB_GLOBAL 4 8]
              (Examples.strtab "buf") 5]).
  vm_compute. reflexivity.
Defined.

(** C8 as stated fails: a.o brings the common symbol [buf], then the
    linker defines [buf] as a constant. The record is no longer common
    and is still on the commons list. *)
Lemma commons_list_keeps_former_common :
  exists st,
    calls Resolver.resolve
      [Add_from_relobj 32 false (Examples.relobj "a.o")
         [Examples.sym elfcpp.SHN_COMMON elfcpp.STB_GLOBAL 4 8]
         (Examples.strtab "buf") 5;
       Define_as_constant (Examples.target32 false) "buf" 0 0
         elfcpp.STT_OBJECT elfcpp.STB_GLOBAL elfcpp.STV_DEFAULT 0 false]
      Symbol_table_new = Ok (tt, st)
    /\ lookup "buf" None st = Some 0%nat
    /\ is_common <$> heap st !! 0%nat = Some false
    /\ commons_ st = [0%nat].
Proof.
  eexists. split; [vm_compute; reflexivity|].
  repeat split; vm_compute; reflexivity.
Qed.

(** ** Symbols with local binding *)

Lemma index_of_app_None s pool :
  forall i,
    Stringpool.index_of s pool i = None ->
    Stringpool.index_of s (pool ++ [s]) i = Some (i + Z.of_nat (length pool)).
Proof.
  induction pool as [|x rest IH]; intros i H; cbn in *.
  - rewrite String.eqb_refl. f_equal. lia.
  - destruct (String.eqb s x); [discriminate|].
    rewrite (IH _ H). f_equal. lia.
Qed.

Lemma find_after_add s pool :
  Stringpool.find s (Stringpool.add s pool).1 = Some (Stringpool.add s pool).2.
Proof.
  unfold Stringpool.add, Stringpool.find.
  destruct (Stringpool.index_of s pool 1) eqn:E; cbn [fst snd].
  - exact E.
  - rewrite (index_of_app_None _ _ _ E). f_equal. lia.
Qed.

Lemma update_run p f st s :
  heap st !! p = Some s ->
  update p f st = Ok (tt, with_heap (<[p := f s]> (heap st)) st).
Proof.
  intros H. unfold update, mbind, M_bind, bindM, deref. now rewrite H.
Qed.

(** C3, as the code has it. Only [add_from_dynobj] skips a symbol whose
    binding is [STB_LOCAL]: the symbol table is unchanged for it.
    [add_from_relobj] does not look at the binding: a local symbol with
    an unversioned name that has no entry yet (and whose object's target
    has no [make_symbol]) gets a new record, which keeps the binding
    [STB_LOCAL], is entered in the table under its name and is returned
    for [sympointers]. *)
Theorem local_symbols_skipped_by_dynobj_only
    (resolve : Symbol -> elfcpp.Sym -> Object -> outcome Symbol)
    (size : Z) (big_endian : bool) (object : Object) (sym_names : string)
    (sym_name_size : Z) (versym : option (list Z))
    (version_map : list (option string)) (i : Z) (sym : elfcpp.Sym)
    (st : Symbol_table) :
  elfcpp.st_bind sym = elfcpp.STB_LOCAL ->
  add_from_dynobj_symbol resolve size big_endian object sym_names
    sym_name_size versym version_map i sym st = Ok (tt, st)
  /\ (elfcpp.st_name sym < sym_name_size ->
      strchr (name_at sym_names (elfcpp.st_name sym)) "@" = None ->
      table_ st
        !! ((Stringpool.add (name_at sym_names (elfcpp.st_name sym))
               (namepool_ st)).2, 0) = None ->
      has_make_symbol (target object) = false ->
      exists st',
        add_from_relobj_symbol resolve size big_endian object sym_names
          sym_name_size i sym st = Ok (Some (length (heap st)), st')
        /\ lookup (name_at sym_names (elfcpp.st_name sym)) None st'
           = Some (length (heap st))
        /\ binding_ <$> heap st' !! length (heap st)
           = Some elfcpp.STB_LOCAL).
Proof.
  intros Hlocal. split.
  - unfold add_from_dynobj_symbol. rewrite Hlocal. reflexivity.
  - intros Hname Hat Hnew Hmk.
    set (name := name_at sym_names (elfcpp.st_name sym)) in *.
    unfold add_from_relobj_symbol.
    apply Z.leb_gt in Hname. rewrite Hname. fold name. rewrite Hat.
    set (psym := if (_ : bool) then _ else _).
    assert (Hbind : elfcpp.st_bind psym = elfcpp.STB_LOCAL)
      by (unfold psym; destruct (_ && _); exact Hlocal).
    unfold namepool_add.
    pose proof (find_after_add name (namepool_ st)) as Hfind.
    destruct (Stringpool.add name (namepool_ st)) as [pool key] eqn:Hadd.
    cbn [fst snd] in Hnew, Hfind.
    unfold add_from_object, add_from_object_entry.
    unfold mbind, M_bind, bindM, table_insert_snull, table_second,
      table_assign, new_symbol, store, deref, modify, assert, mret, M_ret,
      retM.
    rewrite Hadd.
    cbn [table_ heap with_namepool with_table with_heap negb andb].
    rewrite Hnew. cbn [table_ heap with_namepool with_table with_heap negb].
    rewrite lookup_insert_eq, bool_decide_eq_true_2 by done.
    rewrite Hmk.
    cbn [table_ heap with_namepool with_table with_heap negb andb].
    rewrite (update_run _ _ _ new_Sized_symbol)
      by (cbn [heap with_heap]; now apply list_lookup_middle).
    cbn [table_ heap with_namepool with_table with_heap negb andb].
    rewrite list_lookup_insert_eq by (rewrite length_app; simpl; lia).
    destruct (is_undefined (init name None object psym new_Sized_symbol));
      destruct (is_common (init name None object psym new_Sized_symbol));
      cbn [negb andb]; eexists; (split; [reflexivity|]); split.
    all: try (unfold lookup;
              cbn [namepool_ table_ with_namepool with_table with_heap
                     with_saw_undefined with_commons];
              rewrite Hfind, insert_insert_eq, lookup_insert_eq;
              reflexivity).
    all: cbn [heap with_namepool with_table with_heap with_saw_undefined
                with_commons];
      rewrite list_lookup_insert_eq by (rewrite length_app; simpl; lia);
      cbn; now rewrite Hbind.
Qed.

Lemma local_symbols_skipped_by_dynobj_only_witness :
  add_from_dynobj_symbol Resolver.resolve 32 false (Examples.relobj "a.o")
    (Examples.strtab "loc") 5 None [] 0
    (Examples.sym 3 elfcpp.STB_LOCAL 0 4) Symbol_table_new
  = Ok (tt, Symbol_table_new)
  /\ exists st',
       add_from_relobj_symbol Resolver.resolve 32 false
         (Examples.relobj "a.o") (Examples.strtab "loc") 5 0
         (Examples.sym 3 elfcpp.STB_LOCAL 0 4) Symbol_table_new
       = Ok (Some 0%nat, st')
       /\ lookup "loc" None st' = Some 0%nat
       /\ binding_ <$> heap st' !! 0%nat = Some elfcpp.STB_LOCAL.
Proof.
  destruct (local_symbols_skipped_by_dynobj_only Resolver.resolve 32 false
              (Examples.relobj "a.o") (Examples.strtab "loc") 5 None [] 0
              (Examples.sym 3 elfcpp.STB_LOCAL 0 4) Symbol_table_new
              eq_refl) as [Hdyn Hrel].
  split; [exact Hdyn|].
  apply Hrel; [simpl; lia | reflexivity | reflexivity | reflexivity].
Defined.

(** C3 as stated fails: [add_from_relobj] gives the local symbol [loc] of
    a.o a record and a table entry, where the new table had none. *)
Lemma add_from_relobj_stores_local :
  exists ptrs st,
    add_from_relobj Resolver.resolve 32 false (Examples.relobj "a.o")
      [Examples.sym 3 elfcpp.STB_LOCAL 0 4] (Examples.strtab "loc") 5
      Symbol_table_new = Ok (ptrs, st)
    /\ ptrs = [Some 0%nat]
    /\ lookup "loc" None Symbol_table_new = None
    /\ lookup "loc" None st = Some 0%nat
    /\ binding_ <$> heap st !! 0%nat = Some elfcpp.STB_LOCAL.
Proof.
  do 2 eexists. split; [vm_compute; reflexivity|].
  repeat split; vm_compute; reflexivity.
Qed.

(** ** Default versions and forwarders *)

(** *** What the default-version case of [add_from_object] does achieve *)

Lemma table_insert_snull_table k b st st' :
  table_insert_snull k st = Ok (b, st') ->
  (b = false /\ st' = st /\ is_Some (table_ st !! k))
  \/ (b = true /\ table_ st' = <[k := None]> (table_ st)).
Proof.
  unfold table_insert_snull. destruct (table_ st !! k) eqn:E;
    intros [= <- <-]; [left | right]; eauto.
Qed.

Lemma table_second_table k p st st' :
  table_second k st = Ok (p, st') -> st' = st /\ table_ st !! k = Some p.
Proof.
  unfold table_second. destruct (table_ st !! k); [|discriminate].
  now intros [= <- <-].
Qed.

Lemma table_assign_table k p u st st' :
  table_assign k p st = Ok (u, st') -> table_ st' = <[k := p]> (table_ st).
Proof. unfold table_assign, modify. now intros [= _ <-]. Qed.

Lemma update_table p f u st st' :
  update p f st = Ok (u, st') -> table_ st' = table_ st.
Proof.
  unfold update, mbind, M_bind, bindM, deref, store, modify.
  destruct (heap st !! p); [|discriminate]. now intros [= _ <-].
Qed.

Lemma store_table p s u st st' :
  store p s st = Ok (u, st') -> table_ st' = table_ st.
Proof. unfold store, modify. now intros [= _ <-]. Qed.

Lemma from_object_table s r st st' :
  from_object s st = Ok (r, st') -> st' = st.
Proof. apply from_object_inv. Qed.

Lemma new_symbol_table a st st' :
  new_symbol st = Ok (a, st') -> table_ st' = table_ st.
Proof. now intros [= _ <-]. Qed.

Ltac inv_T H :=
  lazymatch type of H with
  | bindM _ _ _ = Ok _ =>
      let H1 := fresh "H" in
      apply bindM_Ok in H as (? & ? & H1 & H); cbv beta in H;
      inv_T H1; inv_T H
  | retM _ _ = Ok _ => apply retM_Ok in H as [? ?]; subst
  | assert _ _ = Ok _ => apply assert_inv in H as [? ?]; subst
  | modify _ _ = Ok _ => apply modify_Ok in H; subst
  | crash _ = Ok _ => discriminate H
  | deref _ _ = Ok _ =>
      apply deref_inv in H as (? & ? & ? & H); simplify_eq
  | table_insert_snull _ _ = Ok _ =>
      apply table_insert_snull_table in H as [(? & ? & ?) | (? & ?)]; subst
  | table_second _ _ = Ok _ =>
      apply table_second_table in H as [? ?]; subst
  | table_assign _ _ _ = Ok _ => apply table_assign_table in H
  | update _ _ _ = Ok _ => apply update_table in H
  | store _ _ _ = Ok _ => apply store_table in H
  | from_object _ _ = Ok _ => apply from_object_inv in H; subst
  | gold_exit _ _ = Ok _ => discriminate H
  | new_symbol _ = Ok _ => apply new_symbol_table in H
  | (if ?b then _ else _) _ = Ok _ => destruct b eqn:?; inv_T H
  | (match ?x with _ => _ end) _ = Ok _ => destruct x eqn:?; inv_T H
  | _ => idtac
  end.

Lemma make_forwarder_table from to u st st' :
  make_forwarder from to st = Ok (u, st') -> table_ st' = table_ st.
Proof.
  intros H. unfold make_forwarder, mbind, M_bind in H. inv_T H.
  cbn [table_ with_forwarders] in H. exact H.
Qed.

Section Default_version.

Variable resolve : Symbol -> elfcpp.Sym -> Object -> outcome Symbol.

Lemma resolve_at_table to sym object u st st' :
  resolve_at resolve to sym object st = Ok (u, st') -> table_ st' = table_ st.
Proof.
  intros H. unfold resolve_at, mbind, M_bind in H. inv_T H. exact H.
Qed.

Lemma resolve_symbols_table to from u st st' :
  resolve_symbols resolve to from st = Ok (u, st') -> table_ st' = table_ st.
Proof.
  intros H. unfold resolve_symbols, mbind, M_bind in H. inv_T H.
  now apply resolve_at_table in H.
Qed.

(** Right after [add_from_object] returned a record for a default
    version, the entries NAME/VERSION and NAME/NULL both hold it. *)
Lemma add_from_object_default_aliases size big_endian object name name_key
    version version_key sym ret st st' :
  add_from_object resolve size big_endian object name name_key version
    version_key true sym st = Ok (Some ret, st') ->
  table_ st' !! (name_key, version_key) = Some (Some ret)
  /\ table_ st' !! (name_key, 0) = Some (Some ret).
Proof.
  intros H. unfold add_from_object, add_from_object_entry in H.
  unfold mbind, M_bind, mret, M_ret in H. inv_T H.
  all: cbn [table_ with_saw_undefined with_commons] in *.
  all: repeat match goal with
       | H : resolve_at _ _ _ _ _ = Ok _ |- _ => apply resolve_at_table in H
       | H : resolve_symbols _ _ _ _ = Ok _ |- _ =>
           apply resolve_symbols_table in H
       | H : make_forwarder _ _ _ = Ok _ |- _ =>
           apply make_forwarder_table in H
       end.
  all: simplify_eq.
  all: repeat match goal with
       | H : table_ _ = _ |- _ => rewrite H in *; clear H
       end.
  all: repeat match goal with
       | H : negb (bool_decide _) = false |- _ =>
           apply negb_false_iff, bool_decide_eq_true in H
       end.
  all: simplify_eq.
  all: destruct (decide (version_key = 0)) as [-> | Hne]; split;
    repeat (rewrite lookup_insert_eq
            || rewrite lookup_insert_ne by congruence);
    simplify_map_eq; try done; try congruence.
  all: repeat match goal with
       | H : <[_:=_]> _ !! _ = _ |- _ =>
           rewrite lookup_insert_ne in H by congruence
       end; done.
Qed.

End Default_version.

(** C1 on the code. lib1.so defines [foo@@V1], a.o refers to [foo@V2]
    and lib2.so defines [foo@@V2]. The pair (foo, V1) was added as a
    default version, yet afterwards [lookup (foo, NULL)] returns the
    record of (foo, V2) and [lookup (foo, V1)] returns another one. *)
Theorem default_version_lookups_diverge :
  exists st,
    calls Resolver.resolve Examples.two_default_versions Symbol_table_new
    = Ok (tt, st)
    /\ lookup "foo" None st = Some 1%nat
    /\ lookup "foo" (Some "V1"%string) st = Some 0%nat
    /\ lookup "foo" (Some "V2"%string) st = Some 1%nat.
Proof.
  eexists. split; [vm_compute; reflexivity|].
  repeat split; vm_compute; reflexivity.
Qed.

(** C2 on the code. After the same three inputs the record that
    [make_forwarder] turned into a forwarder is still the value of the
    hash table entry (foo, V1); only the entry (foo, NULL) was pointed at
    the surviving record. *)
Theorem forwarder_stays_in_table :
  exists st,
    calls Resolver.resolve Examples.two_default_versions Symbol_table_new
    = Ok (tt, st)
    /\ table_ st !! (1, 2) = Some (Some 0%nat)
    /\ is_forwarder_ <$> heap st !! 0%nat = Some true
    /\ resolve_forwards (Some 0%nat) st = Ok (Some 1%nat)
    /\ table_ st !! (1, 0) = Some (Some 1%nat).
Proof.
  eexists. split; [vm_compute; reflexivity|].
  repeat split; vm_compute; reflexivity.
Qed.

(** * Further properties of the code *)

(** ** Exact inversion of a run *)

Lemma table_insert_snull_exact k b st st' :
  table_insert_snull k st = Ok (b, st') ->
  (is_Some (table_ st !! k) /\ b = false /\ st' = st)
  \/ (table_ st !! k = None /\ b = true
      /\ st' = with_table (<[k := None]> (table_ st)) st).
Proof.
  unfold table_insert_snull. destruct (table_ st !! k) eqn:E;
    intros [= <- <-]; [left | right]; eauto.
Qed.

Lemma new_symbol_exact a st st' :
  new_symbol st = Ok (a, st') ->
  a = length (heap st) /\ st' = with_heap (heap st ++ [new_Sized_symbol]) st.
Proof. now intros [= <- <-]. Qed.

Lemma namepool_add_exact s key st st' :
  namepool_add s st = Ok (key, st') ->
  key = (Stringpool.add s (namepool_ st)).2
  /\ st' = with_namepool (Stringpool.add s (namepool_ st)).1 st.
Proof.
  unfold namepool_add. destruct (Stringpool.add s (namepool_ st)).
  now intros [= <- <-].
Qed.

Lemma fprintf_stderr_exact d u st st' :
  fprintf_stderr d st = Ok (u, st') -> st' = with_err (err st ++ [d]) st.
Proof. now intros [= _ <-]. Qed.

Lemma update_exact p f u st st' :
  update p f st = Ok (u, st') ->
  exists s,
    heap st !! p = Some s /\ st' = with_heap (<[p := f s]> (heap st)) st.
Proof.
  unfold update, mbind, M_bind, bindM, deref, store, modify.
  destruct (heap st !! p) as [s|]; [|discriminate].
  intros [= _ <-]. eauto.
Qed.

Lemma make_forwarder_exact from to u st st' :
  make_forwarder from to st = Ok (u, st') ->
  exists pf pt f t,
    from = Some pf /\ to = Some pt /\ pf <> pt
    /\ heap st !! pf = Some f /\ heap st !! pt = Some t
    /\ is_forwarder_ f = false /\ is_forwarder_ t = false
    /\ st' = with_heap (<[pf := set_forwarder f]> (heap st))
               (with_forwarders (<[pf := pt]> (forwarders_ st)) st).
Proof.
  unfold make_forwarder, mbind, M_bind, bindM, assert, deref, retM, crash,
    store, modify.
  destruct (bool_decide (from = to)) eqn:Hne; [discriminate|].
  apply bool_decide_eq_false in Hne. cbn [negb].
  destruct from as [pf|]; [|discriminate].
  destruct (heap st !! pf) as [f|] eqn:Hf; [|discriminate].
  destruct to as [pt|]; [|discriminate].
  destruct (heap st !! pt) as [t|] eqn:Ht; [|discriminate].
  destruct (is_forwarder_ f) eqn:Ef; [discriminate|].
  destruct (is_forwarder_ t) eqn:Et; [discriminate|].
  cbn [negb andb heap with_forwarders]. intros [= _ <-].
  exists pf, pt, f, t. repeat split; try done. congruence.
Qed.

Section Exact.

Variable resolve : Symbol -> elfcpp.Sym -> Object -> outcome Symbol.

Lemma resolve_at_exact to sym object u st st' :
  resolve_at resolve to sym object st = Ok (u, st') ->
  exists r r',
    heap st !! to = Some r /\ resolve r sym object = Ok r'
    /\ st' = with_heap (<[to := r']> (heap st)) st.
Proof.
  unfold resolve_at, mbind, M_bind, bindM, deref, store, modify, gold_exit,
    crash.
  destruct (heap st !! to) as [r|]; [|discriminate].
  destruct (resolve r sym object) as [r'| |] eqn:E; try discriminate.
  intros [= _ <-]. eauto.
Qed.

Lemma resolve_symbols_exact to from u st st' :
  resolve_symbols resolve to from st = Ok (u, st') ->
  exists r sym object r',
    heap st !! to = Some r /\ resolve r sym object = Ok r'
    /\ st' = with_heap (<[to := r']> (heap st)) st.
Proof.
  intros H. unfold resolve_symbols in H. inv_start H.
  apply resolve_at_exact in H as (r & r' & ? & ? & ?). eauto 10.
Qed.

End Exact.

(** Reads a run back step by step; the state after each step is kept
    as an explicit term over the state before. *)
Ltac inv_S H :=
  lazymatch type of H with
  | bindM _ _ _ = Ok _ =>
      let H1 := fresh "H" in
      apply bindM_Ok in H as (? & ? & H1 & H); cbv beta in H;
      inv_S H1; inv_S H
  | retM _ _ = Ok _ => apply retM_Ok in H as [? ?]; subst
  | assert _ _ = Ok _ => apply assert_inv in H as [? ?]; subst
  | get _ _ = Ok _ => apply get_inv in H as [? ?]; subst
  | modify _ _ = Ok _ => apply modify_Ok in H; subst
  | crash _ = Ok _ => discriminate H
  | gold_exit _ _ = Ok _ => discriminate H
  | deref _ _ = Ok _ =>
      apply deref_inv in H as (? & ? & ? & H); simplify_eq
  | table_insert_snull _ _ = Ok _ =>
      apply table_insert_snull_exact in H as [(? & ? & ?) | (? & ? & ?)];
      subst
  | table_second _ _ = Ok _ =>
      apply table_second_table in H as [? H]; subst
  | table_assign _ _ _ = Ok _ => unfold table_assign in H; inv_S H
  | table_erase _ _ = Ok _ => unfold table_erase in H; inv_S H
  | store _ _ _ = Ok _ => unfold store in H; inv_S H
  | update _ _ _ = Ok _ => apply update_exact in H as (? & ? & ?); subst
  | make_forwarder _ _ _ = Ok _ =>
      apply make_forwarder_exact in H
        as (? & ? & ? & ? & ? & ? & ? & ? & ? & ? & ? & ?); simplify_eq
  | resolve_at _ _ _ _ _ = Ok _ =>
      apply resolve_at_exact in H as (? & ? & ? & ? & ?); subst
  | resolve_symbols _ _ _ _ = Ok _ =>
      apply resolve_symbols_exact in H as (? & ? & ? & ? & ? & ? & ?); subst
  | new_symbol _ = Ok _ => apply new_symbol_exact in H as [? ?]; subst
  | namepool_add _ _ = Ok _ => apply namepool_add_exact in H as [? ?]; subst
  | fprintf_stderr _ _ = Ok _ => apply fprintf_stderr_exact in H; subst
  | (if ?b then _ else _) _ = Ok _ => destruct b eqn:?; inv_S H
  | (match ?x with _ => _ end) _ = Ok _ => destruct x eqn:?; inv_S H
  | _ => idtac
  end.

Ltac inv_exact H := unfold mbind, M_bind, mret, M_ret in H; inv_S H.

(** Computes the fields of a state written with the setters. *)
Ltac state_simpl :=
  cbn [size_ saw_undefined_ offset_ output_count_ table_ namepool_
       forwarders_ commons_ heap err
       with_size with_saw_undefined with_offset with_output_count with_table
       with_namepool with_forwarders with_commons with_heap with_err] in *.

(** Rewrites lookups in tables built by inserting and deleting at the
    two keys of a call. *)
Ltac table_lookups :=
  repeat match goal with
  | H : context [<[?k := _]> _ !! ?k] |- _ => rewrite lookup_insert_eq in H
  | |- context [<[?k := _]> _ !! ?k] => rewrite lookup_insert_eq
  | H : context [delete ?k _ !! ?k] |- _ => rewrite lookup_delete_eq in H
  | |- context [delete ?k _ !! ?k] => rewrite lookup_delete_eq
  | H : context [<[_ := _]> _ !! _] |- _ =>
      rewrite lookup_insert_ne in H by congruence
  | |- context [<[_ := _]> _ !! _] => rewrite lookup_insert_ne by congruence
  | H : context [delete _ _ !! _] |- _ =>
      rewrite lookup_delete_ne in H by congruence
  | |- context [delete _ _ !! _] => rewrite lookup_delete_ne by congruence
  end.

(** Turns the tests of a run into propositions. *)
Ltac bool_facts :=
  repeat match goal with
  | H : negb (bool_decide _) = false |- _ =>
      apply negb_false_iff, bool_decide_eq_true in H
  | H : negb (bool_decide _) = true |- _ =>
      apply negb_true_iff, bool_decide_eq_false in H
  | H : bool_decide _ = true |- _ => apply bool_decide_eq_true in H
  | H : bool_decide _ = false |- _ => apply bool_decide_eq_false in H
  | H : is_Some (_ !! _) |- _ => destruct H as [? H]
  end.

(** ** The string pool *)

Lemma index_of_app_Some s pool more :
  forall i key,
    Stringpool.index_of s pool i = Some key ->
    Stringpool.index_of s (pool ++ more) i = Some key.
Proof.
  induction pool as [|x rest IH]; intros i key H; cbn in *; [discriminate|].
  destruct (String.eqb s x); [exact H | eauto].
Qed.

Lemma find_add_other s s' pool key :
  Stringpool.find s pool = Some key ->
  Stringpool.find s (Stringpool.add s' pool).1 = Some key.
Proof.
  unfold Stringpool.add, Stringpool.find. intros H.
  destruct (Stringpool.index_of s' pool 1); cbn [fst]; [exact H|].
  now apply index_of_app_Some.
Qed.

(** ** What a call keeps *)

(** What grows along a run: entries with a record keep one, interned
    strings keep their key, the arena, the commons list and the messages
    are only added to, the forwarders map keeps its keys, the count of
    undefined symbols does not go down, and a size that was set stays. *)
Record grows (st st' : Symbol_table) : Prop := {
  grows_table :
    forall k a, table_ st !! k = Some (Some a) ->
      exists a', table_ st' !! k = Some (Some a');
  grows_namepool :
    forall s key, Stringpool.find s (namepool_ st) = Some key ->
      Stringpool.find s (namepool_ st') = Some key;
  grows_heap : (length (heap st) <= length (heap st'))%nat;
  grows_commons : commons_ st `prefix_of` commons_ st';
  grows_forwarders :
    forall a, is_Some (forwarders_ st !! a) -> is_Some (forwarders_ st' !! a);
  grows_saw_undefined : saw_undefined_ st <= saw_undefined_ st';
  grows_err : err st `prefix_of` err st';
  grows_size : size_ st <> 0 -> size_ st' = size_ st
}.

Lemma grows_refl st : grows st st.
Proof. split; eauto; try reflexivity. Qed.

Lemma grows_trans st1 st2 st3 : grows st1 st2 -> grows st2 st3 -> grows st1 st3.
Proof.
  intros [T1 N1 H1 C1 F1 U1 E1 S1] [T2 N2 H2 C2 F2 U2 E2 S2]. split.
  - intros k a Hk. destruct (T1 k a Hk) as [a' Ha']. eauto.
  - eauto.
  - lia.
  - etrans; eauto.
  - eauto.
  - lia.
  - etrans; eauto.
  - intros Hs. rewrite S2; rewrite S1; auto.
Qed.

(** Splits a lookup in a map built by insertions and deletions on the
    keys met. *)
Ltac map_goal :=
  repeat match goal with
  | |- context [<[?k := _]> _ !! ?k'] =>
      destruct (decide (k' = k)) as [->|?];
      [rewrite lookup_insert_eq | rewrite lookup_insert_ne by done]
  | |- context [delete ?k _ !! ?k'] =>
      destruct (decide (k' = k)) as [->|?];
      [rewrite lookup_delete_eq | rewrite lookup_delete_ne by done]
  end.

Ltac grows_fields :=
  split; state_simpl;
  [ intros ?k ?a ?Hk
  | auto
  | rewrite ?length_insert, ?length_app, ?length_insert; simpl; lia
  | try reflexivity; try (apply prefix_app_r; reflexivity)
  | intros ?a ?Ha
  | lia
  | try reflexivity; try (apply prefix_app_r; reflexivity)
  | auto ].

Section Effects.

Variable resolve : Symbol -> elfcpp.Sym -> Object -> outcome Symbol.

(** The table after [add_from_object]: the slot of NAME/VERSION, and for
    a default version the slot of NAME/NULL, hold the returned record,
    which is a record of the arena. *)
Lemma add_from_object_slots size big_endian object name name_key version
    version_key def sym ret st st' :
  add_from_object resolve size big_endian object name name_key version
    version_key def sym st = Ok (Some ret, st') ->
  table_ st' !! (name_key, version_key) = Some (Some ret)
  /\ (def = true -> table_ st' !! (name_key, 0) = Some (Some ret))
  /\ is_Some (heap st' !! ret).
Proof.
  intros H. unfold add_from_object, add_from_object_entry in H.
  inv_exact H.
  all: state_simpl; bool_facts; simplify_eq.
  all: split; [|split; [intros ?|eauto]].
  all: destruct (decide (version_key = 0)) as [-> | Hne]; try discriminate;
    table_lookups; simplify_eq; try done; try congruence.
Qed.

Lemma add_from_object_grows size big_endian object name name_key version
    version_key def sym r st st' :
  add_from_object resolve size big_endian object name name_key version
    version_key def sym st = Ok (r, st') ->
  grows st st'.
Proof.
  intros H. unfold add_from_object, add_from_object_entry in H.
  inv_exact H.
  all: state_simpl; bool_facts; simplify_eq.
  all: grows_fields.
  all: map_goal; table_lookups; eauto; try congruence.
Qed.

Lemma define_special_symbol_grows size big_endian target name only_if_ref
    r st st' :
  define_special_symbol size big_endian target name only_if_ref st
  = Ok (r, st') ->
  grows st st'.
Proof.
  intros H. unfold define_special_symbol in H.
  inv_exact H.
  all: state_simpl; bool_facts; simplify_eq.
  all: grows_fields.
  all: map_goal; table_lookups; eauto using find_add_other; try congruence.
Qed.

End Effects.

Lemma namepool_add_grows s key st st' :
  namepool_add s st = Ok (key, st') -> grows st st'.
Proof.
  intros H. apply namepool_add_exact in H as [_ ->].
  grows_fields; eauto using find_add_other.
Qed.

Lemma update_grows p f u st st' :
  update p f st = Ok (u, st') -> grows st st'.
Proof.
  intros H. apply update_exact in H as (s & Hs & ->).
  grows_fields; eauto.
Qed.

Lemma with_size_grows size st :
  size_ st = 0 -> grows st (with_size size st).
Proof. intros H. grows_fields; eauto. congruence. Qed.

(** ** Properties kept by every call *)

(** The target a linker definition is made for. *)
Definition defining_target (op : Operation) : option Target :=
  match op with
  | Define_in_output_data target _ _ _ _ _ _ _ _ _ _ => Some target
  | Define_in_output_segment target _ _ _ _ _ _ _ _ _ _ => Some target
  | Define_as_constant target _ _ _ _ _ _ _ _ => Some target
  | _ => None
  end.

(** What the three [init] functions of linker definitions share. *)
Definition linker_init (f : Symbol -> Symbol) : Prop :=
  forall s, is_forwarder_ (f s) = false /\ is_common (f s) = false.

Lemma linker_init_in_output_data name od value symsize type binding
    visibility nonvis offset_is_from_end :
  linker_init (init_in_output_data name od value symsize type binding
                 visibility nonvis offset_is_from_end).
Proof. intros s. split; reflexivity. Qed.

Lemma linker_init_in_output_segment name os value symsize type binding
    visibility nonvis offset_base :
  linker_init (init_in_output_segment name os value symsize type binding
                 visibility nonvis offset_base).
Proof. intros s. split; reflexivity. Qed.

Lemma linker_init_as_constant name value symsize type binding visibility
    nonvis :
  linker_init (init_as_constant name value symsize type binding visibility
                 nonvis).
Proof. intros s. split; reflexivity. Qed.

(** Reads back the binds, tests and assertions of a run and leaves the
    calls it is made of. *)
Ltac inv_B H :=
  lazymatch type of H with
  | bindM _ _ _ = Ok _ =>
      let H1 := fresh "H" in
      apply bindM_Ok in H as (? & ? & H1 & H); cbv beta in H;
      inv_B H1; inv_B H
  | retM _ _ = Ok _ => apply retM_Ok in H as [? ?]; subst
  | assert _ _ = Ok _ => apply assert_inv in H as [? ?]; subst
  | get _ _ = Ok _ => apply get_inv in H as [? ?]; subst
  | modify _ _ = Ok _ => apply modify_Ok in H; subst
  | crash _ = Ok _ => discriminate H
  | gold_exit _ _ = Ok _ => discriminate H
  | (if ?b then _ else _) _ = Ok _ => destruct b eqn:?; inv_B H
  | (match ?x with _ => _ end) _ = Ok _ => destruct x eqn:?; inv_B H
  | _ => idtac
  end.

Ltac inv_calls H := unfold mbind, M_bind, mret, M_ret in H; inv_B H.

Section Preserved.

Variable resolve : Symbol -> elfcpp.Sym -> Object -> outcome Symbol.

(** A relation between the state before and after, kept by the steps
    the calls are made of. *)
Variable P : Symbol_table -> Symbol_table -> Prop.

(** The targets linker definitions are accepted for. *)
Variable ok : Target -> Prop.

Hypothesis P_refl : forall st, P st st.
Hypothesis P_trans : forall st1 st2 st3, P st1 st2 -> P st2 st3 -> P st1 st3.
Hypothesis P_add_from_object :
  forall size big_endian object name name_key version version_key def sym r
    st st',
    add_from_object resolve size big_endian object name name_key version
      version_key def sym st = Ok (r, st') ->
    P st st'.
Hypothesis P_namepool_add :
  forall s key st st', namepool_add s st = Ok (key, st') -> P st st'.
Hypothesis P_with_size :
  forall size st, size_ st = 0 -> P st (with_size size st).
Hypothesis P_define_special_symbol :
  forall size big_endian target name only_if_ref r st st',
    ok target ->
    define_special_symbol size big_endian target name only_if_ref st
    = Ok (r, st') ->
    P st st'.
Hypothesis P_update :
  forall p f u st st',
    linker_init f -> update p f st = Ok (u, st') -> P st st'.

Ltac step_P :=
  repeat match goal with
  | H : add_from_object _ _ _ _ _ _ _ _ _ _ ?x = Ok (_, ?y) |- _ =>
      apply P_add_from_object in H
  | H : namepool_add _ ?x = Ok (_, ?y) |- _ => apply P_namepool_add in H
  end;
  eauto.

Lemma add_from_relobj_symbol_kept size big_endian relobj sym_names
    sym_name_size i sym r st st' :
  add_from_relobj_symbol resolve size big_endian relobj sym_names
    sym_name_size i sym st = Ok (r, st') ->
  P st st'.
Proof.
  intros H. unfold add_from_relobj_symbol in H. inv_calls H; step_P.
Qed.

Lemma add_from_relobj_loop_kept size big_endian relobj sym_names
    sym_name_size syms :
  forall i r st st',
    add_from_relobj_loop resolve size big_endian relobj sym_names
      sym_name_size i syms st = Ok (r, st') ->
    P st st'.
Proof.
  induction syms as [|sym rest IH]; intros i r st st' H;
    cbn [add_from_relobj_loop] in H; inv_calls H; [apply P_refl|].
  eapply P_trans; [eapply add_from_relobj_symbol_kept|eapply IH]; eassumption.
Qed.

Lemma add_from_relobj_kept size big_endian relobj syms sym_names
    sym_name_size r st st' :
  add_from_relobj resolve size big_endian relobj syms sym_names sym_name_size
    st = Ok (r, st') ->
  P st st'.
Proof.
  intros H. unfold add_from_relobj in H. inv_calls H.
  all: match goal with
       | H : add_from_relobj_loop _ _ _ _ _ _ _ _ _ = Ok _ |- _ =>
           apply add_from_relobj_loop_kept in H
       end.
  - eapply P_trans; [|eassumption]. apply P_with_size. lia.
  - assumption.
Qed.

Lemma add_from_dynobj_symbol_kept size big_endian dynobj sym_names
    sym_name_size versym version_map i sym r st st' :
  add_from_dynobj_symbol resolve size big_endian dynobj sym_names
    sym_name_size versym version_map i sym st = Ok (r, st') ->
  P st st'.
Proof.
  intros H. unfold add_from_dynobj_symbol in H. inv_calls H; step_P.
Qed.

Lemma add_from_dynobj_loop_kept size big_endian dynobj sym_names
    sym_name_size versym version_map syms :
  forall i r st st',
    add_from_dynobj_loop resolve size big_endian dynobj sym_names
      sym_name_size versym version_map i syms st = Ok (r, st') ->
    P st st'.
Proof.
  induction syms as [|sym rest IH]; intros i r st st' H;
    cbn [add_from_dynobj_loop] in H; inv_calls H; [apply P_refl|].
  eapply P_trans; [eapply add_from_dynobj_symbol_kept|eapply IH]; eassumption.
Qed.

Lemma add_from_dynobj_kept size big_endian dynobj syms sym_names
    sym_name_size versym versym_size version_map r st st' :
  add_from_dynobj resolve size big_endian dynobj syms sym_names sym_name_size
    versym versym_size version_map st = Ok (r, st') ->
  P st st'.
Proof.
  intros H. unfold add_from_dynobj in H. inv_calls H.
  all: match goal with
       | H : add_from_dynobj_loop _ _ _ _ _ _ _ _ _ _ _ = Ok _ |- _ =>
           apply add_from_dynobj_loop_kept in H
       end.
  - eapply P_trans; [|eassumption]. apply P_with_size. lia.
  - assumption.
Qed.

(** A linker definition: [define_special_symbol], then one of the
    [init] functions on the record it returns. *)
Lemma define_kept size big_endian target name only_if_ref f u st st' :
  ok target -> linker_init f ->
  (sym ← define_special_symbol size big_endian target name only_if_ref;
   match sym : option nat with
   | None => mret tt
   | Some sym => update sym f
   end) st = Ok (u, st') ->
  P st st'.
Proof.
  intros Hok Hf H. inv_calls H.
  all: match goal with
       | H : define_special_symbol _ _ _ _ _ _ = Ok _ |- _ =>
           apply (P_define_special_symbol _ _ _ _ _ _ _ _ Hok) in H
       end.
  - eapply P_trans; [eassumption|]. eapply P_update; eassumption.
  - assumption.
Qed.

Lemma call_kept op st st' :
  (forall t, defining_target op = Some t -> ok t) ->
  call resolve op st = Ok (tt, st') ->
  P st st'.
Proof.
  intros Hok H. destruct op; cbn [call] in H; cbn [defining_target] in Hok.
  - inv_calls H. step_P.
  - inv_calls H. eapply add_from_relobj_kept; eassumption.
  - eapply add_from_dynobj_kept; eassumption.
  - unfold define_in_output_data, dispatch_size in H. inv_calls H.
    all: eapply define_kept;
      [eauto | apply linker_init_in_output_data | eassumption].
  - unfold define_in_output_segment, dispatch_size in H. inv_calls H.
    all: eapply define_kept;
      [eauto | apply linker_init_in_output_segment | eassumption].
  - unfold define_as_constant, dispatch_size in H. inv_calls H.
    all: eapply define_kept;
      [eauto | apply linker_init_as_constant | eassumption].
Qed.

Lemma calls_kept ops :
  forall st st',
    (forall op t, op ∈ ops -> defining_target op = Some t -> ok t) ->
    calls resolve ops st = Ok (tt, st') ->
    P st st'.
Proof.
  induction ops as [|op rest IH]; intros st st' Hok H; cbn [calls] in H.
  - inv_calls H. apply P_refl.
  - inv_calls H.
    match goal with
    | H1 : call _ _ _ = Ok (?u, _) |- _ => destruct u
    end.
    eapply P_trans.
    + eapply call_kept; [|eassumption]. intros t. apply Hok. left.
    + eapply IH; [|eassumption]. intros op' t Hin. apply Hok. now right.
Qed.

End Preserved.

(** Every target is accepted. *)
Definition any_target (t : Target) : Prop := True.

Lemma calls_grows resolve ops st st' :
  calls resolve ops st = Ok (tt, st') -> grows st st'.
Proof.
  apply (calls_kept resolve grows any_target).
  - apply grows_refl.
  - apply grows_trans.
  - apply add_from_object_grows.
  - apply namepool_add_grows.
  - apply with_size_grows.
  - intros. eapply define_special_symbol_grows; eassumption.
  - intros. eapply update_grows; eassumption.
  - intros; exact I.
Qed.

(** ** Pointers held by the table *)

(** Every pointer the symbol table holds is a record of the arena: the
    values of the hash table that are not null, the commons list, and
    both sides of the forwarders map. *)
Record wf (st : Symbol_table) : Prop := {
  wf_table :
    forall k a, table_ st !! k = Some (Some a) ->
      (a < length (heap st))%nat;
  wf_commons : forall a, a ∈ commons_ st -> (a < length (heap st))%nat;
  wf_forwarders :
    forall a b, forwarders_ st !! a = Some b ->
      (a < length (heap st))%nat /\ (b < length (heap st))%nat /\ a <> b
}.

(** Splits the lookup of [H] in a map built by insertions and deletions
    on the keys met. *)
Ltac map_hyp H :=
  repeat match type of H with
  | context [<[?k := _]> _ !! ?k'] =>
      destruct (decide (k' = k)) as [->|?];
      [rewrite lookup_insert_eq in H | rewrite lookup_insert_ne in H by done]
  | context [delete ?k _ !! ?k'] =>
      destruct (decide (k' = k)) as [->|?];
      [rewrite lookup_delete_eq in H | rewrite lookup_delete_ne in H by done]
  end.

(** Turns the lookups in the arena into bounds. *)
Ltac heap_bounds :=
  repeat match goal with
  | H : _ !! _ = Some _ |- _ => apply lookup_lt_Some in H
  end;
  rewrite ?length_insert, ?length_app in *; cbn [length] in *.

Ltac wf_fields Hwf :=
  destruct Hwf as [?Ht ?Hc ?Hf];
  split; state_simpl;
  [ intros ?k ?a ?Hk | intros ?a ?Ha | intros ?a ?b ?Hab ].

Section Pointers.

Variable resolve : Symbol -> elfcpp.Sym -> Object -> outcome Symbol.

Lemma add_from_object_wf size big_endian object name name_key version
    version_key def sym r st st' :
  add_from_object resolve size big_endian object name name_key version
    version_key def sym st = Ok (r, st') ->
  wf st -> wf st'.
Proof.
  intros H Hwf. unfold add_from_object, add_from_object_entry in H.
  inv_exact H.
  all: state_simpl; bool_facts; simplify_eq.
  all: wf_fields Hwf.
  all: try match goal with
       | Hk : _ !! _ = Some (Some _) |- _ =>
           map_hyp Hk; simplify_eq; try apply Ht in Hk
       end.
  all: try match goal with
       | Ha : _ ∈ _ ++ [_] |- _ =>
           apply elem_of_app in Ha as [Ha | Ha%list_elem_of_singleton];
           simplify_eq
       end.
  all: try match goal with
       | Ha : _ ∈ commons_ _ |- _ => apply Hc in Ha
       end.
  all: try match goal with
       | Hab : _ !! _ = Some ?b |- _ /\ _ /\ _ =>
           map_hyp Hab; simplify_eq; try apply Hf in Hab
       end.
  all: heap_bounds; try lia.
Qed.

End Pointers.

Ltac wf_step :=
  try match goal with
  | Hk : _ !! _ = Some (Some _) |- _ =>
      map_hyp Hk; simplify_eq;
      try match goal with Ht : forall k a, _ |- _ => apply Ht in Hk end
  end;
  try match goal with
  | Ha : _ ∈ commons_ _, Hc : forall a, _ ∈ _ -> _ |- _ => apply Hc in Ha
  end;
  try match goal with
  | Hab : _ !! _ = Some ?b, Hf : forall a b, _ |- _ /\ _ /\ _ =>
      apply Hf in Hab
  end;
  heap_bounds; try lia.

Lemma define_special_symbol_wf size big_endian target name only_if_ref
    r st st' :
  define_special_symbol size big_endian target name only_if_ref st
  = Ok (r, st') ->
  wf st -> wf st'.
Proof.
  intros H Hwf. unfold define_special_symbol in H.
  inv_exact H.
  all: state_simpl; bool_facts; simplify_eq.
  all: wf_fields Hwf; wf_step.
Qed.

Lemma namepool_add_wf s key st st' :
  namepool_add s st = Ok (key, st') -> wf st -> wf st'.
Proof.
  intros H Hwf. apply namepool_add_exact in H as [_ ->].
  wf_fields Hwf; wf_step.
Qed.

Lemma update_wf p f u st st' :
  update p f st = Ok (u, st') -> wf st -> wf st'.
Proof.
  intros H Hwf. apply update_exact in H as (s & Hs & ->).
  wf_fields Hwf; wf_step.
Qed.

Lemma with_size_wf size st : wf st -> wf (with_size size st).
Proof. intros Hwf. wf_fields Hwf; wf_step. Qed.

Lemma Symbol_table_new_wf : wf Symbol_table_new.
Proof.
  split; cbn; intros *; try rewrite lookup_empty; try done.
  intros H. inversion H.
Qed.

Lemma calls_wf resolve ops st st' :
  calls resolve ops st = Ok (tt, st') -> wf st -> wf st'.
Proof.
  apply (calls_kept resolve (fun st st' => wf st -> wf st') any_target).
  - auto.
  - auto.
  - apply add_from_object_wf.
  - apply namepool_add_wf.
  - intros. now apply with_size_wf.
  - intros. eapply define_special_symbol_wf; eassumption.
  - intros. eapply update_wf; eassumption.
  - intros; exact I.
Qed.

(** ** Forwarders *)

(** Every record flagged as a forwarder has its entry in the forwarders
    map. *)
Definition forwarders_recorded (st : Symbol_table) : Prop :=
  forall a s,
    heap st !! a = Some s -> is_forwarder_ s = true ->
    is_Some (forwarders_ st !! a).

(** [resolve] does not flag the record it merges into as a forwarder. *)
Definition keeps_forwarder_flag
    (resolve : Symbol -> elfcpp.Sym -> Object -> outcome Symbol) : Prop :=
  forall r sym object r',
    resolve r sym object = Ok r' ->
    is_forwarder_ r' = true -> is_forwarder_ r = true.

(** Reads every lookup of the context in an arena built by stores and
    allocations, splitting on the index where it has to. *)
Ltac heap_cases :=
  repeat match goal with
  | H : <[?i := _]> ?l !! ?i = Some _ |- _ =>
      rewrite list_lookup_insert_eq in H
        by (rewrite ?length_insert, ?length_app; cbn [length];
            first [ lia | eapply lookup_lt_Some; eassumption ]);
      injection H as <-
  | H : <[?i := _]> _ !! ?j = Some _, Hn : ?j <> ?i |- _ =>
      rewrite list_lookup_insert_ne in H by congruence
  | H : <[?i := _]> _ !! ?j = Some _, Hn : ?i <> ?j |- _ =>
      rewrite list_lookup_insert_ne in H by congruence
  | H : (?h ++ [_]) !! length ?h = Some _ |- _ =>
      rewrite list_lookup_middle in H by reflexivity; injection H as <-
  | H : <[_ := _]> _ !! _ = Some _ |- _ =>
      apply list_lookup_insert_Some in H as [(? & ? & ?) | (? & H)]
  | H : (_ ++ [_]) !! _ = Some _ |- _ =>
      apply lookup_app_Some in H
        as [H | (? & (? & ?)%list_lookup_singleton_Some)]
  end.

Section Forwarders.

Variable resolve : Symbol -> elfcpp.Sym -> Object -> outcome Symbol.
Hypothesis resolve_keeps : keeps_forwarder_flag resolve.

Ltac flag_back :=
  repeat match goal with
  | Hr : resolve ?r _ _ = Ok ?r', Hf : is_forwarder_ ?r' = true |- _ =>
      apply (resolve_keeps _ _ _ _ Hr) in Hf; clear Hr
  end.

Lemma add_from_object_forwarders size big_endian object name name_key version
    version_key def sym r st st' :
  add_from_object resolve size big_endian object name name_key version
    version_key def sym st = Ok (r, st') ->
  forwarders_recorded st -> forwarders_recorded st'.
Proof.
  intros H Hinv. unfold add_from_object, add_from_object_entry in H.
  inv_exact H.
  all: state_simpl; bool_facts; simplify_eq.
  all: heap_cases.
  all: intros a s Ha Hs; state_simpl.
  all: heap_cases; simplify_eq.
  all: try (cbn in Hs; discriminate Hs).
  all: flag_back; try congruence.
  all: rewrite ?lookup_insert_eq; map_goal; eauto.
Qed.

Lemma define_special_symbol_forwarders size big_endian target name
    only_if_ref r st st' :
  define_special_symbol size big_endian target name only_if_ref st
  = Ok (r, st') ->
  forwarders_recorded st -> forwarders_recorded st'.
Proof.
  intros H Hinv. unfold define_special_symbol in H.
  inv_exact H.
  all: state_simpl; bool_facts; simplify_eq.
  all: intros a s Ha Hs; state_simpl.
  all: heap_cases; simplify_eq.
  all: try (cbn in Hs; discriminate Hs).
  all: eauto.
Qed.

Lemma update_forwarders p f u st st' :
  linker_init f -> update p f st = Ok (u, st') ->
  forwarders_recorded st -> forwarders_recorded st'.
Proof.
  intros Hf H Hinv. apply update_exact in H as (s0 & Hs0 & ->).
  intros a s Ha Hs; state_simpl. heap_cases; simplify_eq; eauto.
  destruct (Hf s0). congruence.
Qed.

Lemma calls_forwarders ops st st' :
  calls resolve ops st = Ok (tt, st') ->
  forwarders_recorded st -> forwarders_recorded st'.
Proof.
  apply (calls_kept resolve
           (fun st st' => forwarders_recorded st -> forwarders_recorded st')
           any_target).
  - auto.
  - auto.
  - apply add_from_object_forwarders.
  - intros s key st1 st2 H. apply namepool_add_exact in H as [_ ->]. auto.
  - auto.
  - intros. eapply define_special_symbol_forwarders; eassumption.
  - intros. eapply update_forwarders; eassumption.
  - intros; exact I.
Qed.

End Forwarders.

Lemma Resolver_keeps_forwarder_flag : keeps_forwarder_flag Resolver.resolve.
Proof.
  intros r sym object r' H. unfold Resolver.resolve in H.
  destruct (Resolver.action _ _ _ _); simplify_eq; auto.
Qed.

(** ** Null entries *)

(** No entry of the hash table holds a null pointer. *)
Definition no_null_entry (st : Symbol_table) : Prop :=
  forall k, table_ st !! k <> Some None.

(** A target whose factory, when it has one, makes every symbol. *)
Definition never_declines (t : Target) : Prop :=
  has_make_symbol t = true -> make_symbol t = true.

Section Null_entries.

Variable resolve : Symbol -> elfcpp.Sym -> Object -> outcome Symbol.

Lemma add_from_object_no_null size big_endian object name name_key version
    version_key def sym r st st' :
  add_from_object resolve size big_endian object name name_key version
    version_key def sym st = Ok (r, st') ->
  no_null_entry st -> no_null_entry st'.
Proof.
  intros H Hinv. unfold add_from_object, add_from_object_entry in H.
  inv_exact H.
  all: state_simpl; bool_facts; simplify_eq.
  all: intros k Hk; state_simpl.
  all: map_hyp Hk; simplify_eq; table_lookups; try (eapply Hinv; eassumption).
Qed.

End Null_entries.

Lemma define_special_symbol_no_null size big_endian target name only_if_ref
    r st st' :
  never_declines target ->
  define_special_symbol size big_endian target name only_if_ref st
  = Ok (r, st') ->
  no_null_entry st -> no_null_entry st'.
Proof.
  intros Hok H Hinv. unfold define_special_symbol in H.
  inv_exact H.
  all: state_simpl; bool_facts; simplify_eq.
  all: intros k Hk; state_simpl.
  all: map_hyp Hk; simplify_eq; table_lookups; try (eapply Hinv; eassumption).
  match goal with
  | H : negb (has_make_symbol _) = false |- _ =>
      apply negb_false_iff in H; apply Hok in H; congruence
  end.
Qed.

Lemma calls_no_null resolve ops st st' :
  (forall op t,
     op ∈ ops -> defining_target op = Some t -> never_declines t) ->
  calls resolve ops st = Ok (tt, st') ->
  no_null_entry st -> no_null_entry st'.
Proof.
  intros Hok.
  apply (calls_kept resolve
           (fun st st' => no_null_entry st -> no_null_entry st')
           never_declines); auto.
  - apply add_from_object_no_null.
  - intros s key st1 st2 H. apply namepool_add_exact in H as [_ ->]. auto.
  - intros. eapply define_special_symbol_no_null; eassumption.
  - intros p f u st1 st2 _ H. apply update_exact in H as (s0 & Hs0 & ->).
    auto.
Qed.

(** ** Finalize after the calls *)

(** Every entry points to a record of the arena. *)
Definition entries_in_arena (entries : list (Z * Z * option nat))
    (h : list Symbol) : Prop :=
  forall k p, (k, p) ∈ entries -> exists a, p = Some a /\ (a < length h)%nat.

Lemma sized_finalize_loop_no_Crash size entries :
  forall count off pool st,
    entries_in_arena entries (heap st) ->
    sized_finalize_loop size entries count off pool st <> Crash.
Proof.
  induction entries as [|[k p] rest IH]; intros count off pool st Hv.
  - discriminate.
  - rewrite sized_finalize_loop_cons.
    destruct (Hv k p) as (a & -> & Ha); [left|].
    apply lookup_lt_is_Some in Ha as [sym Hsym]. rewrite Hsym.
    assert (Hrest : entries_in_arena rest (heap st))
      by (intros k' p' Hin; apply (Hv k' p'); now right).
    pose proof (sized_finalize_value_not_Crash size sym) as Hnc.
    destruct (sized_finalize_value size sym) as [[v|] | d |];
      try discriminate; try congruence.
    + apply IH. intros k' p' Hin. cbn [heap with_heap].
      rewrite length_insert. now apply (Hrest k' p').
    + now apply IH.
Qed.

Lemma table_entries_in_arena st :
  wf st -> no_null_entry st ->
  entries_in_arena (map_to_list (table_ st)) (heap st).
Proof.
  intros [Ht _ _] Hn k p Hin. apply elem_of_map_to_list in Hin.
  destruct p as [a|]; [|now apply Hn in Hin].
  exists a. split; [reflexivity|]. eapply Ht; eassumption.
Qed.

Lemma Symbol_table_new_no_null : no_null_entry Symbol_table_new.
Proof. intros k. cbn. now rewrite lookup_empty. Qed.

(** ** The writer after finalize *)

Lemma written_like_finalized size s s' :
  alike s s' ->
  match sized_finalize_value size s, sized_write_globals_shndx s' with
  | Ok (Some _), Ok (Some _) => True
  | Ok None, Ok None => True
  | Exit d, Exit d' => d = d'
  | _, _ => False
  end.
Proof.
  intros H. pose proof (alike_source _ _ H) as Hs.
  pose proof (alike_name _ _ H) as Hn.
  unfold sized_finalize_value, sized_write_globals_shndx.
  rewrite <- Hs, <- Hn.
  destruct (source_ s) as [object shnum| | |]; try exact I.
  - destruct (_ && _); [reflexivity|].
    destruct (is_dynamic object); [exact I|].
    destruct (shnum =? elfcpp.SHN_UNDEF); [exact I|].
    destruct (shnum =? elfcpp.SHN_ABS); [exact I|]. cbn [orb].
    destruct (output_section object shnum) as [[os secoff]|]; exact I.
Qed.

Lemma add_keeps s pool x : x ∈ pool -> x ∈ (Stringpool.add s pool).1.
Proof.
  unfold Stringpool.add. destruct (Stringpool.find s pool); cbn [fst]; [auto|].
  intros H. apply elem_of_app. now left.
Qed.

Lemma index_of_Some_elem s pool :
  forall i key, Stringpool.index_of s pool i = Some key -> s ∈ pool.
Proof.
  induction pool as [|x rest IH]; intros i key H; cbn in H; [discriminate|].
  destruct (String.eqb s x) eqn:E.
  - apply String.eqb_eq in E as ->. left.
  - right. eauto.
Qed.

Lemma add_holds s pool : s ∈ (Stringpool.add s pool).1.
Proof.
  unfold Stringpool.add, Stringpool.find.
  destruct (Stringpool.index_of s pool 1) eqn:E; cbn [fst].
  - eapply index_of_Some_elem; eassumption.
  - apply elem_of_app. right. left.
Qed.

Section Written.

Variable get_offset : list string -> string -> outcome Z.

Lemma write_after_finalize_loop size entries :
  forall count off pool st count1 off1 pool1 st1 sympool st2,
    sized_finalize_loop size entries count off pool st
    = Ok (count1, off1, pool1, st1) ->
    heaps_alike (heap st) (heap st2) ->
    (forall s, s ∈ pool1 -> exists o, get_offset sympool s = Ok o) ->
    (forall s, s ∈ pool -> s ∈ pool1)
    /\ exists psyms,
         sized_write_globals_loop get_offset sympool entries st2 = Ok psyms
         /\ count1 = count + Z.of_nat (length psyms)
         /\ off1 = off + Z.of_nat (length psyms) * elfcpp.sym_size size.
Proof.
  induction entries as [|[k p] rest IH];
    intros count off pool st count1 off1 pool1 st1 sympool st2.
  - intros [= <- <- <- <-] _ _. split; [auto|].
    exists []. cbn. repeat split; lia.
  - rewrite sized_finalize_loop_cons.
    destruct p as [a|]; [|discriminate].
    destruct (heap st !! a) as [sym|] eqn:Ha; [|discriminate].
    intros H Halike Hoff.
    destruct (heaps_alike_lookup _ _ _ _ Halike Ha) as (sym2 & Ha2 & Hsym).
    pose proof (written_like_finalized size _ _ Hsym) as Hw.
    cbn [sized_write_globals_loop deref]. rewrite Ha2.
    destruct (sized_finalize_value size sym) as [[v|] | d |];
      try discriminate;
      destruct (sized_write_globals_shndx sym2) as [[shndx|] | d' |];
      try contradiction.
    + assert (Halike' :
        heaps_alike (heap (with_heap (<[a := set_value v sym]> (heap st)) st))
          (heap st2)).
      { cbn [heap with_heap]. eapply heaps_alike_trans; [|exact Halike].
        now apply heaps_alike_store. }
      destruct (IH _ _ _ _ _ _ _ _ sympool st2 H Halike' Hoff)
        as (Hpool & psyms & Hloop & -> & ->).
      split; [intros s Hs; apply Hpool; now apply add_keeps|].
      destruct (Hoff (name_ sym2)) as [o Ho].
      { rewrite <- (alike_name _ _ Hsym). apply Hpool, add_holds. }
      rewrite Ho, Hloop. eexists. split; [reflexivity|].
      cbn [length]. split; lia.
    + destruct (IH _ _ _ _ _ _ _ _ sympool st2 H Halike Hoff)
        as (Hpool & psyms & Hloop & -> & ->).
      split; [exact Hpool|]. exists psyms. auto.
Qed.

End Written.

(** ** After any sequence of calls *)

Lemma lookup_table name version st p :
  lookup name version st = Some p ->
  exists name_key version_key,
    Stringpool.find name (namepool_ st) = Some name_key
    /\ match version with
       | None => version_key = 0
       | Some v => Stringpool.find v (namepool_ st) = Some version_key
       end
    /\ table_ st !! (name_key, version_key) = Some (Some p).
Proof.
  unfold lookup. intros H.
  destruct (Stringpool.find name (namepool_ st)) as [name_key|];
    [|discriminate].
  destruct version as [v|].
  - destruct (Stringpool.find v (namepool_ st)) as [version_key|];
      [|discriminate].
    destruct (table_ st !! (name_key, version_key)) as [q|] eqn:E;
      [|discriminate].
    subst q. eauto.
  - destruct (table_ st !! (name_key, 0)) as [q|] eqn:E; [|discriminate].
    subst q. eauto.
Qed.

Lemma table_lookup name version st name_key version_key p :
  Stringpool.find name (namepool_ st) = Some name_key ->
  match version with
  | None => version_key = 0
  | Some v => Stringpool.find v (namepool_ st) = Some version_key
  end ->
  table_ st !! (name_key, version_key) = Some p ->
  lookup name version st = p.
Proof.
  unfold lookup. intros -> Hv Ht.
  destruct version as [v|]; [rewrite Hv | subst version_key]; now rewrite Ht.
Qed.

(** X1: a pointer that [lookup] returns after any sequence of calls on a new
    symbol table is a record of the arena, and so is every pointer of
    the commons list. *)
Theorem lookup_returns_a_record
    (resolve : Symbol -> elfcpp.Sym -> Object -> outcome Symbol)
    (ops : list Operation) (st : Symbol_table) :
  calls resolve ops Symbol_table_new = Ok (tt, st) ->
  (forall name version p,
     lookup name version st = Some p -> is_Some (heap st !! p))
  /\ (forall a, a ∈ commons_ st -> is_Some (heap st !! a)).
Proof.
  intros H. apply calls_wf in H; [|apply Symbol_table_new_wf].
  destruct H as [Ht Hc _]. split.
  - intros name version p Hl.
    apply lookup_table in Hl as (nk & vk & _ & _ & Hp).
    apply lookup_lt_is_Some. eapply Ht; eassumption.
  - intros a Ha. apply lookup_lt_is_Some. now apply Hc.
Qed.

Lemma lookup_returns_a_record_witness :
  exists st,
    calls Resolver.resolve Examples.two_default_versions Symbol_table_new
    = Ok (tt, st)
    /\ lookup "foo" (Some "V1"%string) st = Some 0%nat
    /\ (forall name version p,
          lookup name version st = Some p -> is_Some (heap st !! p))
    /\ (forall a, a ∈ commons_ st -> is_Some (heap st !! a)).
Proof.
  eexists. split; [vm_compute; reflexivity|].
  split; [vm_compute; reflexivity|].
  apply (lookup_returns_a_record Resolver.resolve
           Examples.two_default_versions).
  vm_compute. reflexivity.
Defined.

Lemma grows_lookup st st' name version p :
  grows st st' ->
  lookup name version st = Some p ->
  exists p', lookup name version st' = Some p'.
Proof.
  intros [Ht Hn _ _ _ _ _ _] Hl.
  apply lookup_table in Hl as (nk & vk & Hname & Hversion & Hp).
  destruct (Ht _ _ Hp) as [p' Hp']. exists p'.
  apply (table_lookup name version st' nk vk); auto.
  destruct version; auto.
Qed.

(** X2: a name and version that [lookup] finds is found after any further
    sequence of calls: no call takes a symbol out of the table. *)
Theorem lookup_stays_found
    (resolve : Symbol -> elfcpp.Sym -> Object -> outcome Symbol)
    (ops : list Operation) (st st' : Symbol_table)
    (name : string) (version : option string) (p : nat) :
  calls resolve ops st = Ok (tt, st') ->
  lookup name version st = Some p ->
  exists p', lookup name version st' = Some p'.
Proof.
  intros H Hl. apply calls_grows in H. eapply grows_lookup; eassumption.
Qed.

Lemma lookup_stays_found_witness :
  exists st st',
    calls Resolver.resolve
      [Add_from_relobj 32 false (Examples.relobj "a.o")
         [Examples.sym elfcpp.SHN_UNDEF elfcpp.STB_GLOBAL 0 0]
         (Examples.strtab "foo") 5]
      Symbol_table_new = Ok (tt, st)
    /\ calls Resolver.resolve
         [Define_as_constant (Examples.target32 false) "foo" 7 0
            elfcpp.STT_OBJECT elfcpp.STB_GLOBAL elfcpp.STV_DEFAULT 0 true]
         st = Ok (tt, st')
    /\ lookup "foo" None st = Some 0%nat
    /\ exists p', lookup "foo" None st' = Some p'.
Proof.
  do 2 eexists. split; [vm_compute; reflexivity|].
  match goal with
  | |- calls _ ?ops ?st0 = _ /\ _ =>
      split; [vm_compute; reflexivity|];
      split; [vm_compute; reflexivity|];
      eapply (lookup_stays_found Resolver.resolve ops st0 _ "foo" None
                0%nat)
  end; vm_compute; reflexivity.
Defined.

(** X3: the calls only add: the commons list and the printed messages grow
    at the end, the arena and the count of undefined symbols do not
    shrink, and a string keeps the key the name pool gave it. *)
Theorem calls_only_add
    (resolve : Symbol -> elfcpp.Sym -> Object -> outcome Symbol)
    (ops : list Operation) (st st' : Symbol_table) :
  calls resolve ops st = Ok (tt, st') ->
  commons_ st `prefix_of` commons_ st'
  /\ err st `prefix_of` err st'
  /\ (length (heap st) <= length (heap st'))%nat
  /\ saw_undefined_ st <= saw_undefined_ st'
  /\ (forall s key,
        Stringpool.find s (namepool_ st) = Some key ->
        Stringpool.find s (namepool_ st') = Some key).
Proof.
  intros H. apply calls_grows in H. destruct H. auto.
Qed.

Lemma calls_only_add_witness :
  exists st st',
    calls Resolver.resolve
      [Add_from_relobj 32 false (Examples.relobj "a.o")
         [Examples.sym elfcpp.SHN_COMMON elfcpp.STB_GLOBAL 4 8]
         (Examples.strtab "buf") 5]
      Symbol_table_new = Ok (tt, st)
    /\ calls Resolver.resolve
         [Add_from_relobj 32 false (Examples.relobj "b.o")
            [Examples.sym elfcpp.SHN_COMMON elfcpp.STB_GLOBAL 4 16]
            (Examples.strtab "tab") 5]
         st = Ok (tt, st')
    /\ commons_ st = [0%nat] /\ commons_ st' = [0%nat; 1%nat]
    /\ commons_ st `prefix_of` commons_ st'
    /\ err st `prefix_of` err st'
    /\ (length (heap st) <= length (heap st'))%nat
    /\ saw_undefined_ st <= saw_undefined_ st'
    /\ (forall s key,
          Stringpool.find s (namepool_ st) = Some key ->
          Stringpool.find s (namepool_ st') = Some key).
Proof.
  do 2 eexists. split; [vm_compute; reflexivity|].
  match goal with
  | |- calls _ ?ops ?st0 = _ /\ _ =>
      split; [vm_compute; reflexivity|];
      split; [vm_compute; reflexivity|];
      split; [vm_compute; reflexivity|];
      eapply (calls_only_add Resolver.resolve ops st0)
  end; vm_compute; reflexivity.
Defined.

(** X4: after any sequence of calls on a new symbol table, every record
    flagged as a forwarder can be resolved: [resolve_forwards] returns
    another record of the arena. [resolve] is any function that does not
    set the flag itself. *)
Theorem resolve_forwards_succeeds
    (resolve : Symbol -> elfcpp.Sym -> Object -> outcome Symbol)
    (ops : list Operation) (st : Symbol_table) (a : nat) (s : Symbol) :
  keeps_forwarder_flag resolve ->
  calls resolve ops Symbol_table_new = Ok (tt, st) ->
  heap st !! a = Some s -> is_forwarder_ s = true ->
  exists b,
    resolve_forwards (Some a) st = Ok (Some b)
    /\ b <> a /\ is_Some (heap st !! b).
Proof.
  intros Hr H Ha Hs.
  pose proof (calls_wf _ _ _ _ H Symbol_table_new_wf) as [_ _ Hf].
  assert (Hinv : forwarders_recorded st).
  { eapply calls_forwarders; [exact Hr | exact H |].
    intros a' s'. cbn. now rewrite lookup_nil. }
  destruct (Hinv a s Ha Hs) as [b Hb]. exists b.
  destruct (Hf a b Hb) as (_ & Hlt & Hne).
  unfold resolve_forwards, deref. rewrite Ha, Hs, Hb.
  split; [reflexivity|]. split; [congruence|].
  now apply lookup_lt_is_Some.
Qed.

Lemma resolve_forwards_succeeds_witness :
  exists st s,
    calls Resolver.resolve Examples.two_default_versions Symbol_table_new
    = Ok (tt, st)
    /\ heap st !! 0%nat = Some s
    /\ exists b,
         resolve_forwards (Some 0%nat) st = Ok (Some b)
         /\ b <> 0%nat /\ is_Some (heap st !! b).
Proof.
  do 2 eexists. split; [vm_compute; reflexivity|].
  match goal with
  | |- heap ?st0 !! _ = _ /\ _ =>
      split; [vm_compute; reflexivity|];
      eapply (resolve_forwards_succeeds Resolver.resolve
                Examples.two_default_versions st0 0%nat)
  end.
  - exact Resolver_keeps_forwarder_flag.
  - vm_compute. reflexivity.
  - vm_compute. reflexivity.
  - vm_compute. reflexivity.
Defined.

(** ** The word size of a link *)

(** The word sizes a call brings: the size an object is read with and
    the size of its target, or the size of the target of a linker
    definition. *)
Definition word_sizes (op : Operation) : list Z :=
  match op with
  | Add_from_object _ _ _ _ _ _ _ _ _ => []
  | Add_from_relobj size _ relobj _ _ _ => [size; get_size (target relobj)]
  | Add_from_dynobj size _ dynobj _ _ _ _ _ _ =>
      [size; get_size (target dynobj)]
  | Define_in_output_data target _ _ _ _ _ _ _ _ _ _ => [get_size target]
  | Define_in_output_segment target _ _ _ _ _ _ _ _ _ _ => [get_size target]
  | Define_as_constant target _ _ _ _ _ _ _ _ => [get_size target]
  end.

Lemma call_word_sizes resolve op st st' :
  call resolve op st = Ok (tt, st') ->
  forall sz, sz ∈ word_sizes op -> sz <> 0 -> sz = size_ st'.
Proof.
  intros H sz Hin Hsz.
  assert (Hg : forall st1, size_ st1 = sz -> grows st1 st' -> sz = size_ st').
  { intros st1 H1 [_ _ _ _ _ _ _ Hs]. rewrite Hs; congruence. }
  destruct op; cbn [call word_sizes] in *.
  - inversion Hin.
  - unfold add_from_relobj in H. inv_calls H.
    all: match goal with
         | H : add_from_relobj_loop _ _ _ _ _ _ _ _ _ = Ok _ |- _ =>
             apply (add_from_relobj_loop_kept resolve grows grows_refl
                      grows_trans (add_from_object_grows resolve)
                      namepool_add_grows) in H
         end.
    all: state_simpl.
    all: match goal with
         | H : _ || _ = false |- _ =>
             apply orb_false_iff in H as [?%negb_false_iff ?%negb_false_iff]
         end.
    all: eapply Hg; [|eassumption]; state_simpl.
    all: repeat match goal with
         | H : _ ∈ _ :: _ |- _ => apply elem_of_cons in H as [->|H]
         | H : _ ∈ [] |- _ => inversion H
         end; lia.
  - unfold add_from_dynobj in H. inv_calls H.
    all: match goal with
         | H : add_from_dynobj_loop _ _ _ _ _ _ _ _ _ _ _ = Ok _ |- _ =>
             apply (add_from_dynobj_loop_kept resolve grows grows_refl
                      grows_trans (add_from_object_grows resolve)
                      namepool_add_grows) in H
         end.
    all: state_simpl.
    all: match goal with
         | H : _ || _ = false |- _ =>
             apply orb_false_iff in H as [?%negb_false_iff ?%negb_false_iff]
         end.
    all: eapply Hg; [|eassumption]; state_simpl.
    all: repeat match goal with
         | H : _ ∈ _ :: _ |- _ => apply elem_of_cons in H as [->|H]
         | H : _ ∈ [] |- _ => inversion H
         end; lia.
  - unfold define_in_output_data, dispatch_size in H. inv_calls H.
    all: apply (define_kept grows any_target grows_trans
                  (fun size be t name oir r st st' _ =>
                     define_special_symbol_grows size be t name oir r st st')
                  (fun p f u st st' _ => update_grows p f u st st')) in H;
      [|exact I | apply linker_init_in_output_data].
    all: apply list_elem_of_singleton in Hin; apply (Hg st); [lia | exact H].
  - unfold define_in_output_segment, dispatch_size in H. inv_calls H.
    all: apply (define_kept grows any_target grows_trans
                  (fun size be t name oir r st st' _ =>
                     define_special_symbol_grows size be t name oir r st st')
                  (fun p f u st st' _ => update_grows p f u st st')) in H;
      [|exact I | apply linker_init_in_output_segment].
    all: apply list_elem_of_singleton in Hin; apply (Hg st); [lia | exact H].
  - unfold define_as_constant, dispatch_size in H. inv_calls H.
    all: apply (define_kept grows any_target grows_trans
                  (fun size be t name oir r st st' _ =>
                     define_special_symbol_grows size be t name oir r st st')
                  (fun p f u st st' _ => update_grows p f u st st')) in H;
      [|exact I | apply linker_init_as_constant].
    all: apply list_elem_of_singleton in Hin; apply (Hg st); [lia | exact H].
Qed.

(** X5: the objects of a link share one word size: after any sequence of
    calls on a new symbol table, each size an object was read with, the
    size of its target, and the size of the target of each linker
    definition is the size the table recorded (sizes are 32 or 64, never
    0). *)
Theorem one_word_size
    (resolve : Symbol -> elfcpp.Sym -> Object -> outcome Symbol)
    (ops : list Operation) (st st' : Symbol_table)
    (op : Operation) (sz : Z) :
  calls resolve ops st = Ok (tt, st') ->
  op ∈ ops -> sz ∈ word_sizes op -> sz <> 0 ->
  sz = size_ st'.
Proof.
  revert st. induction ops as [|op0 rest IH]; intros st H Hop Hin Hsz.
  - inversion Hop.
  - cbn [calls] in H. inv_calls H.
    match goal with
    | H1 : call _ _ _ = Ok (?u, _) |- _ => destruct u
    end.
    apply elem_of_cons in Hop as [-> | Hop].
    + match goal with
      | H1 : call _ _ _ = Ok _, H2 : calls _ _ _ = Ok _ |- _ =>
          apply call_word_sizes with (sz := sz) in H1; [|assumption..];
          apply calls_grows in H2; destruct H2 as [_ _ _ _ _ _ _ Hs]
      end.
      rewrite Hs; congruence.
    + eapply IH; eassumption.
Qed.

Lemma one_word_size_witness :
  exists st,
    calls Resolver.resolve
      [Add_from_relobj 32 false (Examples.relobj "a.o")
         [Examples.sym 3 elfcpp.STB_GLOBAL 0 4] (Examples.strtab "foo") 5;
       Define_as_constant (Examples.target32 false) "end" 0 0
         elfcpp.STT_OBJECT elfcpp.STB_GLOBAL elfcpp.STV_DEFAULT 0 false]
      Symbol_table_new = Ok (tt, st)
    /\ 32 = size_ st.
Proof.
  eexists. split; [vm_compute; reflexivity|].
  eapply (one_word_size Resolver.resolve
            [Add_from_relobj 32 false (Examples.relobj "a.o")
               [Examples.sym 3 elfcpp.STB_GLOBAL 0 4] (Examples.strtab "foo")
               5;
             Define_as_constant (Examples.target32 false) "end" 0 0
               elfcpp.STT_OBJECT elfcpp.STB_GLOBAL elfcpp.STV_DEFAULT 0 false]
            Symbol_table_new _
            (Define_as_constant (Examples.target32 false) "end" 0 0
               elfcpp.STT_OBJECT elfcpp.STB_GLOBAL elfcpp.STV_DEFAULT 0 false)
            32).
  - vm_compute. reflexivity.
  - right. left.
  - left.
  - discriminate.
Defined.

(** ** Finalize and the writer *)

(** X6: after any sequence of calls on a new symbol table in which no target
    factory declined a linker definition, [sized_finalize] does not
    abort: it returns, or it ends the link with a message. *)
Theorem sized_finalize_does_not_abort
    (resolve : Symbol -> elfcpp.Sym -> Object -> outcome Symbol)
    (ops : list Operation) (st : Symbol_table) (size off : Z)
    (pool : list string) :
  (forall op t,
     op ∈ ops -> defining_target op = Some t -> never_declines t) ->
  calls resolve ops Symbol_table_new = Ok (tt, st) ->
  sized_finalize size off pool st <> Crash.
Proof.
  intros Hok H. rewrite sized_finalize_unfold.
  pose proof (calls_wf _ _ _ _ H Symbol_table_new_wf) as Hwf.
  pose proof (calls_no_null _ _ _ _ Hok H Symbol_table_new_no_null) as Hn.
  pose proof (table_entries_in_arena _ Hwf Hn) as Hv.
  pose proof (sized_finalize_loop_no_Crash size (map_to_list (table_ st)) 0
                (align_address off (Z.shiftr size 3)) pool
                (with_offset (align_address off (Z.shiftr size 3)) st) Hv)
    as Hc.
  destruct (sized_finalize_loop _ _ _ _ _ _) as [[[[c o] q] s]| |];
    congruence.
Qed.

Lemma sized_finalize_does_not_abort_witness :
  exists st,
    calls Resolver.resolve Examples.two_default_versions Symbol_table_new
    = Ok (tt, st)
    /\ sized_finalize 32 0 [] st <> Crash.
Proof.
  eexists. split; [vm_compute; reflexivity|].
  eapply (sized_finalize_does_not_abort Resolver.resolve
            Examples.two_default_versions).
  - intros op t Hin Ht.
    repeat (apply elem_of_cons in Hin as [-> | Hin]; [discriminate Ht|]).
    inversion Hin.
  - vm_compute. reflexivity.
Defined.

Lemma sized_finalize_loop_count size entries :
  forall count off pool st count1 off1 pool1 st1,
    sized_finalize_loop size entries count off pool st
    = Ok (count1, off1, pool1, st1) ->
    count <= count1 <= count + Z.of_nat (length entries)
    /\ off1 = off + (count1 - count) * elfcpp.sym_size size
    /\ (forall s, s ∈ pool -> s ∈ pool1).
Proof.
  induction entries as [|[k p] rest IH];
    intros count off pool st count1 off1 pool1 st1.
  - intros [= <- <- <- <-]. cbn. repeat split; auto; lia.
  - rewrite sized_finalize_loop_cons.
    destruct p as [a|]; [|discriminate].
    destruct (heap st !! a) as [sym|]; [|discriminate].
    destruct (sized_finalize_value size sym) as [[v|] | d |];
      try discriminate; intros H; apply IH in H as (Hc & -> & Hp);
      cbn [length]; repeat split; try lia.
    + intros s Hs. apply Hp. now apply add_keeps.
    + exact Hp.
Qed.

(** X7: what a completed [sized_finalize] reports: [offset_] is the start
    offset aligned to the word size in bytes, the returned offset lies
    [output_count_] symbol entries further, [output_count_] is at most
    the number of entries of the table, and the output pool keeps the
    strings it had. *)
Theorem sized_finalize_offsets (size off : Z) (pool : list string)
    (st : Symbol_table) (off1 : Z) (pool1 : list string)
    (st1 : Symbol_table) :
  sized_finalize size off pool st = Ok (off1, pool1, st1) ->
  offset_ st1 = align_address off (Z.shiftr size 3)
  /\ off1 = offset_ st1 + output_count_ st1 * elfcpp.sym_size size
  /\ 0 <= output_count_ st1 <= Z.of_nat (length (map_to_list (table_ st)))
  /\ (forall s, s ∈ pool -> s ∈ pool1).
Proof.
  rewrite sized_finalize_unfold.
  destruct (sized_finalize_loop _ _ _ _ _ _) as [[[[c o] q] s]| |] eqn:E;
    try discriminate.
  intros [= <- <- <-].
  pose proof (sized_finalize_loop_frame _ _ _ _ _ _ _ _ E) as [Hs _].
  apply sized_finalize_loop_count in E as (Hc & -> & Hp).
  rewrite Hs. cbn. repeat split; auto; lia.
Qed.

Lemma sized_finalize_offsets_witness :
  exists st off1 pool1 st1,
    calls Resolver.resolve Examples.absolute_and_text Symbol_table_new
    = Ok (tt, st)
    /\ sized_finalize 32 6 [] st = Ok (off1, pool1, st1)
    /\ off1 = 40
    /\ offset_ st1 = align_address 6 (Z.shiftr 32 3)
    /\ off1 = offset_ st1 + output_count_ st1 * elfcpp.sym_size 32
    /\ 0 <= output_count_ st1 <= Z.of_nat (length (map_to_list (table_ st)))
    /\ (forall s, s ∈ [] -> s ∈ pool1).
Proof.
  do 4 eexists. split; [vm_compute; reflexivity|].
  match goal with
  | |- sized_finalize _ _ _ ?st0 = _ /\ _ =>
      split; [vm_compute; reflexivity|];
      split; [reflexivity|];
      eapply (sized_finalize_offsets 32 6 [] st0)
  end.
  vm_compute. reflexivity.
Defined.

(** X8: a completed [sized_finalize] changes [offset_], [output_count_] and
    [value_] fields only: the table, the name pool, the forwarders, the
    commons list and the other fields of every record are as before. *)
Theorem sized_finalize_sets_values_only (size off : Z) (pool : list string)
    (st : Symbol_table) (off1 : Z) (pool1 : list string)
    (st1 : Symbol_table) :
  sized_finalize size off pool st = Ok (off1, pool1, st1) ->
  st1 = with_output_count (output_count_ st1)
          (with_heap (heap st1) (with_offset (offset_ st1) st))
  /\ set_value 0 <$> heap st1 = set_value 0 <$> heap st.
Proof.
  rewrite sized_finalize_unfold.
  destruct (sized_finalize_loop _ _ _ _ _ _) as [[[[c o] q] s]| |] eqn:E;
    try discriminate.
  intros [= <- <- <-].
  apply sized_finalize_loop_frame in E as [Hs Ha].
  split; [|exact Ha]. rewrite Hs. reflexivity.
Qed.

Lemma sized_finalize_sets_values_only_witness :
  exists st off1 pool1 st1,
    calls Resolver.resolve Examples.absolute_and_text Symbol_table_new
    = Ok (tt, st)
    /\ sized_finalize 32 0 [] st = Ok (off1, pool1, st1)
    /\ value_ <$> heap st = [7; 0x10]
    /\ value_ <$> heap st1 = [7; 0x1030]
    /\ st1 = with_output_count (output_count_ st1)
               (with_heap (heap st1) (with_offset (offset_ st1) st))
    /\ set_value 0 <$> heap st1 = set_value 0 <$> heap st.
Proof.
  do 4 eexists. split; [vm_compute; reflexivity|].
  match goal with
  | |- sized_finalize _ _ _ ?st0 = _ /\ _ =>
      split; [vm_compute; reflexivity|];
      split; [vm_compute; reflexivity|];
      split; [vm_compute; reflexivity|];
      eapply (sized_finalize_sets_values_only 32 0 [] st0)
  end.
  vm_compute. reflexivity.
Defined.

(** X9: the writer after finalize: when [sized_finalize] has completed and
    the output pool it filled gives an offset for each of its strings,
    [write_globals] completes on the resulting table; it asks for the
    view that starts at [offset_] and ends at the offset finalize
    returned, and writes exactly [output_count_] symbols into it. *)
Theorem write_globals_fills_the_view
    (get_offset : list string -> string -> outcome Z)
    (size off : Z) (pool : list string) (st : Symbol_table) (off1 : Z)
    (pool1 : list string) (st1 : Symbol_table) (target : Target) :
  size_ st = size -> size = 32 \/ size = 64 ->
  sized_finalize size off pool st = Ok (off1, pool1, st1) ->
  (forall s, s ∈ pool1 -> exists o, get_offset pool1 s = Ok o) ->
  exists psyms,
    write_globals get_offset target pool1 st1
    = Ok (offset_ st1, off1 - offset_ st1, psyms)
    /\ Z.of_nat (length psyms) = output_count_ st1.
Proof.
  intros Hsize Hsz. rewrite sized_finalize_unfold.
  destruct (sized_finalize_loop _ _ _ _ _ _) as [[[[c o] q] s]| |] eqn:E;
    try discriminate.
  intros [= <- <- <-] Hoff.
  pose proof (sized_finalize_loop_frame _ _ _ _ _ _ _ _ E) as [Hs Ha].
  destruct (write_after_finalize_loop get_offset size _ _ _ _ _ _ _ _ _
              q (with_output_count c s) E) as (_ & psyms & Hw & -> & ->).
  { cbn [heap with_offset with_output_count]. now apply heaps_alike_sym. }
  { exact Hoff. }
  exists psyms.
  assert (Ht : table_ (with_output_count (0 + Z.of_nat (length psyms)) s)
               = table_ st) by (rewrite Hs; reflexivity).
  assert (Hz : size_ (with_output_count (0 + Z.of_nat (length psyms)) s)
               = size) by (rewrite Hs; exact Hsize).
  assert (Ho : offset_ (with_output_count (0 + Z.of_nat (length psyms)) s)
               = align_address off (Z.shiftr size 3))
    by (rewrite Hs; reflexivity).
  unfold write_globals, sized_write_globals. rewrite Hz, Ht, Ho.
  cbn [with_offset table_] in Hw. rewrite Hw.
  cbn [output_count_ with_output_count].
  split; [|lia].
  destruct Hsz as [-> | ->]; cbn; destruct (is_big_endian target);
    do 3 f_equal; lia.
Qed.

Lemma write_globals_fills_the_view_witness :
  exists st off1 pool1 st1,
    calls Resolver.resolve Examples.absolute_and_text Symbol_table_new
    = Ok (tt, st)
    /\ sized_finalize 32 0 [] st = Ok (off1, pool1, st1)
    /\ output_count_ st1 = 2
    /\ exists psyms,
         write_globals Examples.get_offset (Examples.target32 false) pool1
           st1
         = Ok (offset_ st1, off1 - offset_ st1, psyms)
         /\ Z.of_nat (length psyms) = output_count_ st1.
Proof.
  do 4 eexists. split; [vm_compute; reflexivity|].
  match goal with
  | |- sized_finalize _ _ _ ?st0 = _ /\ _ =>
      split; [vm_compute; reflexivity|];
      split; [vm_compute; reflexivity|];
      eapply (write_globals_fills_the_view Examples.get_offset 32 0 [] st0)
  end.
  - vm_compute. reflexivity.
  - left. reflexivity.
  - vm_compute. reflexivity.
  - intros s Hs.
    repeat (apply elem_of_cons in Hs as [-> | Hs];
            [eexists; vm_compute; reflexivity|]).
    inversion Hs.
Defined.

(** ** Forwarding one record to another *)

(** X10: after [make_forwarder(from, to)], [resolve_forwards(from)] is [to];
    the hash table is untouched, and so are the other records and the
    other forwarders. *)
Theorem make_forwarder_then_resolve_forwards (from to : option nat)
    (st st' : Symbol_table) :
  make_forwarder from to st = Ok (tt, st') ->
  resolve_forwards from st' = Ok to
  /\ table_ st' = table_ st
  /\ forall other,
       Some other <> from ->
       heap st' !! other = heap st !! other
       /\ forwarders_ st' !! other = forwarders_ st !! other.
Proof.
  intros H.
  apply make_forwarder_exact in H
    as (pf & pt & f & t & -> & -> & Hne & Hf & Ht & Hff & Hft & ->).
  split; [|split; [reflexivity|]].
  - unfold resolve_forwards, deref. cbn [heap forwarders_ with_heap
      with_forwarders].
    rewrite list_lookup_insert_eq by (eapply lookup_lt_Some; eassumption).
    cbn. now rewrite lookup_insert_eq.
  - intros other Hother. cbn [heap forwarders_ with_heap with_forwarders].
    split.
    + apply list_lookup_insert_ne. congruence.
    + apply lookup_insert_ne. congruence.
Qed.

Lemma make_forwarder_then_resolve_forwards_witness :
  exists st st',
    calls Resolver.resolve
      [Add_from_relobj 32 false (Examples.relobj "a.o")
         [Examples.sym_at 1 3 elfcpp.STB_GLOBAL 0 4;
          Examples.sym_at 5 3 elfcpp.STB_GLOBAL 8 4]
         (String zero
            ("foo" ++ String zero ("bar" ++ String zero EmptyString)))
         9]
      Symbol_table_new = Ok (tt, st)
    /\ make_forwarder (Some 0%nat) (Some 1%nat) st = Ok (tt, st')
    /\ resolve_forwards (Some 0%nat) st' = Ok (Some 1%nat)
    /\ table_ st' = table_ st
    /\ forall other,
         Some other <> Some 0%nat ->
         heap st' !! other = heap st !! other
         /\ forwarders_ st' !! other = forwarders_ st !! other.
Proof.
  do 2 eexists. split; [vm_compute; reflexivity|].
  match goal with
  | |- make_forwarder _ _ ?st0 = _ /\ _ =>
      split; [vm_compute; reflexivity|];
      eapply (make_forwarder_then_resolve_forwards (Some 0%nat) (Some 1%nat)
                st0)
  end.
  vm_compute. reflexivity.
Defined.

(** X11: a record is forwarded once: after [make_forwarder(from, to)] both a
    second forwarding of [from] and a forwarding to [from] fail the
    assertion of [make_forwarder]. *)
Theorem make_forwarder_once (from to other : option nat)
    (st st' : Symbol_table) :
  make_forwarder from to st = Ok (tt, st') ->
  make_forwarder from other st' = Crash
  /\ make_forwarder other from st' = Crash.
Proof.
  intros H.
  apply make_forwarder_exact in H
    as (pf & pt & f & t & -> & -> & Hne & Hf & Ht & Hff & Hft & ->).
  assert (Hpf : heap
                  (with_heap (<[pf := set_forwarder f]> (heap st))
                     (with_forwarders (<[pf := pt]> (forwarders_ st)) st))
                !! pf = Some (set_forwarder f)).
  { cbn [heap with_heap].
    apply list_lookup_insert_eq. eapply lookup_lt_Some; eassumption. }
  unfold make_forwarder, mbind, M_bind, bindM, assert, deref, retM, crash.
  split.
  - destruct (bool_decide (Some pf = other)); [reflexivity|]. cbn [negb].
    rewrite Hpf. destruct other as [po|]; [|reflexivity].
    destruct (_ !! po); reflexivity.
  - destruct (bool_decide (other = Some pf)); [reflexivity|]. cbn [negb].
    destruct other as [po|]; [|reflexivity].
    destruct (_ !! po) as [o|]; [|reflexivity].
    rewrite Hpf. cbn. now rewrite andb_false_r.
Qed.

Lemma make_forwarder_once_witness :
  exists st st',
    calls Resolver.resolve
      [Add_from_relobj 32 false (Examples.relobj "a.o")
         [Examples.sym_at 1 3 elfcpp.STB_GLOBAL 0 4;
          Examples.sym_at 5 3 elfcpp.STB_GLOBAL 8 4]
         (String zero
            ("foo" ++ String zero ("bar" ++ String zero EmptyString)))
         9]
      Symbol_table_new = Ok (tt, st)
    /\ make_forwarder (Some 0%nat) (Some 1%nat) st = Ok (tt, st')
    /\ make_forwarder (Some 0%nat) (Some 1%nat) st' = Crash
    /\ make_forwarder (Some 1%nat) (Some 0%nat) st' = Crash.
Proof.
  do 2 eexists. split; [vm_compute; reflexivity|].
  match goal with
  | |- make_forwarder _ _ ?st0 = _ /\ _ =>
      split; [vm_compute; reflexivity|];
      eapply (make_forwarder_once (Some 0%nat) (Some 1%nat) (Some 1%nat) st0)
  end.
  vm_compute. reflexivity.
Defined.

(** ** One call of add_from_object *)

Section One_call.

Variable resolve : Symbol -> elfcpp.Sym -> Object -> outcome Symbol.

Lemma add_from_object_rest size big_endian object name name_key version
    version_key def sym r st st' :
  add_from_object resolve size big_endian object name name_key version
    version_key def sym st = Ok (r, st') ->
  (forall k,
     k <> (name_key, version_key) -> (def = true -> k <> (name_key, 0)) ->
     table_ st' !! k = table_ st !! k)
  /\ namepool_ st' = namepool_ st
  /\ size_ st' = size_ st
  /\ offset_ st' = offset_ st
  /\ output_count_ st' = output_count_ st
  /\ err st' = err st
  /\ (length (heap st) <= length (heap st') <= S (length (heap st)))%nat
  /\ (is_Some (table_ st !! (name_key, version_key)) ->
      length (heap st') = length (heap st)).
Proof.
  intros H. unfold add_from_object, add_from_object_entry in H.
  inv_exact H.
  all: state_simpl; bool_facts; simplify_eq.
  all: split; [intros k Hk1 Hk2; try specialize (Hk2 eq_refl);
               table_lookups; reflexivity|].
  all: repeat (split; [reflexivity|]).
  all: rewrite ?length_insert, ?length_app, ?length_insert; cbn [length].
  all: split; [lia|]; intros [? ?]; try congruence; lia.
Qed.

End One_call.

Lemma add_from_object_lookup resolve size big_endian object name name_key
    version version_key def sym ret st st' :
  Stringpool.find name (namepool_ st) = Some name_key ->
  match version with
  | None => version_key = 0
  | Some v => Stringpool.find v (namepool_ st) = Some version_key
  end ->
  add_from_object resolve size big_endian object name name_key version
    version_key def sym st = Ok (Some ret, st') ->
  lookup name version st' = Some ret
  /\ (def = true -> lookup name None st' = Some ret)
  /\ is_Some (heap st' !! ret).
Proof.
  intros Hname Hversion H.
  pose proof (add_from_object_rest _ _ _ _ _ _ _ _ _ _ _ _ _ H)
    as (_ & Hpool & _).
  apply add_from_object_slots in H as (H1 & H0 & Hret).
  rewrite <- Hpool in Hname, Hversion.
  split; [|split; [intros Hdef|exact Hret]].
  - eapply table_lookup; eassumption.
  - eapply (table_lookup name None); eauto.
Qed.

(** X12: [add_from_object] and [lookup]: when the keys passed are those of
    NAME and VERSION in the name pool, the record returned is the one
    [lookup] finds afterwards under NAME/VERSION, and for a default
    version under NAME/NULL as well; it is a record of the arena. *)
Theorem add_from_object_then_lookup
    (resolve : Symbol -> elfcpp.Sym -> Object -> outcome Symbol)
    (size : Z) (big_endian : bool) (object : Object) (name : string)
    (name_key : Z) (version : option string) (version_key : Z) (def : bool)
    (sym : elfcpp.Sym) (ret : nat) (st st' : Symbol_table) :
  Stringpool.find name (namepool_ st) = Some name_key ->
  match version with
  | None => version_key = 0
  | Some v => Stringpool.find v (namepool_ st) = Some version_key
  end ->
  add_from_object resolve size big_endian object name name_key version
    version_key def sym st = Ok (Some ret, st') ->
  lookup name version st' = Some ret
  /\ (def = true -> lookup name None st' = Some ret)
  /\ is_Some (heap st' !! ret).
Proof. apply add_from_object_lookup. Qed.

Lemma add_from_object_then_lookup_witness :
  exists st',
    add_from_object Resolver.resolve 32 false (Examples.dynobj "lib.so")
      "foo" 1 (Some "V1"%string) 2 true (Examples.sym 5 elfcpp.STB_GLOBAL 16 4)
      (with_namepool ["foo"%string; "V1"%string] Symbol_table_new)
    = Ok (Some 0%nat, st')
    /\ lookup "foo" (Some "V1"%string) st' = Some 0%nat
    /\ (true = true -> lookup "foo" None st' = Some 0%nat)
    /\ is_Some (heap st' !! 0%nat).
Proof.
  eexists. split; [vm_compute; reflexivity|].
  eapply (add_from_object_then_lookup Resolver.resolve 32 false
            (Examples.dynobj "lib.so") "foo" 1 (Some "V1"%string) 2 true
            (Examples.sym 5 elfcpp.STB_GLOBAL 16 4) 0%nat
            (with_namepool ["foo"%string; "V1"%string] Symbol_table_new)).
  - vm_compute. reflexivity.
  - vm_compute. reflexivity.
  - vm_compute. reflexivity.
Defined.

(** X13: what [add_from_object] leaves alone: every entry of the hash table
    other than NAME/VERSION and, for a default version, NAME/NULL; the
    name pool, the size, the offset, the output count and the messages.
    It allocates at most one record, and none when NAME/VERSION already
    had an entry. *)
Theorem add_from_object_frame
    (resolve : Symbol -> elfcpp.Sym -> Object -> outcome Symbol)
    (size : Z) (big_endian : bool) (object : Object) (name : string)
    (name_key : Z) (version : option string) (version_key : Z) (def : bool)
    (sym : elfcpp.Sym) (r : option nat) (st st' : Symbol_table) :
  add_from_object resolve size big_endian object name name_key version
    version_key def sym st = Ok (r, st') ->
  (forall k,
     k <> (name_key, version_key) -> (def = true -> k <> (name_key, 0)) ->
     table_ st' !! k = table_ st !! k)
  /\ namepool_ st' = namepool_ st
  /\ size_ st' = size_ st
  /\ offset_ st' = offset_ st
  /\ output_count_ st' = output_count_ st
  /\ err st' = err st
  /\ (length (heap st) <= length (heap st') <= S (length (heap st)))%nat
  /\ (is_Some (table_ st !! (name_key, version_key)) ->
      length (heap st') = length (heap st)).
Proof. apply add_from_object_rest. Qed.

Lemma add_from_object_frame_witness :
  exists st',
    add_from_object Resolver.resolve 32 false (Examples.relobj "a.o")
      "foo" 1 None 0 false (Examples.sym 5 elfcpp.STB_GLOBAL 16 4)
      Symbol_table_new
    = Ok (Some 0%nat, st')
    /\ (forall k,
          k <> (1, 0) -> (false = true -> k <> (1, 0)) ->
          table_ st' !! k = table_ Symbol_table_new !! k)
    /\ namepool_ st' = namepool_ Symbol_table_new
    /\ size_ st' = size_ Symbol_table_new
    /\ offset_ st' = offset_ Symbol_table_new
    /\ output_count_ st' = output_count_ Symbol_table_new
    /\ err st' = err Symbol_table_new
    /\ (length (heap Symbol_table_new) <= length (heap st')
        <= S (length (heap Symbol_table_new)))%nat
    /\ (is_Some (table_ Symbol_table_new !! (1, 0)) ->
        length (heap st') = length (heap Symbol_table_new)).
Proof.
  eexists. split; [vm_compute; reflexivity|].
  eapply (add_from_object_frame Resolver.resolve 32 false
            (Examples.relobj "a.o") "foo" 1 None 0 false
            (Examples.sym 5 elfcpp.STB_GLOBAL 16 4) (Some 0%nat)
            Symbol_table_new).
  vm_compute. reflexivity.
Defined.

(** ** A symbol of a relocatable object *)

Lemma strchr_app name c rest :
  strchr name c = None ->
  strchr (String.append name (String c rest)) c = Some (name, String c rest).
Proof.
  induction name as [|x name IH].
  - intros _. change (String.append EmptyString (String c rest))
      with (String c rest).
    cbn [strchr]. now rewrite Ascii.eqb_refl.
  - change (String.append (String x name) (String c rest))
      with (String x (String.append name (String c rest))).
    cbn [strchr]. destruct (Ascii.eqb x c); [discriminate|].
    destruct (strchr name c) as [[? ?]|]; [discriminate|].
    intros _. now rewrite IH.
Qed.

Lemma version_not_default (v : string) :
  (forall rest, v <> String "@" rest) ->
  match v with
  | String "@" rest => (true, rest)
  | _ => (false, v)
  end = (false, v).
Proof.
  intros H. destruct v as [|c r]; [reflexivity|].
  destruct c as [[] [] [] [] [] [] [] []]; try reflexivity.
  now destruct (H r).
Qed.

(** How a symbol of NAME, VERSION and default flag is spelled in the
    string table of a relocatable object: [name], [name@version] or
    [name@@version]. *)
Definition spelled (name : string) (version : option string) (def : bool)
    : string :=
  match version with
  | None => name
  | Some v =>
      String.append name
        (String "@" (if def then String "@" v else v))
  end.

(** X14: a symbol of a relocatable object is found under its name: when the
    string at its name offset spells NAME, VERSION and the default flag,
    the pointer [add_from_relobj] stores for it is what [lookup] returns
    for NAME/VERSION afterwards, and for NAME/NULL too when the version
    is the default one. *)
Theorem add_from_relobj_symbol_is_found
    (resolve : Symbol -> elfcpp.Sym -> Object -> outcome Symbol)
    (size : Z) (big_endian : bool) (relobj : Object) (sym_names : string)
    (sym_name_size i : Z) (sym : elfcpp.Sym)
    (name : string) (version : option string) (def : bool)
    (ret : nat) (st st' : Symbol_table) :
  name_at sym_names (elfcpp.st_name sym) = spelled name version def ->
  strchr name "@" = None ->
  (version = None -> def = false) ->
  (forall v rest, version = Some v -> def = false -> v <> String "@" rest) ->
  add_from_relobj_symbol resolve size big_endian relobj sym_names
    sym_name_size i sym st = Ok (Some ret, st') ->
  lookup name version st' = Some ret
  /\ (def = true -> lookup name None st' = Some ret).
Proof.
  intros Hspell Hname Hnone Hver H. unfold add_from_relobj_symbol in H.
  destruct (sym_name_size <=? elfcpp.st_name sym); [discriminate|].
  set (psym := if (_ : bool) then _ else _) in H. clearbody psym.
  rewrite Hspell in H. destruct version as [v|]; cbn [spelled] in H.
  - rewrite (strchr_app _ _ _ Hname) in H. cbn [string_drop] in H.
    assert (Hparse :
      match (if def then String "@" v else v) with
      | String "@" rest => (true, rest)
      | _ => (false, if def then String "@" v else v)
      end = (def, v)).
    { destruct def; [reflexivity|]. apply version_not_default.
      intros rest. now apply Hver. }
    rewrite Hparse in H. inv_calls H.
    repeat match goal with
    | H : namepool_add _ _ = Ok _ |- _ =>
        apply namepool_add_exact in H as [? ?]; subst
    end.
    match goal with
    | H : add_from_object _ _ _ _ _ _ _ _ _ _ _ = Ok _ |- _ =>
        apply add_from_object_lookup in H as (H1 & H2 & _)
    end; auto.
    + cbn [namepool_ with_namepool]. apply find_add_other, find_after_add.
    + cbn [namepool_ with_namepool]. apply find_after_add.
  - rewrite Hname in H. inv_calls H.
    match goal with
    | H : namepool_add _ _ = Ok _ |- _ =>
        apply namepool_add_exact in H as [? ?]; subst
    end.
    match goal with
    | H : add_from_object _ _ _ _ _ _ _ _ _ _ _ = Ok _ |- _ =>
        apply add_from_object_lookup in H as (H1 & H2 & _)
    end; auto.
    cbn [namepool_ with_namepool]. apply find_after_add.
Qed.

Lemma add_from_relobj_symbol_is_found_witness :
  exists st',
    add_from_relobj_symbol Resolver.resolve 32 false (Examples.relobj "a.o")
      (Examples.strtab "foo@@V1") 9 0 (Examples.sym 3 elfcpp.STB_GLOBAL 0 4)
      Symbol_table_new = Ok (Some 0%nat, st')
    /\ lookup "foo" (Some "V1"%string) st' = Some 0%nat
    /\ (true = true -> lookup "foo" None st' = Some 0%nat).
Proof.
  eexists. split; [vm_compute; reflexivity|].
  eapply (add_from_relobj_symbol_is_found Resolver.resolve 32 false
            (Examples.relobj "a.o") (Examples.strtab "foo@@V1") 9 0
            (Examples.sym 3 elfcpp.STB_GLOBAL 0 4) "foo" (Some "V1"%string)
            true 0%nat Symbol_table_new).
  - vm_compute. reflexivity.
  - vm_compute. reflexivity.
  - discriminate.
  - discriminate.
  - vm_compute. reflexivity.
Defined.

(** ** What the ingestion of an object has checked *)

Section Checked.

Variable resolve : Symbol -> elfcpp.Sym -> Object -> outcome Symbol.

Lemma add_from_relobj_loop_checked size big_endian relobj sym_names
    sym_name_size syms :
  forall i ptrs st st',
    add_from_relobj_loop resolve size big_endian relobj sym_names
      sym_name_size i syms st = Ok (ptrs, st') ->
    length ptrs = length syms
    /\ forall sym, sym ∈ syms -> elfcpp.st_name sym < sym_name_size.
Proof.
  induction syms as [|sym0 rest IH]; intros i ptrs st st' H;
    cbn [add_from_relobj_loop] in H; inv_calls H.
  - split; [reflexivity|]. intros sym Hin. inversion Hin.
  - match goal with
    | H : add_from_relobj_loop _ _ _ _ _ _ _ _ _ = Ok _ |- _ =>
        apply IH in H as [Hlen Hall]
    end.
    split; [cbn; now rewrite Hlen|].
    intros sym Hin. apply elem_of_cons in Hin as [-> | Hin]; [|auto].
    match goal with
    | H : add_from_relobj_symbol _ _ _ _ _ _ _ _ _ = Ok _ |- _ =>
        unfold add_from_relobj_symbol in H;
        destruct (sym_name_size <=? elfcpp.st_name sym0) eqn:E;
        [discriminate H|]
    end.
    lia.
Qed.

(** The version index of the symbol of index [i]: the 16-bit entry of
    the version section without its hidden bit. *)
Definition versym_index (big_endian : bool) (versym : list Z) (i : Z) : Z :=
  Z.land (readval16 big_endian versym (Z.to_nat (2 * i)))
    elfcpp.VERSYM_VERSION.

(** What [add_from_dynobj] has checked of the symbol of index [i] when
    it goes on: its name offset, and that a version index other than
    local and global has a name in the version map. *)
Definition dynobj_symbol_checked (big_endian : bool) (sym_name_size : Z)
    (versym : option (list Z)) (version_map : list (option string))
    (i : Z) (sym : elfcpp.Sym) : Prop :=
  elfcpp.st_bind sym <> elfcpp.STB_LOCAL ->
  elfcpp.st_name sym < sym_name_size
  /\ forall vs,
       versym = Some vs ->
       versym_index big_endian vs i = elfcpp.VER_NDX_LOCAL
       \/ versym_index big_endian vs i = elfcpp.VER_NDX_GLOBAL
       \/ exists version,
            version_map !! Z.to_nat (versym_index big_endian vs i)
            = Some (Some version).

Lemma add_from_dynobj_symbol_checked size big_endian dynobj sym_names
    sym_name_size versym version_map i sym u st st' :
  add_from_dynobj_symbol resolve size big_endian dynobj sym_names
    sym_name_size versym version_map i sym st = Ok (u, st') ->
  dynobj_symbol_checked big_endian sym_name_size versym version_map i sym.
Proof.
  intros H Hlocal. unfold add_from_dynobj_symbol in H.
  destruct (elfcpp.st_bind sym =? elfcpp.STB_LOCAL) eqn:El; [lia|].
  destruct (sym_name_size <=? elfcpp.st_name sym) eqn:En; [discriminate|].
  split; [lia|]. intros vs ->. fold (versym_index big_endian vs i) in H.
  destruct (versym_index big_endian vs i =? elfcpp.VER_NDX_LOCAL) eqn:E0;
    [left; lia|].
  right. inv_calls H.
  - left. lia.
  - right. eauto.
  - right. eauto.
Qed.

Lemma add_from_dynobj_loop_checked size big_endian dynobj sym_names
    sym_name_size versym version_map syms :
  forall i u st st',
    add_from_dynobj_loop resolve size big_endian dynobj sym_names
      sym_name_size versym version_map i syms st = Ok (u, st') ->
    forall j sym,
      syms !! j = Some sym ->
      dynobj_symbol_checked big_endian sym_name_size versym version_map
        (i + Z.of_nat j) sym.
Proof.
  induction syms as [|sym0 rest IH]; intros i u st st' H j sym Hj;
    cbn [add_from_dynobj_loop] in H; [discriminate Hj|].
  inv_calls H. destruct j as [|j].
  - injection Hj as ->. rewrite Z.add_0_r.
    eapply add_from_dynobj_symbol_checked; eassumption.
  - change (rest !! j = Some sym) in Hj.
    match goal with
    | H : add_from_dynobj_loop _ _ _ _ _ _ _ _ _ _ _ = Ok _ |- _ =>
        apply IH with (j := j) (sym := sym) in H; [|assumption]
    end.
    now replace (i + Z.of_nat (S j)) with (i + 1 + Z.of_nat j) by lia.
Qed.

End Checked.

(** X15: when [add_from_relobj] returns, it has stored one pointer per input
    symbol, and the name offset of every input symbol lies within the
    string table. *)
Theorem add_from_relobj_fills_sympointers
    (resolve : Symbol -> elfcpp.Sym -> Object -> outcome Symbol)
    (size : Z) (big_endian : bool) (relobj : Object)
    (syms : list elfcpp.Sym) (sym_names : string) (sym_name_size : Z)
    (ptrs : list (option nat)) (st st' : Symbol_table) :
  add_from_relobj resolve size big_endian relobj syms sym_names sym_name_size
    st = Ok (ptrs, st') ->
  length ptrs = length syms
  /\ forall sym, sym ∈ syms -> elfcpp.st_name sym < sym_name_size.
Proof.
  intros H. unfold add_from_relobj in H. inv_calls H.
  all: eapply add_from_relobj_loop_checked; eassumption.
Qed.

Lemma add_from_relobj_fills_sympointers_witness :
  exists ptrs st',
    add_from_relobj Resolver.resolve 32 false (Examples.relobj "a.o")
      [Examples.sym_at 1 3 elfcpp.STB_GLOBAL 0 4;
       Examples.sym_at 5 3 elfcpp.STB_GLOBAL 8 4]
      (String zero
         ("foo" ++ String zero ("bar" ++ String zero EmptyString)))
      9 Symbol_table_new = Ok (ptrs, st')
    /\ ptrs = [Some 0%nat; Some 1%nat]
    /\ length ptrs
       = length [Examples.sym_at 1 3 elfcpp.STB_GLOBAL 0 4;
                 Examples.sym_at 5 3 elfcpp.STB_GLOBAL 8 4]
    /\ forall sym,
         sym ∈ [Examples.sym_at 1 3 elfcpp.STB_GLOBAL 0 4;
                Examples.sym_at 5 3 elfcpp.STB_GLOBAL 8 4] ->
         elfcpp.st_name sym < 9.
Proof.
  do 2 eexists. split; [vm_compute; reflexivity|].
  split; [reflexivity|].
  eapply (add_from_relobj_fills_sympointers Resolver.resolve 32 false
            (Examples.relobj "a.o")
            [Examples.sym_at 1 3 elfcpp.STB_GLOBAL 0 4;
             Examples.sym_at 5 3 elfcpp.STB_GLOBAL 8 4]
            (String zero
               ("foo" ++ String zero ("bar" ++ String zero EmptyString)))
            9 _ Symbol_table_new).
  vm_compute. reflexivity.
Defined.

(** X16: when [add_from_dynobj] returns, the version section, if there is
    one, has an entry for every input symbol; and of every input symbol
    that is not local, the name offset lies within the string table and
    the version index is local, global, or has a name in the version
    map. *)
Theorem add_from_dynobj_has_checked
    (resolve : Symbol -> elfcpp.Sym -> Object -> outcome Symbol)
    (size : Z) (big_endian : bool) (dynobj : Object)
    (syms : list elfcpp.Sym) (sym_names : string) (sym_name_size : Z)
    (versym : option (list Z)) (versym_size : Z)
    (version_map : list (option string)) (st st' : Symbol_table) :
  add_from_dynobj resolve size big_endian dynobj syms sym_names sym_name_size
    versym versym_size version_map st = Ok (tt, st') ->
  (versym <> None -> Z.of_nat (length syms) <= versym_size / 2)
  /\ forall j sym,
       syms !! j = Some sym ->
       dynobj_symbol_checked big_endian sym_name_size versym version_map
         (Z.of_nat j) sym.
Proof.
  intros H. unfold add_from_dynobj in H. inv_calls H.
  all: match goal with
       | H : _ && _ = false |- _ => apply andb_false_iff in H
       end.
  all: split;
    [ intros Hv;
      match goal with
      | H : _ \/ _ |- _ =>
          destruct H as [H%bool_decide_eq_false | H]; [contradiction | lia]
      end
    | intros j sym Hj;
      match goal with
      | H : add_from_dynobj_loop _ _ _ _ _ _ _ _ _ _ _ = Ok _ |- _ =>
          apply add_from_dynobj_loop_checked with (j := j) (sym := sym) in H;
          [exact H | exact Hj]
      end ].
Qed.

Lemma add_from_dynobj_has_checked_witness :
  exists st',
    add_from_dynobj Resolver.resolve 32 false (Examples.dynobj "lib1.so")
      [Examples.sym 5 elfcpp.STB_GLOBAL 16 4] (Examples.strtab "foo") 5
      (Some [2; 0]) 2 [None; None; Some "V1"%string] Symbol_table_new
    = Ok (tt, st')
    /\ (Some [2; 0] <> None -> Z.of_nat 1 <= 2 / 2)
    /\ forall j sym,
         [Examples.sym 5 elfcpp.STB_GLOBAL 16 4] !! j = Some sym ->
         dynobj_symbol_checked false 5 (Some [2; 0])
           [None; None; Some "V1"%string] (Z.of_nat j) sym.
Proof.
  eexists. split; [vm_compute; reflexivity|].
  eapply (add_from_dynobj_has_checked Resolver.resolve 32 false
            (Examples.dynobj "lib1.so")
            [Examples.sym 5 elfcpp.STB_GLOBAL 16 4] (Examples.strtab "foo") 5
            (Some [2; 0]) 2 [None; None; Some "V1"%string] Symbol_table_new).
  vm_compute. reflexivity.
Defined.

(** ** Linker definitions *)

(** The target, the name and [only_if_ref] of a linker definition, with
    the [init] function it applies in a table of word size [size]. *)
Definition definition_of (size : Z) (op : Operation)
    : option (Target * string * bool * (Symbol -> Symbol)) :=
  match op with
  | Define_in_output_data target name od value symsize type binding
      visibility nonvis offset_is_from_end only_if_ref =>
      Some (target, name, only_if_ref,
            init_in_output_data name od (wrap size value) (wrap size symsize)
              type binding visibility nonvis offset_is_from_end)
  | Define_in_output_segment target name os value symsize type binding
      visibility nonvis offset_base only_if_ref =>
      Some (target, name, only_if_ref,
            init_in_output_segment name os (wrap size value)
              (wrap size symsize) type binding visibility nonvis offset_base)
  | Define_as_constant target name value symsize type binding visibility
      nonvis only_if_ref =>
      Some (target, name, only_if_ref,
            init_as_constant name (wrap size value) (wrap size symsize) type
              binding visibility nonvis)
  | _ => None
  end.

(** What the three [do_define] functions share. *)
Definition define_body (size : Z) (target : Target) (name : string)
    (only_if_ref : bool) (f : Symbol -> Symbol) : M unit :=
  sym ← define_special_symbol size (is_big_endian target) target name
          only_if_ref;
  match sym : option nat with
  | None => mret tt
  | Some sym => update sym f
  end.

Lemma call_definition resolve op st target name only_if_ref f :
  definition_of (size_ st) op = Some (target, name, only_if_ref, f) ->
  call resolve op st
  = if negb (get_size target =? size_ st) then Crash
    else if (size_ st =? 32) || (size_ st =? 64)
    then define_body (size_ st) target name only_if_ref f st
    else Crash.
Proof.
  intros Hdef.
  destruct op; cbn [definition_of] in Hdef; simplify_eq; cbn [call].
  all: unfold define_in_output_data, define_in_output_segment,
         define_as_constant, dispatch_size, mbind, M_bind, bindM, get,
         assert, retM, crash.
  all: destruct (get_size _ =? size_ st); [|reflexivity]; cbn [negb].
  all: destruct (size_ st =? 32) eqn:E32;
    [apply Z.eqb_eq in E32; rewrite E32; reflexivity|].
  all: destruct (size_ st =? 64) eqn:E64;
    [apply Z.eqb_eq in E64; rewrite E64; reflexivity|].
  all: reflexivity.
Qed.

Lemma call_definition_Ok resolve op st st' target name only_if_ref f :
  definition_of (size_ st) op = Some (target, name, only_if_ref, f) ->
  call resolve op st = Ok (tt, st') ->
  define_body (size_ st) target name only_if_ref f st = Ok (tt, st').
Proof.
  intros Hdef. rewrite (call_definition _ _ _ _ _ _ _ Hdef).
  destruct (negb _); [discriminate|]. destruct (_ || _); [auto|discriminate].
Qed.

Lemma snoc_not_same {A} (l : list A) (x : A) : l ++ [x] <> l.
Proof.
  intros H. apply (f_equal length) in H. rewrite length_app in H.
  cbn in H. lia.
Qed.

(** X17: a linker definition made with [only_if_ref] never adds an entry.
    When the name is not found, or its record is not undefined, the
    symbol table is left as it is; when the record is undefined, it is
    initialized in place as the linker's symbol. *)
Theorem only_if_ref_defines_in_place
    (resolve : Symbol -> elfcpp.Sym -> Object -> outcome Symbol)
    (op : Operation) (st st' : Symbol_table) (target : Target)
    (name : string) (f : Symbol -> Symbol) :
  definition_of (size_ st) op = Some (target, name, true, f) ->
  call resolve op st = Ok (tt, st') ->
  (lookup name None st = None /\ st' = st)
  \/ exists p s,
       lookup name None st = Some p /\ heap st !! p = Some s
       /\ (is_undefined s = false /\ st' = st
           \/ is_undefined s = true
              /\ st' = with_heap (<[p := f s]> (heap st)) st).
Proof.
  intros Hdef H. apply (call_definition_Ok _ _ _ _ _ _ _ _ Hdef) in H.
  unfold define_body, define_special_symbol in H. inv_exact H.
  all: state_simpl; bool_facts; simplify_eq.
  all: try match goal with
       | H : negb (is_undefined _) = false |- _ => apply negb_false_iff in H
       | H : negb (is_undefined _) = true |- _ => apply negb_true_iff in H
       end.
  - right. do 2 eexists. split; [reflexivity|]. split; [eassumption|].
    left. auto.
  - exfalso. unfold is_undefined in *.
    match goal with
    | H : source_ ?s = _, H' : context [source_ ?s] |- _ => rewrite H in H'
    end.
    repeat match goal with
    | H : _ && _ = true |- _ => apply andb_true_iff in H as [H ?]
    end.
    rewrite negb_true_iff in *. congruence.
  - right. do 2 eexists. split; [reflexivity|]. split; [eassumption|].
    right. auto.
  - left. auto.
Qed.

Lemma only_if_ref_defines_in_place_witness :
  exists st st',
    calls Resolver.resolve
      [Add_from_relobj 32 false (Examples.relobj "a.o")
         [Examples.sym elfcpp.SHN_UNDEF elfcpp.STB_GLOBAL 0 0]
         (Examples.strtab "_edata") 8]
      Symbol_table_new = Ok (tt, st)
    /\ call Resolver.resolve
         (Define_in_output_data (Examples.target32 false) "_edata"
            Examples.text_out 0 0 elfcpp.STT_OBJECT elfcpp.STB_GLOBAL
            elfcpp.STV_DEFAULT 0 true true)
         st = Ok (tt, st')
    /\ sized_finalize_value 32 <$> heap st' !! 0%nat
       = Some (Ok (Some 0x1200))
    /\ ((lookup "_edata" None st = None /\ st' = st)
        \/ exists p s,
             lookup "_edata" None st = Some p /\ heap st !! p = Some s
             /\ (is_undefined s = false /\ st' = st
                 \/ is_undefined s = true
                    /\ st' = with_heap
                               (<[p := init_in_output_data "_edata"
                                         Examples.text_out (wrap 32 0)
                                         (wrap 32 0) elfcpp.STT_OBJECT
                                         elfcpp.STB_GLOBAL elfcpp.STV_DEFAULT
                                         0 true s]> (heap st)) st)).
Proof.
  do 2 eexists. split; [vm_compute; reflexivity|].
  match goal with
  | |- call _ ?op ?st0 = _ /\ _ =>
      split; [vm_compute; reflexivity|];
      split; [vm_compute; reflexivity|];
      eapply (only_if_ref_defines_in_place Resolver.resolve op st0 _
                (Examples.target32 false) "_edata")
  end.
  - reflexivity.
  - vm_compute. reflexivity.
Defined.

Lemma definition_found
    (resolve : Symbol -> elfcpp.Sym -> Object -> outcome Symbol)
    (op : Operation) (st st' : Symbol_table) (target : Target)
    (name : string) (f : Symbol -> Symbol) :
  definition_of (size_ st) op = Some (target, name, false, f) ->
  never_declines target ->
  call resolve op st = Ok (tt, st') ->
  err st' = err st ->
  exists p s0,
    lookup name None st' = Some p
    /\ heap st' !! p = Some (f s0)
    /\ (heap st !! p = Some s0
        \/ p = length (heap st) /\ s0 = new_Sized_symbol).
Proof.
  intros Hdef Hok H Herr. apply (call_definition_Ok _ _ _ _ _ _ _ _ Hdef) in H.
  unfold define_body, define_special_symbol in H. inv_exact H.
  all: state_simpl; bool_facts; simplify_eq.
  all: try (now apply snoc_not_same in Herr).
  all: try match goal with
       | H : negb (has_make_symbol _) = false |- _ =>
           apply negb_false_iff in H; apply Hok in H; congruence
       end.
  all: do 2 eexists.
  all: split;
    [ eapply (table_lookup name None); state_simpl;
      [ apply find_after_add | reflexivity
      | table_lookups; try eassumption; reflexivity ] |].
  all: state_simpl.
  all: try match goal with
       | H : (?h ++ [_]) !! length ?h = Some _ |- _ =>
           rewrite list_lookup_middle in H by reflexivity; simplify_eq
       end.
  all: split;
    [ apply list_lookup_insert_eq; rewrite ?length_app; cbn [length];
      try lia; eapply lookup_lt_Some; eassumption |].
  all: auto.
Qed.

(** X18: a linker definition made without [only_if_ref] for a target that
    makes every symbol: when the call returns and has printed no
    message, [lookup] finds the name, and its record is the linker's
    symbol, initialized over the record the name had or over a new
    one. *)
Theorem linker_definition_is_found
    (resolve : Symbol -> elfcpp.Sym -> Object -> outcome Symbol)
    (op : Operation) (st st' : Symbol_table) (target : Target)
    (name : string) (f : Symbol -> Symbol) :
  definition_of (size_ st) op = Some (target, name, false, f) ->
  never_declines target ->
  call resolve op st = Ok (tt, st') ->
  err st' = err st ->
  exists p s0,
    lookup name None st' = Some p
    /\ heap st' !! p = Some (f s0)
    /\ (heap st !! p = Some s0
        \/ p = length (heap st) /\ s0 = new_Sized_symbol).
Proof. apply definition_found. Qed.

Lemma linker_definition_is_found_witness :
  exists st',
    call Resolver.resolve
      (Define_in_output_segment (Examples.target32 false) "_end"
         {| vaddr := 0x8000; memsz := 0x300; filesz := 0x100 |} 0 0
         elfcpp.STT_NOTYPE elfcpp.STB_GLOBAL elfcpp.STV_DEFAULT 0 SEGMENT_END
         false)
      (with_size 32 Symbol_table_new) = Ok (tt, st')
    /\ sized_finalize_value 32 <$> heap st' !! 0%nat
       = Some (Ok (Some 0x8300))
    /\ exists p s0,
         lookup "_end" None st' = Some p
         /\ heap st' !! p
            = Some (init_in_output_segment "_end"
                      {| vaddr := 0x8000; memsz := 0x300; filesz := 0x100 |}
                      (wrap 32 0) (wrap 32 0) elfcpp.STT_NOTYPE
                      elfcpp.STB_GLOBAL elfcpp.STV_DEFAULT 0 SEGMENT_END s0)
         /\ (heap (with_size 32 Symbol_table_new) !! p = Some s0
             \/ p = length (heap (with_size 32 Symbol_table_new))
                /\ s0 = new_Sized_symbol).
Proof.
  eexists. split; [vm_compute; reflexivity|].
  split; [vm_compute; reflexivity|].
  eapply (linker_definition_is_found Resolver.resolve
            (Define_in_output_segment (Examples.target32 false) "_end"
               {| vaddr := 0x8000; memsz := 0x300; filesz := 0x100 |} 0 0
               elfcpp.STT_NOTYPE elfcpp.STB_GLOBAL elfcpp.STV_DEFAULT 0
               SEGMENT_END false)
            (with_size 32 Symbol_table_new) _ (Examples.target32 false)
            "_end").
  - reflexivity.
  - intros H. discriminate H.
  - vm_compute. reflexivity.
  - vm_compute. reflexivity.
Defined.

(** X19: a linker definition whose target factory declines the symbol: for a
    name without an entry the call returns, but the entry inserted for
    the name stays in the hash table with a null pointer. [lookup] then
    returns null for the name, and a later [add_from_object] of the name
    fails its assertion. *)
Theorem declined_linker_definition_leaves_null_entry
    (resolve : Symbol -> elfcpp.Sym -> Object -> outcome Symbol)
    (op : Operation) (st : Symbol_table) (target : Target)
    (name : string) (f : Symbol -> Symbol) :
  definition_of (size_ st) op = Some (target, name, false, f) ->
  get_size target = size_ st -> size_ st = 32 \/ size_ st = 64 ->
  has_make_symbol target = true -> make_symbol target = false ->
  table_ st !! ((Stringpool.add name (namepool_ st)).2, 0) = None ->
  exists st',
    call resolve op st = Ok (tt, st')
    /\ table_ st' !! ((Stringpool.add name (namepool_ st)).2, 0) = Some None
    /\ lookup name None st' = None
    /\ forall size big_endian object sym,
         add_from_object resolve size big_endian object name
           (Stringpool.add name (namepool_ st)).2 None 0 false sym st'
         = Crash.
Proof.
  intros Hdef Hsize Hsz Hhas Hmake Hnew.
  rewrite (call_definition _ _ _ _ _ _ _ Hdef).
  rewrite Hsize, Z.eqb_refl. cbn [negb].
  assert (Hs : (size_ st =? 32) || (size_ st =? 64) = true)
    by (destruct Hsz as [-> | ->]; reflexivity).
  rewrite Hs.
  exists (with_table
            (<[((Stringpool.add name (namepool_ st)).2, 0) := None]>
               (table_ st))
            (with_namepool (Stringpool.add name (namepool_ st)).1 st)).
  split; [|split; [|split]].
  - unfold define_body, define_special_symbol, mbind, M_bind, bindM, get,
      assert, retM, crash, namepool_add, table_insert_snull, table_second,
      mret, M_ret.
    rewrite Z.eqb_refl.
    destruct (Stringpool.add name (namepool_ st)) as [pool key] eqn:Ea.
    cbn [table_ with_namepool with_table fst snd negb] in *.
    rewrite Hnew. cbn [negb table_ with_table].
    rewrite lookup_insert_eq. cbn [bool_decide decide_rel].
    rewrite Hhas, Hmake, Hsize, Z.eqb_refl. cbn.
    now destruct (is_big_endian target).
  - cbn [table_ with_table]. apply lookup_insert_eq.
  - apply (table_lookup name None _ (Stringpool.add name (namepool_ st)).2 0).
    + apply find_after_add.
    + reflexivity.
    + cbn [table_ with_table]. apply lookup_insert_eq.
  - intros size big_endian object sym.
    unfold add_from_object, add_from_object_entry, mbind, M_bind, bindM,
      table_insert_snull, table_second, mret, M_ret, retM, crash.
    cbn [table_ with_table]. rewrite lookup_insert_eq. cbn.
    now rewrite lookup_insert_eq.
Qed.

Lemma declined_linker_definition_leaves_null_entry_witness :
  exists st',
    call Resolver.resolve
      (Define_as_constant Examples.declining_target "etext" 0 0
         elfcpp.STT_NOTYPE elfcpp.STB_GLOBAL elfcpp.STV_DEFAULT 0 false)
      (with_size 32 Symbol_table_new) = Ok (tt, st')
    /\ table_ st' !! (1, 0) = Some None
    /\ lookup "etext" None st' = None
    /\ forall size big_endian object sym,
         add_from_object Resolver.resolve size big_endian object "etext" 1
           None 0 false sym st'
         = Crash.
Proof.
  eapply (declined_linker_definition_leaves_null_entry Resolver.resolve
            (Define_as_constant Examples.declining_target "etext" 0 0
               elfcpp.STT_NOTYPE elfcpp.STB_GLOBAL elfcpp.STV_DEFAULT 0 false)
            (with_size 32 Symbol_table_new) Examples.declining_target
            "etext").
  - reflexivity.
  - reflexivity.
  - left. reflexivity.
  - reflexivity.
  - reflexivity.
  - reflexivity.
Defined.

(** ** The keys of the hash table *)


(** ** Resolving one record with another *)





(** ** The record add_from_object returns *)

Section Returned.

Variable resolve : Symbol -> elfcpp.Sym -> Object -> outcome Symbol.


(** X23: the first time NAME/VERSION is seen (and, for a default version,
    NAME/NULL as well), with a target whose factory does not decline:
    [add_from_object] returns a new record, initialized from the symbol
    by [Sized_symbol::init]; [resolve] takes no part, and the other
    records are as before. *)
Theorem add_from_object_makes_the_record size big_endian object name
    name_key version version_key def sym r st st' :
  table_ st !! (name_key, version_key) = None ->
  (def = true -> table_ st !! (name_key, 0) = None) ->
  never_declines (target object) ->
  add_from_object resolve size big_endian object name name_key version
    version_key def sym st = Ok (r, st') ->
  r = Some (length (heap st))
  /\ heap st' = heap st ++ [init name version object sym new_Sized_symbol].
Proof.
  intros Hnew Hnull Hok H. unfold add_from_object, add_from_object_entry in H.
  inv_exact H.
  all: state_simpl; bool_facts; simplify_eq.
  all: try specialize (Hnull eq_refl).
  all: destruct (decide (version_key = 0)) as [-> | ?]; table_lookups;
    simplify_eq.
  all: try match goal with
       | H : negb (has_make_symbol _) = false |- _ =>
           apply negb_false_iff in H; apply Hok in H; congruence
       end.
  all: try match goal with
       | H : (?h ++ [_]) !! length ?h = Some _ |- _ =>
           rewrite list_lookup_middle in H by reflexivity; simplify_eq
       end.
  all: split; [reflexivity|].
  all: try (rewrite insert_app_r_alt by lia; rewrite Nat.sub_diag;
            reflexivity).
Qed.

(** X24: the default version met after references to both names: when
    NAME/VERSION and NAME/NULL have different records and the symbol is
    the default version, [add_from_object] makes the record of NAME/NULL
    a forwarder to the one of NAME/VERSION, which it returns:
    [resolve_forwards] then leads from the former to the latter, and
    both names are entries for the latter. *)
Theorem add_from_object_forwards_unversioned size big_endian object name
    name_key version version_key sym r ret old st st' :
  table_ st !! (name_key, version_key) = Some (Some ret) ->
  table_ st !! (name_key, 0) = Some (Some old) ->
  old <> ret ->
  add_from_object resolve size big_endian object name name_key version
    version_key true sym st = Ok (r, st') ->
  r = Some ret
  /\ resolve_forwards (Some old) st' = Ok (Some ret)
  /\ table_ st' !! (name_key, 0) = Some (Some ret)
  /\ table_ st' !! (name_key, version_key) = Some (Some ret).
Proof.
  intros Hret Hold Hne H. unfold add_from_object, add_from_object_entry in H.
  inv_exact H.
  all: state_simpl; bool_facts; simplify_eq.
  all: destruct (decide (version_key = 0)) as [-> | ?]; table_lookups;
    simplify_eq.
  all: split; [reflexivity|].
  all: repeat match goal with
       | H : <[?i := _]> _ !! ?j = Some _, Hn : ?j <> ?i |- _ =>
           rewrite list_lookup_insert_ne in H by congruence
       end.
  all: split;
    [ unfold resolve_forwards, deref; state_simpl;
      rewrite list_lookup_insert_eq
        by (rewrite !length_insert; eapply lookup_lt_Some; eassumption);
      cbn [is_forwarder_ set_forwarder]; now rewrite lookup_insert_eq |].
  all: table_lookups; split; try reflexivity; assumption.
Qed.

(** X25: the two counters of [add_from_object]: [saw_undefined_] goes up by
    one, and the record is appended to [commons_], only for a record
    that is undefined, respectively common, when the call returns. *)
Theorem add_from_object_counts size big_endian object name name_key version
    version_key def sym r st st' :
  add_from_object resolve size big_endian object name name_key version
    version_key def sym st = Ok (r, st') ->
  (saw_undefined_ st' = saw_undefined_ st
   \/ saw_undefined_ st' = saw_undefined_ st + 1
      /\ exists ret s,
           r = Some ret /\ heap st' !! ret = Some s
           /\ is_undefined s = true)
  /\ (commons_ st' = commons_ st
      \/ exists ret s,
           r = Some ret /\ commons_ st' = commons_ st ++ [ret]
           /\ heap st' !! ret = Some s /\ is_common s = true).
Proof.
  intros H. unfold add_from_object, add_from_object_entry in H.
  inv_exact H.
  all: state_simpl; bool_facts; simplify_eq.
  all: repeat match goal with
       | H : _ && _ = true |- _ => apply andb_true_iff in H as [? ?]
       end.
  all: split; [try (left; reflexivity) | try (left; reflexivity)].
  all: right; try (split; [reflexivity|]); eauto 10.
Qed.

End Returned.


Lemma add_from_object_makes_the_record_witness :
  exists st',
    add_from_object Resolver.resolve 32 false (Examples.relobj "a.o")
      "foo" 1 (Some "V1"%string) 2 true
      (Examples.sym 3 elfcpp.STB_GLOBAL 16 4) Symbol_table_new
    = Ok (Some 0%nat, st')
    /\ Some 0%nat = Some (length (heap Symbol_table_new))
    /\ heap st'
       = heap Symbol_table_new
         ++ [init "foo" (Some "V1"%string) (Examples.relobj "a.o")
               (Examples.sym 3 elfcpp.STB_GLOBAL 16 4) new_Sized_symbol].
Proof.
  eexists. split; [vm_compute; reflexivity|].
  eapply (add_from_object_makes_the_record Resolver.resolve 32 false
            (Examples.relobj "a.o") "foo" 1 (Some "V1"%string) 2 true
            (Examples.sym 3 elfcpp.STB_GLOBAL 16 4) (Some 0%nat)
            Symbol_table_new).
  - reflexivity.
  - reflexivity.
  - intros H. discriminate H.
  - vm_compute. reflexivity.
Defined.

Lemma add_from_object_forwards_unversioned_witness :
  exists st st',
    calls Resolver.resolve
      [Add_from_dynobj 32 false (Examples.dynobj "lib1.so")
         [Examples.sym 5 elfcpp.STB_GLOBAL 16 4] (Examples.strtab "foo") 5
         (Some [2; 0]) 2 [None; None; Some "V1"%string];
       Add_from_relobj 32 false (Examples.relobj "a.o")
         [Examples.sym elfcpp.SHN_UNDEF elfcpp.STB_GLOBAL 0 0]
         (Examples.strtab "foo@V2") 8]
      Symbol_table_new = Ok (tt, st)
    /\ add_from_object Resolver.resolve 32 false (Examples.dynobj "lib2.so")
         "foo" 1 (Some "V2"%string) 3 true
         (Examples.sym 7 elfcpp.STB_GLOBAL 32 4) st
       = Ok (Some 1%nat, st')
    /\ Some 1%nat = Some 1%nat
    /\ resolve_forwards (Some 0%nat) st' = Ok (Some 1%nat)
    /\ table_ st' !! (1, 0) = Some (Some 1%nat)
    /\ table_ st' !! (1, 3) = Some (Some 1%nat).
Proof.
  do 2 eexists. split; [vm_compute; reflexivity|].
  match goal with
  | |- add_from_object _ _ _ _ _ _ _ _ _ _ ?st0 = _ /\ _ =>
      split; [vm_compute; reflexivity|];
      eapply (add_from_object_forwards_unversioned Resolver.resolve 32 false
                (Examples.dynobj "lib2.so") "foo" 1 (Some "V2"%string) 3
                (Examples.sym 7 elfcpp.STB_GLOBAL 32 4) (Some 1%nat) 1%nat
                0%nat st0)
  end.
  - vm_compute. reflexivity.
  - vm_compute. reflexivity.
  - discriminate.
  - vm_compute. reflexivity.
Defined.

Lemma add_from_object_counts_witness :
  exists st',
    add_from_object Resolver.resolve 32 false (Examples.relobj "a.o")
      "buf" 1 None 0 false
      (Examples.sym elfcpp.SHN_COMMON elfcpp.STB_GLOBAL 4 8) Symbol_table_new
    = Ok (Some 0%nat, st')
    /\ commons_ st' = [0%nat]
    /\ (saw_undefined_ st' = saw_undefined_ Symbol_table_new
        \/ saw_undefined_ st' = saw_undefined_ Symbol_table_new + 1
           /\ exists ret s,
                Some 0%nat = Some ret /\ heap st' !! ret = Some s
                /\ is_undefined s = true)
    /\ (commons_ st' = commons_ Symbol_table_new
        \/ exists ret s,
             Some 0%nat = Some ret
             /\ commons_ st' = commons_ Symbol_table_new ++ [ret]
             /\ heap st' !! ret = Some s /\ is_common s = true).
Proof.
  eexists. split; [vm_compute; reflexivity|].
  split; [vm_compute; reflexivity|].
  eapply (add_from_object_counts Resolver.resolve 32 false
            (Examples.relobj "a.o") "buf" 1 None 0 false
            (Examples.sym elfcpp.SHN_COMMON elfcpp.STB_GLOBAL 4 8)
            (Some 0%nat) Symbol_table_new).
  vm_compute. reflexivity.
Defined.

(** ** Sets of linker definitions *)

(** The target, the name and [only_if_ref] of a linker definition. *)
Definition defined_symbol (op : Operation) : option (Target * string * bool) :=
  match op with
  | Define_in_output_data target name _ _ _ _ _ _ _ _ only_if_ref =>
      Some (target, name, only_if_ref)
  | Define_in_output_segment target name _ _ _ _ _ _ _ _ only_if_ref =>
      Some (target, name, only_if_ref)
  | Define_as_constant target name _ _ _ _ _ _ only_if_ref =>
      Some (target, name, only_if_ref)
  | _ => None
  end.

Lemma defined_symbol_definition op target name only_if_ref size :
  defined_symbol op = Some (target, name, only_if_ref) ->
  exists f, definition_of size op = Some (target, name, only_if_ref, f).
Proof.
  destruct op; cbn; intros H; simplify_eq; eauto.
Qed.

Lemma prefix_both {A} (l1 l2 l3 : list A) :
  l1 `prefix_of` l2 -> l2 `prefix_of` l3 -> l3 = l1 -> l2 = l1.
Proof.
  intros H12 H23 ->. apply (anti_symm prefix); assumption.
Qed.

Lemma calls_definitions_found resolve ops :
  forall st st',
    calls resolve ops st = Ok (tt, st') ->
    err st' = err st ->
    forall op target name,
      op ∈ ops -> defined_symbol op = Some (target, name, false) ->
      never_declines target ->
      exists a, lookup name None st' = Some a.
Proof.
  induction ops as [|op0 rest IH]; intros st st' H Herr op target name Hin
    Hdef Hok; [inversion Hin|].
  cbn [calls] in H. inv_calls H.
  match goal with
  | H1 : call _ _ _ = Ok (?u, _) |- _ => destruct u
  end.
  match goal with
  | H1 : call _ _ _ = Ok (_, ?st1), H2 : calls _ _ _ = Ok _ |- _ =>
      rename H1 into Hcall; rename H2 into Hcalls;
      assert (Hg1 : grows st st1)
        by (apply (calls_grows resolve [op0]); cbn [calls];
            unfold mbind, M_bind, bindM; rewrite Hcall; reflexivity);
      pose proof (calls_grows _ _ _ _ Hcalls) as Hg2;
      assert (Herr1 : err st1 = err st)
        by (eapply prefix_both; [apply Hg1 | apply Hg2 | exact Herr])
  end.
  apply elem_of_cons in Hin as [-> | Hin].
  - destruct (defined_symbol_definition _ _ _ _ (size_ st) Hdef) as [f Hf].
    destruct (definition_found resolve _ _ _ _ _ _ Hf Hok Hcall Herr1)
      as (p & s0 & Hl & _).
    eapply grows_lookup; eassumption.
  - eapply IH; try eassumption. congruence.
Qed.

(** The call an entry of [define_symbols] makes. *)
Definition section_definition
    (find_output_section : string -> option Output_data) (target : Target)
    (p : Define_symbol_in_section.t) : Operation :=
  match find_output_section (Define_symbol_in_section.output_section p) with
  | Some os =>
      Define_in_output_data target (Define_symbol_in_section.name p) os
        (Define_symbol_in_section.value p) (Define_symbol_in_section.size p)
        (Define_symbol_in_section.type p)
        (Define_symbol_in_section.binding p)
        (Define_symbol_in_section.visibility p)
        (Define_symbol_in_section.nonvis p)
        (Define_symbol_in_section.offset_is_from_end p)
        (Define_symbol_in_section.only_if_ref p)
  | None =>
      Define_as_constant target (Define_symbol_in_section.name p) 0
        (Define_symbol_in_section.size p) (Define_symbol_in_section.type p)
        (Define_symbol_in_section.binding p)
        (Define_symbol_in_section.visibility p)
        (Define_symbol_in_section.nonvis p)
        (Define_symbol_in_section.only_if_ref p)
  end.

Definition segment_definition
    (find_output_segment : Z -> Z -> Z -> option Output_segment)
    (target : Target) (p : Define_symbol_in_segment.t) : Operation :=
  match find_output_segment (Define_symbol_in_segment.segment_type p)
          (Define_symbol_in_segment.segment_flags_set p)
          (Define_symbol_in_segment.segment_flags_clear p) with
  | Some os =>
      Define_in_output_segment target (Define_symbol_in_segment.name p) os
        (Define_symbol_in_segment.value p) (Define_symbol_in_segment.size p)
        (Define_symbol_in_segment.type p)
        (Define_symbol_in_segment.binding p)
        (Define_symbol_in_segment.visibility p)
        (Define_symbol_in_segment.nonvis p)
        (Define_symbol_in_segment.offset_base p)
        (Define_symbol_in_segment.only_if_ref p)
  | None =>
      Define_as_constant target (Define_symbol_in_segment.name p) 0
        (Define_symbol_in_segment.size p) (Define_symbol_in_segment.type p)
        (Define_symbol_in_segment.binding p)
        (Define_symbol_in_segment.visibility p)
        (Define_symbol_in_segment.nonvis p)
        (Define_symbol_in_segment.only_if_ref p)
  end.

Lemma define_symbols_calls resolve find_output_section target ps st :
  define_symbols find_output_section target ps st
  = calls resolve (section_definition find_output_section target <$> ps) st.
Proof.
  revert st. induction ps as [|p rest IH]; intros st; [reflexivity|].
  cbn [define_symbols fmap list_fmap calls].
  unfold mbind, M_bind, bindM, section_definition.
  destruct (find_output_section _); cbn [call].
  - destruct (define_in_output_data _ _ _ _ _ _ _ _ _ _ _ st)
      as [[[] st1]| |]; auto.
  - destruct (define_as_constant _ _ _ _ _ _ _ _ _ st) as [[[] st1]| |]; auto.
Qed.

Lemma define_symbols_in_segments_calls resolve find_output_segment target ps
    st :
  define_symbols_in_segments find_output_segment target ps st
  = calls resolve (segment_definition find_output_segment target <$> ps) st.
Proof.
  revert st. induction ps as [|p rest IH]; intros st; [reflexivity|].
  cbn [define_symbols_in_segments fmap list_fmap calls].
  unfold mbind, M_bind, bindM, segment_definition.
  destruct (find_output_segment _ _ _); cbn [call].
  - destruct (define_in_output_segment _ _ _ _ _ _ _ _ _ _ _ st)
      as [[[] st1]| |]; auto.
  - destruct (define_as_constant _ _ _ _ _ _ _ _ _ st) as [[[] st1]| |]; auto.
Qed.

(** X26: [define_symbols] defines its symbols: when it returns for a target
    whose factory does not decline and has printed no message, [lookup]
    finds the name of every entry that is not [only_if_ref], in a
    section or, the output section missing, as a constant. The same
    holds of the [define_symbols] for segments. *)
Theorem define_symbols_defines
    (find_output_section : string -> option Output_data)
    (find_output_segment : Z -> Z -> Z -> option Output_segment)
    (target : Target) (st st' : Symbol_table) :
  never_declines target ->
  err st' = err st ->
  (forall ps p,
     define_symbols find_output_section target ps st = Ok (tt, st') ->
     p ∈ ps -> Define_symbol_in_section.only_if_ref p = false ->
     exists a, lookup (Define_symbol_in_section.name p) None st' = Some a)
  /\ (forall ps p,
        define_symbols_in_segments find_output_segment target ps st
        = Ok (tt, st') ->
        p ∈ ps -> Define_symbol_in_segment.only_if_ref p = false ->
        exists a, lookup (Define_symbol_in_segment.name p) None st' = Some a).
Proof.
  intros Hok Herr. split; intros ps p H Hin Hp.
  - rewrite (define_symbols_calls (fun r _ _ => Ok r)) in H.
    eapply (calls_definitions_found _ _ _ _ H Herr
              (section_definition find_output_section target p));
      [now apply list_elem_of_fmap_2 | | exact Hok].
    unfold section_definition.
    destruct (find_output_section _); cbn; now rewrite Hp.
  - rewrite (define_symbols_in_segments_calls (fun r _ _ => Ok r)) in H.
    eapply (calls_definitions_found _ _ _ _ H Herr
              (segment_definition find_output_segment target p));
      [now apply list_elem_of_fmap_2 | | exact Hok].
    unfold segment_definition.
    destruct (find_output_segment _ _ _); cbn; now rewrite Hp.
Qed.

Lemma define_symbols_defines_witness :
  exists st',
    define_symbols Examples.find_output_section (Examples.target32 false)
      Examples.section_symbols (with_size 32 Symbol_table_new)
    = Ok (tt, st')
    /\ source_ <$> heap st'
       = [IN_OUTPUT_DATA Examples.text_out true; CONSTANT]
    /\ (exists a, lookup "_etext" None st' = Some a)
    /\ (exists a, lookup "_edata" None st' = Some a).
Proof.
  eexists. split; [vm_compute; reflexivity|].
  split; [vm_compute; reflexivity|].
  match goal with
  | |- (exists a, lookup _ _ ?st1 = _) /\ _ =>
      destruct (define_symbols_defines Examples.find_output_section
                  (fun _ _ _ => None) (Examples.target32 false)
                  (with_size 32 Symbol_table_new) st1) as [H _];
      [intros H; discriminate H | vm_compute; reflexivity |]
  end.
  split.
  - apply (H Examples.section_symbols Examples.etext_symbol);
      [vm_compute; reflexivity | left | reflexivity].
  - apply (H Examples.section_symbols Examples.edata_symbol);
      [vm_compute; reflexivity | right; left | reflexivity].
Defined.
